(** * KIELER/KEITH diagram core: region expand/collapse engine and
      layered-constraint resolver

    A shallow embedding of
    - [src/depth-map.ts] (classes [DepthMap] and [Region]), and
    - [keith-interactive/src/browser/layered/constraint-utils.ts]
    together with the properties their specification states about them and
    further properties that the code itself shows.

    Conventions of the embedding.
    - In modules [DepthMapEngine] and [LayeredConstraints] a JavaScript
      [number] is an exact rational ([Q]): sums, differences and quotients
      are not rounded, a quotient by zero is zero, and NaN and the infinities
      are not represented; integer-valued layout properties ([layerId],
      [positionId], ...) are [Z].
    - Module [Binary64] repeats the expansion test, which divides by the
      canvas size and the zoom and compares the quotient with a threshold,
      on IEEE 754 binary64 numbers ([SpecFloat]); the properties of the
      test itself are stated there.  [LayeredConstraints.onGrid] delimits
      coordinates on which the layer bounds are exact in binary64.
    - A field that may be [undefined] is an [option].
    - Objects compared with [===] carry the identity the comparison looks at:
      a scroll point carries a reference, a [Region] is identified by its
      position in the region tree, a [KNode] by its (model-unique) id.
    - A [Set] is a duplicate-free list in insertion order, which is the order
      [forEach] visits. *)

From Stdlib Require Import QArith Qminmax ZArith List Bool Lia Lqa Sorted Permutation
  SpecFloat.
From stdpp Require Import gmap strings list.

Set Warnings "-register-all,-clear-no-such-hyp".
Open Scope string_scope.
Open Scope list_scope.

(** ** Numbers *)

(** The comparisons [<], [>=] and [>] on numbers, and [Math.min] and
    [Math.max]. *)
Definition Qltb (a b : Q) : bool := negb (Qle_bool b a).
Definition Qgeb (a b : Q) : bool := Qle_bool b a.
Definition Qgtb (a b : Q) : bool := negb (Qle_bool a b).
Definition Qmin' (a b : Q) : Q := if Qle_bool a b then a else b.
Definition Qmax' (a b : Q) : Q := if Qle_bool a b then b else a.

(** ** Part I: the DepthMap / Region engine ([src/depth-map.ts]) *)

Module DepthMapEngine.

Definition EXPANDED : bool := true.
Definition COLLAPSED : bool := false.

(** sprotty's [Bounds]. *)
Record Bounds := mkBounds { x : Q; y : Q; width : Q; height : Q }.

(** The point object held in [viewport.scroll].  [scrollRef] is the identity
    of the object: [===] on two scroll values compares it and nothing else. *)
Record Point := mkPoint { scrollRef : nat; px : Q; py : Q }.

(** sprotty's [Viewport]. *)
Record Viewport := mkViewport { scroll : Point; zoom : Q }.

(** Modelled from the spec: a rendering entry of [KNode.data]
    ([KContainerRendering] of [skgraph-models], not among the sources),
    reduced to the two fields [initHelper] reads.  [rchildren] is [None]
    where the entry has no [children] array. *)
Inductive KRendering := mkKRendering {
  rtype : string;
  rchildren : option (list KRendering)
}.

(** Value of [K_RECTANGLE]: [skgraph-models] is not among the sources; the
    views file among them declares the constant with this value. *)
Definition K_RECTANGLE : string := "KRectangleImpl".

(** Modelled from the spec: the fields of a [KNode] ([constraint-classes],
    not among the sources) that the engine reads.  [data] and [children] are
    [None] on a malformed node where they are [undefined]. *)
Inductive KNode := mkKNode {
  id : string;
  bounds : Bounds;
  data : option (list KRendering);
  children : option (list KNode)
}.

(** [SModelRoot]: [rootRef] is the identity compared by [!==] in
    [getInstance]. *)
Record SModelRoot := mkSModelRoot {
  rootRef : nat;
  canvasBounds : Bounds;
  rootChildren : option (list KNode)
}.

(** [Region], without its mutable [expansionState] (kept in the DepthMap's
    store below) and without [parent] (the parent of the region at path
    [p ++ [i]] is the region at path [p]). *)
Inductive Region := mkRegion {
  boundingRectangle : option KNode;
  elements : list KNode;
  regionChildren : list Region;
  absoluteBounds : option Bounds
}.

(** Identity of a [Region] object: the index of its root region in
    [rootRegions] followed by the child indices leading to it. *)
Abbreviation RegionRef := (list nat).

Definition parentRef (p : RegionRef) : option RegionRef :=
  match p with
  | [] | [_] => None
  | _ => Some (removelast p)
  end.

Fixpoint regionAt (rs : list Region) (p : RegionRef) : option Region :=
  match p with
  | [] => None
  | i :: p' =>
      match nth_error rs i with
      | None => None
      | Some r => match p' with
                  | [] => Some r
                  | _ => regionAt (regionChildren r) p'
                  end
      end
  end.

(** [Set.add] and [Set.delete] on an insertion-ordered set of regions. *)
Definition refEqb (p q : RegionRef) : bool := bool_decide (p = q).
Definition setHas (p : RegionRef) (s : list RegionRef) : bool := existsb (refEqb p) s.
Definition setAdd (p : RegionRef) (s : list RegionRef) : list RegionRef :=
  if setHas p s then s else s ++ [p].
Definition setDelete (p : RegionRef) (s : list RegionRef) : list RegionRef :=
  List.filter (fun q => negb (refEqb p q)) s.

(** The [DepthMap] object together with the mutable fields of the objects it
    owns: [expansionState] holds [Region.expansionState] per region and
    [nodeExpansionState] holds [KNode.expansionState] per element id; a key
    that is absent is a field that is still [undefined]. *)
Record DepthMap := mkDepthMap {
  rootElement : SModelRoot;
  rootRegions : list Region;
  regionMap : gmap string RegionRef;
  viewport : option Viewport;
  criticalRegions : list RegionRef;
  absoluteVisibilityBuffer : Q;
  expansionState : gmap RegionRef bool;
  nodeExpansionState : gmap string bool
}.

Definition withViewport (v : option Viewport) (dm : DepthMap) : DepthMap :=
  mkDepthMap (rootElement dm) (rootRegions dm) (regionMap dm) v
    (criticalRegions dm) (absoluteVisibilityBuffer dm)
    (expansionState dm) (nodeExpansionState dm).

Definition withCritical (c : list RegionRef) (dm : DepthMap) : DepthMap :=
  mkDepthMap (rootElement dm) (rootRegions dm) (regionMap dm) (viewport dm)
    c (absoluteVisibilityBuffer dm)
    (expansionState dm) (nodeExpansionState dm).

Definition withExpansion (e : gmap RegionRef bool) (n : gmap string bool)
    (dm : DepthMap) : DepthMap :=
  mkDepthMap (rootElement dm) (rootRegions dm) (regionMap dm) (viewport dm)
    (criticalRegions dm) (absoluteVisibilityBuffer dm) e n.

Definition withRegions (rs : list Region) (m : gmap string RegionRef)
    (dm : DepthMap) : DepthMap :=
  mkDepthMap (rootElement dm) rs m (viewport dm)
    (criticalRegions dm) (absoluteVisibilityBuffer dm)
    (expansionState dm) (nodeExpansionState dm).

(** [Region.setExpansionState]. *)
Definition setExpansionState (p : RegionRef) (region : Region) (state : bool)
    (dm : DepthMap) : DepthMap :=
  withExpansion
    (<[p := state]> (expansionState dm))
    (fold_left (fun m elem => <[id elem := state]> m) (elements region)
       (nodeExpansionState dm))
    dm.

(** [DepthMap.isVisible], in exact arithmetic ([Binary64.isVisible] is the
    function on doubles). *)
Definition isVisible (dm : DepthMap) (region : Region) (vp : Viewport) : bool :=
  match absoluteBounds region with
  | Some ab =>
      let canvas := canvasBounds (rootElement dm) in
      let buffer := absoluteVisibilityBuffer dm in
      Qgeb (x ab + width ab) (px (scroll vp) - buffer)
      && Qle_bool (x ab) (px (scroll vp) + (width canvas / zoom vp) + buffer)
      && Qgeb (y ab + height ab) (py (scroll vp) - buffer)
      && Qle_bool (y ab) (py (scroll vp) + (height canvas / zoom vp) + buffer)
  | None => true
  end.

(** [DepthMap.sizeInViewport], in exact arithmetic
    ([Binary64.sizeInViewport] is the function on doubles).  [node.root] is
    the model root the DepthMap was built from, passed here as [root]. *)
Definition sizeInViewport (root : SModelRoot) (node : KNode) (vp : Viewport) : Q :=
  let horizontal := (width (bounds node) / (width (canvasBounds root) / zoom vp))%Q in
  let vertical := (height (bounds node) / (height (canvasBounds root) / zoom vp))%Q in
  if Qgtb horizontal vertical then horizontal else vertical.

(** [DepthMap.getExpansionState]. *)
Definition getExpansionState (dm : DepthMap) (region : Region) (vp : Viewport)
    (threshold : Q) : bool :=
  if negb (isVisible dm region vp) then COLLAPSED
  else match boundingRectangle region with
       | None => EXPANDED
       | Some br =>
           let viewportSize := sizeInViewport (rootElement dm) br vp in
           if Qgeb viewportSize threshold || Qgeb (zoom vp) 1 then EXPANDED
           else COLLAPSED
       end.

(** Iteration over a list or set of regions, as in
    [region.children.forEach(childRegion => ...)] and
    [for (let region of this.rootRegions)]: the callback receives the index
    of the region (which, appended to the reference of its parent, is its
    reference) and the region. *)
Section ForEachChild.
Context (callback : nat -> Region -> DepthMap -> DepthMap).

Fixpoint forEachFrom (i : nat) (cs : list Region) (dm : DepthMap) : DepthMap :=
  match cs with
  | [] => dm
  | childRegion :: cs' => forEachFrom (S i) cs' (callback i childRegion dm)
  end.
End ForEachChild.

(** [DepthMap.recursiveCollapseRegion]. *)
Fixpoint recursiveCollapseRegion (p : RegionRef) (region : Region)
    (dm : DepthMap) : DepthMap :=
  let dm1 := setExpansionState p region COLLAPSED dm in
  let dm2 := withCritical (setDelete p (criticalRegions dm1)) dm1 in
  forEachFrom
    (fun i childRegion dm =>
       match expansionState dm !! (p ++ [i]) with
       | Some true => recursiveCollapseRegion (p ++ [i]) childRegion dm
       | _ => dm
       end)
    0%nat (regionChildren region) dm2.

(** [DepthMap.searchUntilCollapse]. *)
Fixpoint searchUntilCollapse (vp : Viewport) (threshold : Q)
    (p : RegionRef) (region : Region) (dm : DepthMap) : DepthMap :=
  let dm1 := setExpansionState p region true dm in
  forEachFrom
    (fun i childRegion dm =>
       match boundingRectangle childRegion with
       | Some _ =>
           if getExpansionState dm childRegion vp threshold
           then searchUntilCollapse vp threshold (p ++ [i]) childRegion dm
           else recursiveCollapseRegion (p ++ [i]) childRegion
                  (withCritical (setAdd p (criticalRegions dm)) dm)
       | None => dm
       end)
    0%nat (regionChildren region) dm1.

(** The references of the children of the region at [p], in the order of
    its [children] set. *)
Definition childRefs (p : RegionRef) (region : Region) : list RegionRef :=
  imap (fun i _ => p ++ [i]) (regionChildren region).

(** State of the loops of [checkCriticalRegions]: the DepthMap and the
    local sets [childSet] and [nextToBeProcessed]. *)
Record CheckState := mkCheckState {
  csMap : DepthMap;
  csChildSet : list RegionRef;
  csNext : list RegionRef
}.

(** Body of [toBeProcessed.forEach] in [checkCriticalRegions]. *)
Definition processRegion (vp : Viewport) (threshold : Q) (p : RegionRef)
    (st : CheckState) : CheckState :=
  let dm := csMap st in
  match regionAt (rootRegions dm) p with
  | None => st
  | Some region =>
      let parentCollapsed :=
        match parentRef p with
        | Some pp => match expansionState dm !! pp with
                     | Some false => true
                     | _ => false
                     end
        | None => false
        end in
      if parentCollapsed || negb (getExpansionState dm region vp threshold) then
        let dm1 := setExpansionState p region false dm in
        let dm2 := withCritical (setDelete p (criticalRegions dm1)) dm1 in
        let '(next, dm3) :=
          match parentRef p with
          | Some pp => (setAdd pp (csNext st),
                        withCritical (setAdd pp (criticalRegions dm2)) dm2)
          | None => (csNext st, dm2)
          end in
        let dm4 :=
          forEachFrom
            (fun i childRegion dm => recursiveCollapseRegion (p ++ [i]) childRegion dm)
            0%nat (regionChildren region) dm3 in
        mkCheckState dm4 (csChildSet st) next
      else
        mkCheckState dm
          (fold_left (fun s q => setAdd q s) (childRefs p region) (csChildSet st))
          (csNext st)
  end.

(** The [while (toBeProcessed.size !== 0)] loop of [checkCriticalRegions];
    [None] when [fuel] rounds do not empty [toBeProcessed]. *)
Fixpoint processLoop (fuel : nat) (vp : Viewport) (threshold : Q)
    (toBeProcessed : list RegionRef) (dm : DepthMap) (childSet : list RegionRef)
    : option (DepthMap * list RegionRef) :=
  match toBeProcessed with
  | [] => Some (dm, childSet)
  | _ =>
      match fuel with
      | O => None
      | S fuel' =>
          let st := fold_left (fun st p => processRegion vp threshold p st)
                      toBeProcessed (mkCheckState dm childSet []) in
          processLoop fuel' vp threshold (csNext st) (csMap st) (csChildSet st)
      end
  end.

(** Body of [childSet.forEach] in [checkCriticalRegions]. *)
Definition checkChild (vp : Viewport) (threshold : Q) (dm : DepthMap)
    (q : RegionRef) : DepthMap :=
  match regionAt (rootRegions dm) q with
  | None => dm
  | Some childRegion =>
      if getExpansionState dm childRegion vp threshold
      then searchUntilCollapse vp threshold q childRegion dm
      else
        let dm1 := match parentRef q with
                   | Some pp => withCritical (setAdd pp (criticalRegions dm)) dm
                   | None => dm
                   end in
        recursiveCollapseRegion q childRegion dm1
  end.

(** The depth of the deepest region of a set.  One round more than that
    empties [toBeProcessed], since every round replaces the processed
    regions by parents, which are one level higher. *)
Definition maxDepth (s : list RegionRef) : nat :=
  fold_right (fun p m => Nat.max (length p) m) 0%nat s.

(** [DepthMap.checkCriticalRegions]. *)
Definition checkCriticalRegions (vp : Viewport) (threshold : Q) (dm : DepthMap)
    : option DepthMap :=
  match processLoop (S (maxDepth (criticalRegions dm))) vp threshold
          (criticalRegions dm) dm [] with
  | None => None
  | Some (dm1, childSet) => Some (fold_left (checkChild vp threshold) childSet dm1)
  end.

(** Modelled from the spec: [RenderingOptions] ([options], not among the
    sources), reduced to what [expandCollapse] asks of it,
    [renderingOptions.getOption(ExpandCollapseThreshold.ID)]: the option
    object, reduced to its [currentValue], or [None] when not registered. *)
Record RenderingOptions := mkRenderingOptions {
  expandCollapseThresholdOption : option Q
}.

Definition defaultThreshold : Q := 2 # 10.

(** [thresholdOption ? thresholdOption.currentValue : defaultThreshold]. *)
Definition thresholdOf (renderingOptions : RenderingOptions) : Q :=
  match expandCollapseThresholdOption renderingOptions with
  | Some currentValue => currentValue
  | None => defaultThreshold
  end.

(** [===] on the scroll objects and on the zoom numbers of two viewports. *)
Definition sameScroll (a b : Point) : bool := Nat.eqb (scrollRef a) (scrollRef b).

Definition viewportUnchanged (last : option Viewport) (vp : Viewport) : bool :=
  match last with
  | Some l => sameScroll (scroll l) (scroll vp) && Qeq_bool (zoom l) (zoom vp)
  | None => false
  end.

(** The cold-start branch of [expandCollapse]: the loop over [rootRegions]. *)
Definition initializeRoots (vp : Viewport) (threshold : Q) (dm : DepthMap) : DepthMap :=
  forEachFrom
    (fun i region dm =>
       if getExpansionState dm region vp threshold
       then searchUntilCollapse vp threshold [i] region dm
       else dm)
    0%nat (rootRegions dm) dm.

(** [DepthMap.expandCollapse]; [None] only if [checkCriticalRegions] did
    not finish. *)
Definition expandCollapse (vp : Viewport) (renderingOptions : RenderingOptions)
    (dm : DepthMap) : option DepthMap :=
  if viewportUnchanged (viewport dm) vp then Some dm
  else
    let dm1 := withViewport (Some (mkViewport (scroll vp) (zoom vp))) dm in
    let expandCollapseThreshold := thresholdOf renderingOptions in
    match criticalRegions dm1 with
    | [] => Some (initializeRoots vp expandCollapseThreshold dm1)
    | _ => checkCriticalRegions vp expandCollapseThreshold dm1
    end.

(** *** Construction of the region tree *)

(** A JavaScript exception. *)
Inductive JsError := TypeError (msg : string).

(** [new Region(boundingRectangle)]. *)
Definition newRegion (boundingRectangle : KNode) : Region :=
  mkRegion (Some boundingRectangle) [] [] None.

Definition pushElement (child : KNode) (region : Region) : Region :=
  mkRegion (boundingRectangle region) (elements region ++ [child])
    (regionChildren region) (absoluteBounds region).

Definition addChild (nextRegion : Region) (region : Region) : Region :=
  mkRegion (boundingRectangle region) (elements region)
    (regionChildren region ++ [nextRegion]) (absoluteBounds region).

(** The test of [initHelper],
    [child.data.length > 0 && child.data[0].type === K_RECTANGLE
     && child.data[0].children[0]];
    it throws where [data], or the [children] of a rectangle, is
    [undefined]. *)
Definition startsRegion (child : KNode) : JsError + bool :=
  match data child with
  | None => inl (TypeError "Cannot read properties of undefined (reading 'length')")
  | Some [] => inr false
  | Some (d0 :: _) =>
      if String.eqb (rtype d0) K_RECTANGLE then
        match rchildren d0 with
        | None => inl (TypeError "Cannot read properties of undefined (reading '0')")
        | Some [] => inr false
        | Some (_ :: _) => inr true
        end
      else inr false
  end.

(** [DepthMap.addRegionToMap]; the region is stored by reference. *)
Definition addRegionToMap (p : RegionRef) (region : Region)
    (m : gmap string RegionRef) : JsError + gmap string RegionRef :=
  match boundingRectangle region with
  | None => inl (TypeError "Cannot read properties of undefined (reading 'id')")
  | Some br => inr (<[id br := p]> m)
  end.

(** Result of a construction step: the region under construction and the
    region map as the step left them, and the exception it threw, if any.
    Both objects are mutated in place, so what was built before a throw
    stays built. *)
Definition Built : Type := (Region * gmap string RegionRef * option JsError)%type.

(** The loop [for (let child of node.children)] of [initHelper]; [visit] is
    [initHelper] itself and [p] the reference of [region]. *)
Section ForOfChildren.
Context (visit : KNode -> nat -> RegionRef -> Region -> gmap string RegionRef -> Built).

Fixpoint forOfChildren (depth : nat) (p : RegionRef) (cs : list KNode)
    (region : Region) (m : gmap string RegionRef) : Built :=
  match cs with
  | [] => (region, m, None)
  | child :: cs' =>
      let region1 := pushElement child region in
      match startsRegion child with
      | inl e => (region1, m, Some e)
      | inr true =>
          let nextRegion := newRegion child in
          let q := p ++ [length (regionChildren region1)] in
          match addRegionToMap q nextRegion m with
          | inl e => (addChild nextRegion region1, m, Some e)
          | inr m1 =>
              let '(nextRegion', m2, err) := visit child (S depth) q nextRegion m1 in
              let region2 := addChild nextRegion' region1 in
              match err with
              | Some e => (region2, m2, Some e)
              | None => forOfChildren depth p cs' region2 m2
              end
          end
      | inr false =>
          let '(region2, m2, err) := visit child depth p region1 m in
          match err with
          | Some e => (region2, m2, Some e)
          | None => forOfChildren depth p cs' region2 m2
          end
      end
  end.
End ForOfChildren.

(** [DepthMap.initHelper]. *)
Fixpoint initHelper (node : KNode) (depth : nat) (p : RegionRef) (region : Region)
    (m : gmap string RegionRef) : Built :=
  match children node with
  | None => (region, m, Some (TypeError "node.children is not iterable"))
  | Some cs =>
      forOfChildren (fun child depth p region m => initHelper child depth p region m)
        depth p cs region m
  end.

(** The loop [for (let root_child of model_root.children)] of [init]. *)
Fixpoint forOfRootChildren (cs : list KNode) (dm : DepthMap) : DepthMap * option JsError :=
  match cs with
  | [] => (dm, None)
  | node :: cs' =>
      let region := newRegion node in
      let p := [length (rootRegions dm)] in
      match addRegionToMap p region (regionMap dm) with
      | inl e => (withRegions (rootRegions dm ++ [region]) (regionMap dm) dm, Some e)
      | inr m1 =>
          let '(region', m2, err) := initHelper node 0 p region m1 in
          let dm1 := withRegions (rootRegions dm ++ [region']) m2 dm in
          match err with
          | Some e => (dm1, Some e)
          | None => forOfRootChildren cs' dm1
          end
      end
  end.

(** [DepthMap.init]. *)
Definition init (model_root : SModelRoot) (dm : DepthMap) : DepthMap * option JsError :=
  match rootChildren model_root with
  | None => (dm, Some (TypeError "model_root.children is not iterable"))
  | Some cs => forOfRootChildren cs dm
  end.

(** [new DepthMap(rootElement)].  The constructor sets the fields of the
    DepthMap and leaves the nodes of the model as they are; the store of
    [KNode.expansionState] is empty here, which is the state of a model none
    of whose nodes has been assigned an [expansionState] yet. *)
Definition newDepthMap (rootElement : SModelRoot) : DepthMap :=
  mkDepthMap rootElement [] ∅ None [] 500 ∅ ∅.

(** What [getInstance] reads and writes outside its argument: the static
    [DepthMap.instance] and the console. *)
Record Runtime := mkRuntime {
  instance : option DepthMap;
  console : list string
}.

Definition consoleLog (line : string) (rt : Runtime) : Runtime :=
  mkRuntime (instance rt) (console rt ++ [line]).

Definition sameRoot (a b : SModelRoot) : bool := Nat.eqb (rootRef a) (rootRef b).

(** [!DepthMap.instance || DepthMap.instance.rootElement !== rootElement]. *)
Definition rebuildDue (rootElement : SModelRoot) (rt : Runtime) : bool :=
  match instance rt with
  | None => true
  | Some inst => negb (sameRoot (DepthMapEngine.rootElement inst) rootElement)
  end.

(** [DepthMap.getInstance]: the returned DepthMap and the runtime after the
    call.  No exception leaves the [try]. *)
Definition getInstance (rootElement : SModelRoot) (rt : Runtime) : DepthMap * Runtime :=
  if rebuildDue rootElement rt then
    let rt1 := consoleLog "Starting reinizialization of DepthMap" rt in
    match init rootElement (newDepthMap rootElement) with
    | (dm, None) =>
        (dm, mkRuntime (Some dm) (console rt1 ++ ["Reinizialized DepthMap"]))
    | (dm, Some e) =>
        (dm, mkRuntime (Some dm) (console rt1 ++ ["Failed to initialize DepthMap"]))
    end
  else
    match instance rt with
    | Some inst => (inst, rt)
    | None => (newDepthMap rootElement, rt)
    end.

(** [DepthMap.getRegion]: [this.regionMap.get(id)]. *)
Definition getRegion (dm : DepthMap) (id : string) : option RegionRef :=
  regionMap dm !! id.

(** [DepthMap.findRegionWithElement].  The loop follows [current.parent]
    (sprotty's parent link, not among the sources) until it is [undefined]:
    the node is given by the ids on that chain, its own first. *)
Fixpoint findRegionWithElement (dm : DepthMap) (chain : list string) : option RegionRef :=
  match chain with
  | [] => None
  | current :: parents =>
      match getRegion dm current with
      | Some region => Some region
      | None => findRegionWithElement dm parents
      end
  end.

(** *** Vocabulary of the properties *)

(** The fields of a DepthMap that expand/collapse propagation only reads. *)
Definition sameStatic (dm dm' : DepthMap) : Prop :=
  rootElement dm' = rootElement dm /\ rootRegions dm' = rootRegions dm /\
  regionMap dm' = regionMap dm /\ viewport dm' = viewport dm /\
  absoluteVisibilityBuffer dm' = absoluteVisibilityBuffer dm.

(** Ids of the elements of a region and of all regions below it. *)
Fixpoint subtreeElementIds (r : Region) : list string :=
  map id (elements r) ++ flat_map subtreeElementIds (regionChildren r).

(** [Frame R I dm dm']: going from [dm] to [dm'] wrote only to regions in
    [R], only to elements with an id in [I], and added only regions in [R]
    to [criticalRegions]. *)
Record Frame (R : RegionRef -> Prop) (I : string -> Prop) (dm dm' : DepthMap) : Prop := {
  frame_static : sameStatic dm dm';
  frame_regions : forall q, ~ R q ->
      expansionState dm' !! q = expansionState dm !! q;
  frame_nodes : forall k, ~ I k ->
      nodeExpansionState dm' !! k = nodeExpansionState dm !! k;
  frame_critical : forall q, q ∈ criticalRegions dm' ->
      q ∈ criticalRegions dm \/ R q
}.

(** The regions at or below [p]; the ids listed in [ids]. *)
Definition below (p : RegionRef) : RegionRef -> Prop := fun q => p `prefix_of` q.
Definition among (ids : list string) : string -> Prop := fun k => k ∈ ids.

(** The regions and elements the cold-start loop may write: those below a
    root region that tests [EXPANDED]. *)
Definition expandedRoots (test : Region -> bool) (k : nat) (roots : list Region)
    : RegionRef -> Prop :=
  fun q => exists j r, roots !! j = Some r /\ test r = true /\ below [(k + j)%nat] q.

Definition expandedRootIds (test : Region -> bool) (roots : list Region)
    : string -> Prop :=
  fun e => exists j r, roots !! j = Some r /\ test r = true /\ e ∈ subtreeElementIds r.

(** Below [p] nothing has been written yet. *)
Definition unwrittenBelow (p : RegionRef) (dm : DepthMap) : Prop :=
  forall q, below p q -> expansionState dm !! q = None /\ q ∉ criticalRegions dm.

(** At and below [p]: [p] is expanded, an expanded region has an expanded
    parent, and a critical region is expanded and has a collapsed child. *)
Record SettledBelow (p : RegionRef) (dm : DepthMap) : Prop := {
  settled_top : expansionState dm !! p = Some true;
  settled_parent : forall q, below p q -> q <> p ->
      expansionState dm !! q = Some true ->
      expansionState dm !! removelast q = Some true;
  settled_critical : forall q, below p q -> q ∈ criticalRegions dm ->
      expansionState dm !! q = Some true /\
      exists i, expansionState dm !! (q ++ [i]) = Some false
}.

(** Everywhere: an expanded region has an expanded parent, and a critical
    region is expanded and has a collapsed child. *)
Record Settled (dm : DepthMap) : Prop := {
  settled_nowhere : expansionState dm !! [] = None /\ [] ∉ criticalRegions dm;
  settled_orphans : forall q pp,
      expansionState dm !! q = Some EXPANDED -> parentRef q = Some pp ->
      expansionState dm !! pp = Some EXPANDED;
  settled_frontier : forall q, q ∈ criticalRegions dm ->
      expansionState dm !! q = Some EXPANDED /\
      exists i, expansionState dm !! (q ++ [i]) = Some COLLAPSED
}.

(** The region map of a construction step. *)
Definition builtMap (b : Built) : gmap string RegionRef := snd (fst b).

(** Going from [dm] to [dm'] expanded nothing: every region and every
    element has the state it had or is [COLLAPSED], and no region was added
    to [criticalRegions]. *)
Record OnlyCollapses (dm dm' : DepthMap) : Prop := {
  collapses_static : sameStatic dm dm';
  collapses_regions : forall q,
      expansionState dm' !! q = expansionState dm !! q \/
      expansionState dm' !! q = Some COLLAPSED;
  collapses_nodes : forall k,
      nodeExpansionState dm' !! k = nodeExpansionState dm !! k \/
      nodeExpansionState dm' !! k = Some COLLAPSED;
  collapses_critical : forall q, q ∈ criticalRegions dm' -> q ∈ criticalRegions dm
}.

(** Going from [dm] to [dm'] removed no region outside [R] from
    [criticalRegions]. *)
Definition KeepsCritical (R : RegionRef -> Prop) (dm dm' : DepthMap) : Prop :=
  forall q, ~ R q -> q ∈ criticalRegions dm -> q ∈ criticalRegions dm'.

(** Going from [dm] to [dm'] expanded only regions for which
    [getExpansionState] returns [EXPANDED] at the viewport [vp]: a region
    that is [EXPANDED] in [dm'] was so in [dm], or it is a region of the
    tree that tests [EXPANDED]. *)
Definition ExpandsOnlyTested (vp : Viewport) (threshold : Q) (dm dm' : DepthMap) : Prop :=
  sameStatic dm dm' /\
  forall q, expansionState dm' !! q = Some EXPANDED ->
    expansionState dm !! q = Some EXPANDED \/
    exists r, regionAt (rootRegions dm) q = Some r /\
              getExpansionState dm r vp threshold = EXPANDED.

(** The model below a node can be traversed by [initHelper]: every node
    has a [children] array, and every node below the first has a [data]
    array whose leading rectangle, if it has one, has a [children] array. *)
Definition testable (child : KNode) : bool :=
  match startsRegion child with inr _ => true | inl _ => false end.

Fixpoint traversable (node : KNode) : bool :=
  match children node with
  | None => false
  | Some cs => forallb (fun child => testable child && traversable child) cs
  end.

Definition traversableModel (model_root : SModelRoot) : bool :=
  match rootChildren model_root with
  | None => false
  | Some cs => forallb traversable cs
  end.

(** In the region tree [rs], [path] leads to a region whose bounding
    rectangle has the id [k]. *)
Definition pointsTo (rs : list Region) (path : RegionRef) (k : string) : Prop :=
  exists r br, regionAt rs path = Some r /\ boundingRectangle r = Some br /\ id br = k.

(** A construction step on the region at [p] extends its children, keeps
    its bounding rectangle and registers only regions below it. *)
Definition Registers (p : RegionRef) (region : Region) (m : gmap string RegionRef)
    (b : Built) : Prop :=
  (exists added, regionChildren (fst (fst b)) = regionChildren region ++ added) /\
  boundingRectangle (fst (fst b)) = boundingRectangle region /\
  forall k path, builtMap b !! k = Some path ->
    m !! k = Some path \/
    exists i q, path = p ++ i :: q /\ pointsTo (regionChildren (fst (fst b))) (i :: q) k.

(** *** A diagram with nested regions

    Model root with one top-level node [g]; [g] holds the child areas [p]
    and [q], and [p] holds the child area [c].  Every node is rendered by a
    rectangle with a child rendering, so each starts a region:
    [[0]] is the region of [g], [[0;0]] of [p], [[0;0;0]] of [c] and
    [[0;1]] of [q]. *)
Module Scenario.

Definition childArea : list KRendering :=
  [mkKRendering K_RECTANGLE (Some [mkKRendering "KChildAreaImpl" None])].

Definition nodeC : KNode := mkKNode "c" (mkBounds 0 0 200 200) (Some childArea) (Some []).
Definition nodeP : KNode := mkKNode "p" (mkBounds 0 0 600 600) (Some childArea) (Some [nodeC]).
Definition nodeQ : KNode := mkKNode "q" (mkBounds 0 0 300 300) (Some childArea) (Some []).
Definition nodeG : KNode :=
  mkKNode "g" (mkBounds 0 0 1000 1000) (Some childArea) (Some [nodeP; nodeQ]).

Definition model : SModelRoot :=
  mkSModelRoot 1 (mkBounds 0 0 1000 1000) (Some [nodeG]).

(** The DepthMap [getInstance] builds for [model] in a fresh runtime. *)
Definition built : DepthMap := fst (getInstance model (mkRuntime None [])).

(** The assignment [region.absoluteBounds = b] to a root region, made by
    the renderer once the region's place on screen is known. *)
Definition assignAbsoluteBounds (i : nat) (b : Bounds) (dm : DepthMap) : DepthMap :=
  withRegions
    (alter (fun r => mkRegion (boundingRectangle r) (elements r) (regionChildren r) (Some b))
       i (rootRegions dm))
    (regionMap dm) dm.

(** Only the outermost region has been placed on screen so far. *)
Definition fresh : DepthMap := assignAbsoluteBounds 0 (mkBounds 0 0 1000 1000) built.

Definition options : RenderingOptions := mkRenderingOptions None.

(** Zoomed out to one half over the diagram: [g] and [p] are large enough
    to expand, [c] and [q] are not. *)
Definition overview : Viewport := mkViewport (mkPoint 1 0 0) (1 # 2).
(** Scrolled far to the right of [g], at native resolution. *)
Definition awayNative : Viewport := mkViewport (mkPoint 2 5000 0) 1.
(** Scrolled far to the right of [g], still zoomed out. *)
Definition away : Viewport := mkViewport (mkPoint 3 5000 0) (1 # 2).
(** The same scroll position and zoom as [away], in a new scroll object. *)
Definition awayAgain : Viewport := mkViewport (mkPoint 4 5000 0) (1 # 2).

(** A malformed model: the node [p] below [g] has no [data]. *)
Definition brokenModel : SModelRoot :=
  mkSModelRoot 2 (mkBounds 0 0 1000 1000)
    (Some [mkKNode "g" (mkBounds 0 0 1000 1000) (Some childArea)
             (Some [mkKNode "p" (mkBounds 0 0 600 600) None (Some [])])]).

Definition run (vp : Viewport) (dm : DepthMap) : DepthMap :=
  match expandCollapse vp options dm with
  | Some dm' => dm'
  | None => dm
  end.

Definition afterOverview : DepthMap := run overview fresh.
Definition afterAwayNative : DepthMap := run awayNative afterOverview.
Definition afterAway : DepthMap := run away afterOverview.
Definition afterAwayAgain : DepthMap := run awayAgain afterAway.

End Scenario.

End DepthMapEngine.

(** ** Part I, continued: the expansion test on binary64 numbers

    [isVisible], [sizeInViewport] and [getExpansionState] of
    [src/depth-map.ts] once more, on the numbers the code computes with:
    IEEE 754 binary64, rounded to nearest with ties to even, with signed
    zeros, infinities and NaN.  Here a division by zero gives an infinity or
    NaN, every comparison with NaN is false, and quotients are rounded. *)

Module Binary64.

(** A [number]: the doubles are the values [v] of [spec_float] with
    [valid_binary prec emax v = true]. *)
Definition number : Type := spec_float.
Definition prec : Z := 53.
Definition emax : Z := 1024.

(** [a + b], [a - b] and [a / b]. *)
Definition add (a b : number) : number := SFadd prec emax a b.
Definition sub (a b : number) : number := SFsub prec emax a b.
Definition div (a b : number) : number := SFdiv prec emax a b.

(** [a >= b], [a <= b] and [a > b]. *)
Definition geb (a b : number) : bool := SFleb b a.
Definition leb (a b : number) : bool := SFleb a b.
Definition gtb (a b : number) : bool := SFltb b a.

(** The value of an integer literal. *)
Definition integer (z : Z) : number := binary_normalize prec emax z 0 false.

Definition EXPANDED : bool := true.
Definition COLLAPSED : bool := false.

(** The fields that the expansion test reads of sprotty's [Bounds] and
    [Viewport], of the model root, of a [KNode], of a [Region] and of the
    [DepthMap]. *)
Record Bounds := mkBounds { x : number; y : number; width : number; height : number }.
Record Point := mkPoint { px : number; py : number }.
Record Viewport := mkViewport { scroll : Point; zoom : number }.
Record SModelRoot := mkSModelRoot { canvasBounds : Bounds }.
Record KNode := mkKNode { bounds : Bounds }.
Record Region := mkRegion {
  boundingRectangle : option KNode;
  absoluteBounds : option Bounds
}.
Record DepthMap := mkDepthMap {
  rootElement : SModelRoot;
  absoluteVisibilityBuffer : number
}.

(** [new DepthMap(rootElement)]. *)
Definition newDepthMap (rootElement : SModelRoot) : DepthMap :=
  mkDepthMap rootElement (integer 500).

(** [DepthMap.isVisible]. *)
Definition isVisible (dm : DepthMap) (region : Region) (vp : Viewport) : bool :=
  match absoluteBounds region with
  | Some ab =>
      let canvas := canvasBounds (rootElement dm) in
      let buffer := absoluteVisibilityBuffer dm in
      geb (add (x ab) (width ab)) (sub (px (scroll vp)) buffer)
      && leb (x ab) (add (add (px (scroll vp)) (div (width canvas) (zoom vp))) buffer)
      && geb (add (y ab) (height ab)) (sub (py (scroll vp)) buffer)
      && leb (y ab) (add (add (py (scroll vp)) (div (height canvas) (zoom vp))) buffer)
  | None => true
  end.

(** [DepthMap.sizeInViewport].  [node.root] is the model root the DepthMap
    was built from, passed here as [root]. *)
Definition sizeInViewport (root : SModelRoot) (node : KNode) (vp : Viewport) : number :=
  let horizontal := div (width (bounds node)) (div (width (canvasBounds root)) (zoom vp)) in
  let vertical := div (height (bounds node)) (div (height (canvasBounds root)) (zoom vp)) in
  if gtb horizontal vertical then horizontal else vertical.

(** [DepthMap.getExpansionState]. *)
Definition getExpansionState (dm : DepthMap) (region : Region) (vp : Viewport)
    (threshold : number) : bool :=
  if negb (isVisible dm region vp) then COLLAPSED
  else match boundingRectangle region with
       | None => EXPANDED
       | Some br =>
           let viewportSize := sizeInViewport (rootElement dm) br vp in
           if geb viewportSize threshold || geb (zoom vp) (integer 1) then EXPANDED
           else COLLAPSED
       end.

(** Modelled from the spec: [RenderingOptions] ([options], not among the
    sources), reduced to the [currentValue] of the option that
    [expandCollapse] asks for, or [None] when it is not registered. *)
Record RenderingOptions := mkRenderingOptions {
  expandCollapseThresholdOption : option number
}.

(** The literal [0.2]: the double next to 2/10. *)
Definition defaultThreshold : number := S754_finite false 7205759403792794 (-55).

(** [thresholdOption ? thresholdOption.currentValue : defaultThreshold]. *)
Definition thresholdOf (renderingOptions : RenderingOptions) : number :=
  match expandCollapseThresholdOption renderingOptions with
  | Some currentValue => currentValue
  | None => defaultThreshold
  end.

(** A region without absolute bounds whose bounding rectangle is
    [w] by [h], on a canvas of [cw] by [ch]. *)
Definition sized (w h : number) : Region :=
  mkRegion (Some (mkKNode (mkBounds (integer 0) (integer 0) w h))) None.
Definition canvas (cw ch : number) : DepthMap :=
  newDepthMap (mkSModelRoot (mkBounds (integer 0) (integer 0) cw ch)).
Definition zoomed (z : number) : Viewport :=
  mkViewport (mkPoint (integer 0) (integer 0)) z.

End Binary64.

(** ** Part II: the layered-constraint resolver
       ([keith-interactive/src/browser/layered/constraint-utils.ts]) *)

Module LayeredConstraints.

Local Open Scope Q_scope.

(** Modelled from the spec: the [Direction] enum of [constraint-classes] is
    not among the sources; these are the five values the code names. *)
Inductive Direction := UNDEFINED | RIGHT | LEFT | DOWN | UP.

(** [direction === UNDEFINED || direction === RIGHT || direction === DOWN]:
    layers advance with growing coordinates. *)
Definition ascending (d : Direction) : bool :=
  match d with UNDEFINED | RIGHT | DOWN => true | LEFT | UP => false end.

(** [direction === UNDEFINED || direction === RIGHT || direction === LEFT]:
    layers are laid out along the x axis. *)
Definition horizontal (d : Direction) : bool :=
  match d with UNDEFINED | RIGHT | LEFT => true | DOWN | UP => false end.

Record Point := mkPoint { x : Q; y : Q }.
Record Dimension := mkDimension { width : Q; height : Q }.

(** Modelled from the spec: the layout properties of a [KNode]
    ([constraint-classes], not among the sources): integers, [-1] standing
    for "unconstrained". *)
Record Properties := mkProperties {
  layerId : Z;
  positionId : Z;
  layerConstraint : Z;
  positionConstraint : Z
}.

(** The node at the far end of an edge, [edge.target] or [edge.source]:
    the resolver reads its [properties] only. *)
Record EdgeEnd := mkEdgeEnd { endId : string; endProperties : Properties }.

Record KEdge := mkKEdge { source : EdgeEnd; target : EdgeEnd }.

(** Modelled from the spec: the fields of a [KNode] ([constraint-classes],
    not among the sources) that the resolver reads.  Two nodes are the same
    object exactly if they have the same [id]. *)
Record KNode := mkKNode {
  id : string;
  position : Point;
  size : Dimension;
  shadow : bool;
  shadowX : Q;
  shadowY : Q;
  properties : Properties;
  selected : bool;
  direction : Direction;
  outgoingEdges : list KEdge;
  incomingEdges : list KEdge
}.

Definition sameNode (a b : KNode) : bool := String.eqb (id a) (id b).

(** Modelled from the spec: the [Layer] class of [constraint-types] is not
    among the sources; its fields are the arguments of the constructor call
    in [getLayers] and the two borders assigned there, [undefined] until
    then. *)
Module Layer.
Record t := mk {
  id : Z;
  begin : Q;
  end_ : Q;
  mid : Q;
  direction : Direction;
  topBorder : option Q;
  bottomBorder : option Q
}.

(** [new Layer(id, begin, end, mid, direction)]. *)
Definition new (id : Z) (begin end_ mid : Q) (direction : Direction) : t :=
  mk id begin end_ mid direction None None.

Definition withBegin (b : Q) (l : t) : t :=
  mk (id l) b (end_ l) (mid l) (direction l) (topBorder l) (bottomBorder l).
Definition withEnd (e : Q) (l : t) : t :=
  mk (id l) (begin l) e (mid l) (direction l) (topBorder l) (bottomBorder l).
Definition withBorders (top bottom : Q) (l : t) : t :=
  mk (id l) (begin l) (end_ l) (mid l) (direction l) (Some top) (Some bottom).
End Layer.

(** Modelled from the spec: the actions [setProperty] returns ([../actions]
    and [./actions], not among the sources), each with the fields the code
    passes to its constructor. *)
Inductive Action :=
| RefreshDiagramAction
| SetLayerConstraintAction (id : string) (layer layerCons : Z)
| SetStaticConstraintAction (id : string) (layer layerCons position posCons : Z)
| SetPositionConstraintAction (id : string) (position posCons : Z).

Definition PLACEMENT_TOP_BOTTOM_OFFSET : Q := 20.
Definition ONE_LAYER_PADDING : Q := 10.

(** [Number.MAX_VALUE] and [Number.MIN_VALUE] (the smallest positive
    number). *)
Definition MAX_VALUE : Q := inject_Z (2 ^ 1024 - 2 ^ 971).
Definition MIN_VALUE : Q := 1 # (2 ^ 1074).

(** [Array.prototype.sort(compare)], which is stable: [before a b] stands
    for [compare(a, b) < 0]. *)
Section StableSort.
Context (before : KNode -> KNode -> bool).

Fixpoint insertSorted (n : KNode) (sorted : list KNode) : list KNode :=
  match sorted with
  | [] => [n]
  | m :: rest => if before n m then n :: m :: rest else m :: insertSorted n rest
  end.

Definition stableSort (nodes : list KNode) : list KNode :=
  fold_left (fun sorted n => insertSorted n sorted) nodes [].
End StableSort.

(** [nodes.indexOf(target)]; [None] for [-1]. *)
Fixpoint indexOf (nodes : list KNode) (target : KNode) : option Z :=
  match nodes with
  | [] => None
  | n :: rest =>
      if sameNode n target then Some 0%Z
      else match indexOf rest target with
           | Some i => Some (i + 1)%Z
           | None => None
           end
  end.

(** [getNodesOfLayer]. *)
Definition getNodesOfLayer (layer : Z) (nodes : list KNode) : list KNode :=
  List.filter (fun node => Z.eqb (layerId (properties node)) layer) nodes.

(** The coordinate [getLayerOfNode] and [shouldOnlyLCBeSet] compare. *)
Definition coordinateInLayoutDirection (node : KNode) (direction : Direction) : Q :=
  if horizontal direction
  then x (position node) + width (size node) / 2
  else y (position node) + height (size node) / 2.

(** The test of the loop of [getLayerOfNode]. *)
Definition reaches (direction : Direction) (coordinate : Q) (layer : Layer.t) : bool :=
  Qltb coordinate (Layer.end_ layer) && ascending direction
  || Qgtb coordinate (Layer.end_ layer) && negb (ascending direction).

(** [getLayerOfNode]; [None] where the code throws ([layers] is empty and
    [layers[layers.length - 1].id] is read). *)
Definition getLayerOfNode (node : KNode) (nodes : list KNode) (layers : list Layer.t)
    (direction : Direction) : option Z :=
  let coordinate := coordinateInLayoutDirection node direction in
  match List.find (reaches direction coordinate) layers with
  | Some layer => Some (Layer.id layer)
  | None =>
      match last layers with
      | None => None
      | Some lastLayer =>
          let lastLNodes := getNodesOfLayer (Layer.id lastLayer) nodes in
          match lastLNodes with
          | [only] => if selected only then Some (Layer.id lastLayer)
                      else Some (Layer.id lastLayer + 1)%Z
          | _ => Some (Layer.id lastLayer + 1)%Z
          end
      end
  end.

(** The scan for the highest layer constraint in [getActualLayer]. *)
Definition maxConstraint (candidates : list KNode) : option KNode * Z :=
  fold_left
    (fun '(nodeWithMaxCons, maxCons) n =>
       let layerConstraint := layerConstraint (properties n) in
       if (layerConstraint >? maxCons)%Z then (Some n, layerConstraint)
       else (nodeWithMaxCons, maxCons))
    candidates (None, (-1)%Z).

(** [getActualLayer]. *)
Definition getActualLayer (node : KNode) (nodes : list KNode) (layerCandidate : Z) : Z :=
  let layerConstraintLeftOfCandidate :=
    List.filter
      (fun n => (layerId (properties n) <=? layerCandidate)%Z
                && (layerConstraint (properties n) >? layerId (properties n))%Z)
      nodes in
  match layerConstraintLeftOfCandidate with
  | [] => layerCandidate
  | _ =>
      match maxConstraint layerConstraintLeftOfCandidate with
      | (Some nodeWithMaxCons, maxCons) =>
          let idDiff := (layerCandidate - layerId (properties nodeWithMaxCons))%Z in
          (maxCons + idDiff)%Z
      | (None, _) => layerCandidate
      end
  end.

(** [getActualTargetIndex]; [None] where the code throws (there is no
    [layerNodes[upperIndex]]). *)
Definition getActualTargetIndex (targetIndex : Z) (alreadyInLayer : bool)
    (layerNodes : list KNode) : option Z :=
  if (targetIndex >? 0)%Z then
    let upperIndex := (targetIndex - 1)%Z in
    match nth_error layerNodes (Z.to_nat upperIndex) with
    | None => None
    | Some upperNeighbor =>
        let posConsOfUpper := positionConstraint (properties upperNeighbor) in
        if (posConsOfUpper >? upperIndex)%Z then
          if alreadyInLayer && Z.eqb (positionId (properties upperNeighbor)) targetIndex
          then Some posConsOfUpper
          else Some (posConsOfUpper + 1)%Z
        else Some targetIndex
    end
  else Some targetIndex.

(** The four coordinates [getLayers] takes from a node, in the order
    [currentBegin], [currentEnd], [currentTopBorder], [currentBottomBorder]. *)
Definition nodeExtent (direction : Direction) (node : KNode) : Q * Q * Q * Q :=
  let px := if shadow node then shadowX node else x (position node) in
  let py := if shadow node then shadowY node else y (position node) in
  match direction with
  | UNDEFINED | RIGHT =>
      (px, px + width (size node), py, py + height (size node))%Q
  | LEFT =>
      (px + width (size node), px, py, py + height (size node))%Q
  | DOWN =>
      (py, py + height (size node), px, px + width (size node))%Q
  | UP =>
      (py + height (size node), py, px, px + width (size node))%Q
  end.

(** The variables of the first loop of [getLayers]. *)
Record LayerScan := mkLayerScan {
  scanLayers : list Layer.t;
  scanLayer : Z;
  beginCoordinate : Q;
  endCoordinate : Q;
  scanTopBorder : Q;
  scanBottomBorder : Q
}.

Definition initialBegin (direction : Direction) : Q :=
  if ascending direction then MAX_VALUE else MIN_VALUE.
Definition initialEnd (direction : Direction) : Q :=
  if ascending direction then MIN_VALUE else MAX_VALUE.

(** [new Layer(layer, beginCoordinate, endCoordinate,
               beginCoordinate + (endCoordinate - beginCoordinate) / 2, direction)]. *)
Definition closeLayer (direction : Direction) (st : LayerScan) : Layer.t :=
  Layer.new (scanLayer st) (beginCoordinate st) (endCoordinate st)
    (beginCoordinate st + (endCoordinate st - beginCoordinate st) / 2) direction.

(** Body of the first loop of [getLayers]. *)
Definition scanNode (direction : Direction) (st : LayerScan) (node : KNode) : LayerScan :=
  let st1 :=
    if negb (Z.eqb (layerId (properties node)) (scanLayer st)) then
      mkLayerScan (scanLayers st ++ [closeLayer direction st])
        (layerId (properties node)) (initialBegin direction) (initialEnd direction)
        (scanTopBorder st) (scanBottomBorder st)
    else st in
  let '(currentBegin, currentEnd, currentTopBorder, currentBottomBorder) :=
    nodeExtent direction node in
  mkLayerScan (scanLayers st1) (scanLayer st1)
    (if ascending direction then Qmin' currentBegin (beginCoordinate st1)
     else Qmax' currentBegin (beginCoordinate st1))
    (if ascending direction then Qmax' currentEnd (endCoordinate st1)
     else Qmin' currentEnd (endCoordinate st1))
    (Qmin' currentTopBorder (scanTopBorder st1))
    (Qmax' currentBottomBorder (scanBottomBorder st1)).

(** The loop [for (let i = 0; i < layers.length - 1; i++)] of [getLayers]. *)
Fixpoint joinLayers (topBorder bottomBorder : Q) (layers : list Layer.t) : list Layer.t :=
  match layers with
  | currentLayer :: ((precedingLayer :: _) as rest) =>
      let mid := Layer.end_ currentLayer
                 + (Layer.begin precedingLayer - Layer.end_ currentLayer) / 2 in
      Layer.withBorders topBorder bottomBorder (Layer.withEnd mid currentLayer)
      :: match joinLayers topBorder bottomBorder rest with
         | precedingLayer' :: rest' => Layer.withBegin mid precedingLayer' :: rest'
         | [] => []
         end
  | _ => layers
  end.

(** The padding of the only layer. *)
Definition padOnlyLayer (direction : Direction) (topBorder bottomBorder : Q)
    (firstLayer : Layer.t) : Layer.t :=
  let '(b, e) :=
    if ascending direction
    then (Layer.begin firstLayer - ONE_LAYER_PADDING,
          Layer.end_ firstLayer + ONE_LAYER_PADDING)%Q
    else (Layer.begin firstLayer + ONE_LAYER_PADDING,
          Layer.end_ firstLayer - ONE_LAYER_PADDING)%Q in
  Layer.withBorders topBorder bottomBorder (Layer.withEnd e (Layer.withBegin b firstLayer)).

(** The [else] branch that closes [getLayers]: outer bounds of the first
    and of the last of several layers. *)
Definition closeOuterLayers (topBorder bottomBorder : Q) (layers : list Layer.t)
    : list Layer.t :=
  let layers1 :=
    alter (fun firstLayer =>
             Layer.withBegin
               (Layer.mid firstLayer - (Layer.end_ firstLayer - Layer.mid firstLayer))
               firstLayer)
      0%nat layers in
  match layers1 !! (length layers1 - 2)%nat with
  | None => layers1
  | Some beforeLast =>
      alter (fun lastLayer =>
               let lastLayer1 := Layer.withBegin (Layer.end_ beforeLast) lastLayer in
               let distance := Layer.mid lastLayer1 - Layer.begin lastLayer1 in
               Layer.withBorders topBorder bottomBorder
                 (Layer.withEnd (Layer.mid lastLayer1 + distance) lastLayer1))
        (length layers1 - 1)%nat layers1
  end.

(** [getLayers]: the array [nodes] as the call leaves it (sorted by
    [layerId]) and the layers. *)
Definition getLayers (nodes : list KNode) (direction : Direction)
    : list KNode * list Layer.t :=
  let nodes1 :=
    stableSort (fun a b => (layerId (properties a) <? layerId (properties b))%Z) nodes in
  let st :=
    fold_left (scanNode direction) nodes1
      (mkLayerScan [] 0%Z (initialBegin direction) (initialEnd direction)
         MAX_VALUE MIN_VALUE) in
  let layers := scanLayers st ++ [closeLayer direction st] in
  let topBorder := scanTopBorder st - PLACEMENT_TOP_BOTTOM_OFFSET in
  let bottomBorder := scanBottomBorder st + PLACEMENT_TOP_BOTTOM_OFFSET in
  let layers1 := joinLayers topBorder bottomBorder layers in
  let layers2 :=
    match layers1 with
    | [firstLayer] => [padOnlyLayer direction topBorder bottomBorder firstLayer]
    | _ => closeOuterLayers topBorder bottomBorder layers1
    end in
  (nodes1, layers2).

(** The coordinate [getPositionInLayer] sorts and compares by. *)
Definition crossCoordinate (direction : Direction) (node : KNode) : Q :=
  if horizontal direction then y (position node) else x (position node).

(** The scan of [getPositionInLayer] for the first node that lies beyond
    the target. *)
Fixpoint firstBeyond (direction : Direction) (nodes : list KNode) (target : KNode)
    (i : Z) : Z :=
  match nodes with
  | [] => i
  | n :: rest =>
      if Qltb (crossCoordinate direction target) (crossCoordinate direction n) then i
      else firstBeyond direction rest target (i + 1)%Z
  end.

(** [getPositionInLayer]: the array [nodes] as the call leaves it (sorted
    across the layer) and the position. *)
Definition getPositionInLayer (nodes : list KNode) (target : KNode)
    (direction : Direction) : list KNode * Z :=
  let nodes1 :=
    stableSort
      (fun a b => Qltb (crossCoordinate direction a) (crossCoordinate direction b))
      nodes in
  match indexOf nodes1 target with
  | Some i => (nodes1, i)
  | None => (nodes1, firstBeyond direction nodes1 target 0%Z)
  end.

(** What [isLayerForbidden] reaches through the object graph and through
    functions that are not among the sources: the children of the node's
    parent ([node.parent.children]), [filterKNodes] ([helper-methods]) and
    [getChain] ([relativeConstraint-utils]). *)
Record Host := mkHost {
  SModelElement : Type;
  parentChildren : KNode -> list SModelElement;
  filterKNodes : list SModelElement -> list KNode;
  getChain : KNode -> list KNode -> list KNode
}.

(** The nodes [isLayerForbidden] collects: for every node of the chain the
    targets of its outgoing and the sources of its incoming edges. *)
Definition connectedNodes (chainNodes : list KNode) : list EdgeEnd :=
  flat_map (fun n => map target (outgoingEdges n) ++ map source (incomingEdges n))
    chainNodes.

(** [isLayerForbidden]. *)
Definition isLayerForbidden (h : Host) (node : KNode) (layer : Z) : bool :=
  let layerNodes :=
    getNodesOfLayer (layerId (properties node))
      (filterKNodes h (parentChildren h node)) in
  let chainNodes := getChain h node layerNodes in
  existsb
    (fun n => Z.eqb (layerId (endProperties n)) layer
              && negb (Z.eqb (layerConstraint (endProperties n)) (-1)))
    (connectedNodes chainNodes).

(** [coordinateToCheck < layerTop || coordinateToCheck > layerBot], false
    while the borders are [undefined]. *)
Definition outsideBorders (coordinate : Q) (layerTop layerBot : option Q) : bool :=
  match layerTop with Some t => Qltb coordinate t | None => false end
  || match layerBot with Some b => Qgtb coordinate b | None => false end.

(** [shouldOnlyLCBeSet]. *)
Definition shouldOnlyLCBeSet (node : KNode) (layers : list Layer.t)
    (direction : Direction) : bool :=
  let coordinateToCheck :=
    if horizontal direction then y (position node) else x (position node) in
  match layers with
  | first :: _ =>
      outsideBorders coordinateToCheck (Layer.topBorder first) (Layer.bottomBorder first)
  | [] => false
  end.

(** [setProperty]; [None] where the code throws. *)
Definition setProperty (h : Host) (nodes : list KNode) (layers : list Layer.t)
    (target : KNode) : option Action :=
  let targetNode := target in
  let direction := direction targetNode in
  match getLayerOfNode targetNode nodes layers direction with
  | None => None
  | Some layerOfTarget =>
      let nodesOfLayer := getNodesOfLayer layerOfTarget nodes in
      let '(nodesOfLayer1, positionOfTarget) :=
        getPositionInLayer nodesOfLayer targetNode direction in
      let alreadyInLayer :=
        match indexOf nodesOfLayer1 targetNode with Some _ => true | None => false end in
      match getActualTargetIndex positionOfTarget alreadyInLayer nodesOfLayer1 with
      | None => None
      | Some newPositionCons =>
          let newLayerCons := getActualLayer targetNode nodes layerOfTarget in
          let forbidden := isLayerForbidden h targetNode newLayerCons in
          if forbidden then Some RefreshDiagramAction
          else if negb (Z.eqb (layerId (properties targetNode)) layerOfTarget) then
            if shouldOnlyLCBeSet targetNode layers direction then
              Some (SetLayerConstraintAction (id targetNode) layerOfTarget newLayerCons)
            else
              Some (SetStaticConstraintAction (id targetNode) layerOfTarget newLayerCons
                      positionOfTarget newPositionCons)
          else if negb (Z.eqb (positionId (properties targetNode)) positionOfTarget) then
            Some (SetPositionConstraintAction (id targetNode) positionOfTarget
                    newPositionCons)
          else Some RefreshDiagramAction
      end
  end.

(** The node with other shadow fields, and with another committed position. *)
Definition withShadow (flag : bool) (sx sy : Q) (n : KNode) : KNode :=
  mkKNode (id n) (position n) (size n) flag sx sy (properties n) (selected n)
    (direction n) (outgoingEdges n) (incomingEdges n).

Definition withPosition (p : Point) (n : KNode) : KNode :=
  mkKNode (id n) p (size n) (shadow n) (shadowX n) (shadowY n) (properties n)
    (selected n) (direction n) (outgoingEdges n) (incomingEdges n).



(** *** Drag scenarios *)
Module Drag.

Definition unconstrained (layer position : Z) : Properties :=
  mkProperties layer position (-1) (-1).

(** A 20 x 20 node of a RIGHT-directed graph. *)
Definition node (name : string) (px py : Q) (shadowed : bool) (sx sy : Q)
    (p : Properties) (sel : bool) (out inc : list KEdge) : KNode :=
  mkKNode name (mkPoint px py) (mkDimension 20 20) shadowed sx sy p sel RIGHT out inc.

(** Three layers with the bounds [0,100), [100,220), [220,300). *)
Definition threeLayers : list Layer.t :=
  [Layer.mk 0 0 100 50 RIGHT (Some (-20)) (Some 120);
   Layer.mk 1 100 220 160 RIGHT (Some (-20)) (Some 120);
   Layer.mk 2 220 300 260 RIGHT (Some (-20)) (Some 120)].

Definition inLayer1 : KNode := node "n1" 150 0 false 0 0 (unconstrained 1 0) false [] [].
Definition inLayer2 : KNode := node "n2" 250 0 false 0 0 (unconstrained 2 0) false [] [].
Definition otherInLayer2 : KNode :=
  node "n3" 250 40 false 0 0 (unconstrained 2 1) false [] [].

(** A node that rests at x = 40 (centre 50) and whose shadow fields say
    x = 140 (centre 150). *)
Definition shadowAhead : KNode := node "n0" 40 0 true 140 0 (unconstrained 0 0) true [] [].

(** A node that rests at y = -10 and whose shadow fields say y = 100. *)
Definition shadowBelow : KNode := node "n0" 250 (-10) true 250 100 (unconstrained 0 0) true [] [].

Definition level (n0 : KNode) : list KNode := [n0; inLayer1; inLayer2; otherInLayer2].

(** The node evaluated at its shadow coordinates. *)
Definition atShadow (n : KNode) : KNode :=
  withPosition (mkPoint (shadowX n) (shadowY n)) n.

(** A host in which the hierarchy level is the given node list and every
    chain is the node alone. *)
Definition host (nodes : list KNode) : Host :=
  mkHost KNode (fun _ => nodes) (fun l => l) (fun n _ => [n]).

(** Two layers: [a] is in layer 0 and has an edge to [b], the only node of
    layer 1.  [b] is pinned: it carries the layer constraint 5, and the
    graph having two layers only, it lies in the last one. *)
Definition bEnd : EdgeEnd := mkEdgeEnd "b" (mkProperties 1 0 5 (-1)).
Definition aEnd : EdgeEnd := mkEdgeEnd "a" (unconstrained 0 0).
Definition edgeAB : KEdge := mkKEdge aEnd bEnd.
Definition b : KNode := node "b" 100 0 false 0 0 (mkProperties 1 0 5 (-1)) false [] [edgeAB].
(** [a] at rest, and [a] dragged from (0, 0) into layer 1: to (100, 25),
    below [b], and to (100, -60), above the layers. *)
Definition aAtRest : KNode := node "a" 0 0 false 0 0 (unconstrained 0 0) true [edgeAB] [].
Definition aBelow : KNode := node "a" 100 25 true 0 0 (unconstrained 0 0) true [edgeAB] [].
Definition aAbove : KNode := node "a" 100 (-60) true 0 0 (unconstrained 0 0) true [edgeAB] [].

(** The same graph with [b] pinned by the constraint 1, the layer it is
    in. *)
Definition bEndInPlace : EdgeEnd := mkEdgeEnd "b" (mkProperties 1 0 1 (-1)).
Definition edgeABInPlace : KEdge := mkKEdge aEnd bEndInPlace.
Definition bInPlace : KNode :=
  node "b" 100 0 false 0 0 (mkProperties 1 0 1 (-1)) false [] [edgeABInPlace].
Definition aBelowInPlace : KNode :=
  node "a" 100 25 true 0 0 (unconstrained 0 0) true [edgeABInPlace] [].
(** A third node in layer 1, below [b], that carries the layer constraint
    3. *)
Definition cBeyond : KNode :=
  node "c" 100 50 false 0 0 (mkProperties 1 1 3 (-1)) false [] [].

End Drag.

(** *** Vocabulary of the statements about [getLayers] *)

(** The node dropped where its shadow is: a node whose shadow flag is set,
    with the flag cleared and [position] put at ([shadowX], [shadowY]); a
    node whose flag is not set, unchanged. *)
Definition dropped (n : KNode) : KNode :=
  if shadow n
  then withShadow false (shadowX n) (shadowY n)
         (withPosition (mkPoint (shadowX n) (shadowY n)) n)
  else n.

(** The state in which the first loop of [getLayers] starts. *)
Definition initialScan (direction : Direction) : LayerScan :=
  mkLayerScan [] 0%Z (initialBegin direction) (initialEnd direction) MAX_VALUE MIN_VALUE.

(** The layers as the first loop of [getLayers] leaves them, the last one
    added. *)
Definition rawLayers (direction : Direction) (st : LayerScan) : list Layer.t :=
  scanLayers st ++ [closeLayer direction st].

(** Position and size of a node along the layout direction, and across it. *)
Definition layoutPosition (d : Direction) (n : KNode) : Q :=
  if horizontal d then x (position n) else y (position n).
Definition layoutSize (d : Direction) (n : KNode) : Q :=
  if horizontal d then width (size n) else height (size n).
Definition crossSize (d : Direction) (n : KNode) : Q :=
  if horizontal d then height (size n) else width (size n).

(** [a] comes before [b], or coincides with it, in the layout direction. *)
Definition along (d : Direction) (a b : Q) : Prop :=
  if ascending d then a <= b else b <= a.

(** Where a node that is not being dragged begins and ends in the layout
    direction. *)
Definition restBegin (d : Direction) (n : KNode) : Q :=
  if ascending d then layoutPosition d n else layoutPosition d n + layoutSize d n.
Definition restEnd (d : Direction) (n : KNode) : Q :=
  if ascending d then layoutPosition d n + layoutSize d n else layoutPosition d n.

(** A node that is not being dragged, of non-negative size, at a position
    that [getLayers] can tell from its initial values [Number.MIN_VALUE] and
    [Number.MAX_VALUE]. *)
Definition placed (d : Direction) (n : KNode) : Prop :=
  shadow n = false /\ 0 <= layoutSize d n /\
  MIN_VALUE <= layoutPosition d n /\ layoutPosition d n + layoutSize d n <= MAX_VALUE.

(** A node that is not being dragged whose position and size along the
    layout direction are whole numbers, the position at least 1 and the far
    side at most 2^50.  The bounds that [getLayers] forms from such nodes,
    and the coordinate that [getLayerOfNode] compares with them, are
    multiples of 1/2 below 2^52, which binary64 holds without rounding; the
    bounds of a layer 0 without nodes, formed from [Number.MIN_VALUE] and
    [Number.MAX_VALUE], are rounded but stay on the same side of every such
    coordinate. *)
Definition onGrid (d : Direction) (n : KNode) : Prop :=
  shadow n = false /\
  exists p s : Z,
    layoutPosition d n == inject_Z p /\ layoutSize d n == inject_Z s /\
    (1 <= p)%Z /\ (0 <= s)%Z /\ (p + s <= 2 ^ 50)%Z.

(** The nodes of a layer end before the nodes of every later layer begin. *)
Definition separated (d : Direction) (nodes : list KNode) : Prop :=
  forall a b, In a nodes -> In b nodes ->
    (layerId (properties a) < layerId (properties b))%Z ->
    along d (restEnd d a) (restBegin d b).

End LayeredConstraints.

(** ** Facts about numbers *)

Lemma Qltb_lt a b : Qltb a b = true <-> (a < b)%Q.
Proof.
  unfold Qltb. rewrite negb_true_iff. split; intros H.
  - apply Qnot_le_lt. intros Hle. apply Qle_bool_iff in Hle. congruence.
  - destruct (Qle_bool b a) eqn:E; [|reflexivity].
    apply Qle_bool_iff in E. exfalso. exact (Qlt_not_le _ _ H E).
Qed.

Lemma Qgtb_gt a b : Qgtb a b = true <-> (b < a)%Q.
Proof. unfold Qgtb. exact (Qltb_lt b a). Qed.

Lemma Qgeb_ge a b : Qgeb a b = true <-> (b <= a)%Q.
Proof. unfold Qgeb. apply Qle_bool_iff. Qed.

(** ** Properties of the DepthMap / Region engine *)

Module DepthMapFacts.
Import DepthMapEngine.

(** *** Reasoning support *)

(** Induction on a region with the hypothesis available on every child. *)
Lemma Region_ind' (P : Region -> Prop) :
  (forall br els cs ab, Forall P cs -> P (mkRegion br els cs ab)) ->
  forall r, P r.
Proof.
  intros step. fix IH 1. intros [br els cs ab]. apply step.
  induction cs as [|c cs IHcs]; constructor; [apply IH | exact IHcs].
Qed.

Lemma refEqb_true p q : refEqb p q = true <-> p = q.
Proof. unfold refEqb. apply bool_decide_eq_true. Qed.

Lemma setHas_elem_of p s : setHas p s = true <-> p ∈ s.
Proof.
  unfold setHas. rewrite existsb_exists. split.
  - intros (q & Hin & Heq). apply refEqb_true in Heq. subst q.
    by apply list_elem_of_In.
  - intros Hin. exists p. split; [by apply list_elem_of_In | by apply refEqb_true].
Qed.

Lemma elem_of_setAdd q p s : q ∈ setAdd p s <-> q = p \/ q ∈ s.
Proof.
  unfold setAdd. destruct (setHas p s) eqn:E.
  - apply setHas_elem_of in E. split; [tauto | intros [->|]; assumption].
  - rewrite elem_of_app, list_elem_of_singleton. tauto.
Qed.

Lemma elem_of_setDelete q p s : q ∈ setDelete p s <-> q ≠ p /\ q ∈ s.
Proof.
  unfold setDelete. rewrite !list_elem_of_In, filter_In, negb_true_iff.
  split.
  - intros [Hin Hne]. split; [|assumption]. intros ->.
    assert (refEqb p p = true) by (by apply refEqb_true). congruence.
  - intros [Hne Hin]. split; [assumption|].
    destruct (refEqb p q) eqn:E; [|reflexivity].
    apply refEqb_true in E. congruence.
Qed.

Lemma sameStatic_refl dm : sameStatic dm dm.
Proof. repeat split. Qed.

Lemma sameStatic_trans a b c : sameStatic a b -> sameStatic b c -> sameStatic a c.
Proof.
  intros (S1 & S2 & S3 & S4 & S5) (T1 & T2 & T3 & T4 & T5).
  repeat split; congruence.
Qed.

Lemma Frame_refl R I dm : Frame R I dm dm.
Proof. split; [apply sameStatic_refl | reflexivity | reflexivity | auto]. Qed.

Lemma Frame_trans R I a b c : Frame R I a b -> Frame R I b c -> Frame R I a c.
Proof.
  intros [S1 R1 N1 C1] [S2 R2 N2 C2]. split.
  - by eapply sameStatic_trans.
  - intros q Hq. rewrite R2, R1; auto.
  - intros k Hk. rewrite N2, N1; auto.
  - intros q Hq. destruct (C2 q Hq) as [H|H]; auto.
Qed.

Lemma Frame_weaken (R R' : RegionRef -> Prop) (I I' : string -> Prop) a b :
  (forall q, R' q -> R q) -> (forall k, I' k -> I k) ->
  Frame R' I' a b -> Frame R I a b.
Proof.
  intros HR HI [S Rg N C]. split; auto.
  intros q Hq. destruct (C q Hq) as [H|H]; auto.
Qed.

Ltac weaken_frame H := eapply Frame_weaken; [ | | apply H].
Ltac in_app_l := let k := fresh in let Hk := fresh in
  intros k Hk; unfold among in *; apply elem_of_app; by left.
Ltac in_app_r := let k := fresh in let Hk := fresh in
  intros k Hk; unfold among in *; apply elem_of_app; by right.

Lemma below_snoc (p : RegionRef) i q : below (p ++ [i]) q -> below p q.
Proof. unfold below. intros H. etrans; [|exact H]. by apply prefix_app_r. Qed.

Lemma fold_insert_other (state : bool) (els : list KNode) (m : gmap string bool) k :
  k ∉ map id els ->
  fold_left (fun m elem => <[id elem := state]> m) els m !! k = m !! k.
Proof.
  revert m. induction els as [|e els IH]; intros m Hk; simpl; [reflexivity|].
  simpl in Hk. rewrite IH.
  - apply lookup_insert_ne. intros Heq. apply Hk. rewrite Heq. left.
  - intros Hin. apply Hk. by right.
Qed.

Lemma setExpansionState_frame p r state dm :
  Frame (below p) (among (map id (elements r))) dm (setExpansionState p r state dm).
Proof.
  split.
  - repeat split.
  - intros q Hq. simpl. apply lookup_insert_ne. intros ->. by apply Hq.
  - intros k Hk. simpl. by apply fold_insert_other.
  - intros q Hq. by left.
Qed.

Lemma setDelete_frame R I q dm :
  Frame R I dm (withCritical (setDelete q (criticalRegions dm)) dm).
Proof.
  split; [repeat split | reflexivity | reflexivity |].
  intros q' Hq'. simpl in Hq'. apply elem_of_setDelete in Hq'. left. tauto.
Qed.

Lemma setAdd_frame (R : RegionRef -> Prop) I p dm :
  R p -> Frame R I dm (withCritical (setAdd p (criticalRegions dm)) dm).
Proof.
  intros Hp. split; [repeat split | reflexivity | reflexivity |].
  intros q Hq. simpl in Hq. apply elem_of_setAdd in Hq as [->|Hq]; auto.
Qed.

Lemma forEachFrom_frame R callback cs :
  Forall (fun c => forall i dm, Frame R (among (subtreeElementIds c)) dm (callback i c dm)) cs ->
  forall i dm,
    Frame R (among (flat_map subtreeElementIds cs)) dm (forEachFrom callback i cs dm).
Proof.
  induction 1 as [|c cs Hc _ IH]; intros i dm; simpl; [apply Frame_refl|].
  eapply Frame_trans.
  - weaken_frame (Hc i dm); [auto | in_app_l].
  - weaken_frame IH; [auto | in_app_r].
Qed.

Lemma recursiveCollapseRegion_frame r :
  forall p dm,
    Frame (below p) (among (subtreeElementIds r)) dm (recursiveCollapseRegion p r dm).
Proof.
  induction r as [br els cs ab IH] using Region_ind'. intros p dm. simpl.
  eapply Frame_trans; [eapply Frame_trans|].
  - weaken_frame (setExpansionState_frame p (mkRegion br els cs ab) COLLAPSED dm);
      [auto | in_app_l].
  - apply setDelete_frame.
  - weaken_frame (forEachFrom_frame (below p)); [auto | in_app_r |].
    eapply Forall_impl; [exact IH|]. intros c Hc i dm'. simpl.
    destruct (expansionState dm' !! (p ++ [i])) as [[|]|]; try apply Frame_refl.
    weaken_frame Hc; [apply below_snoc | auto].
Qed.

Lemma searchUntilCollapse_frame vp threshold r :
  forall p dm,
    Frame (below p) (among (subtreeElementIds r)) dm
      (searchUntilCollapse vp threshold p r dm).
Proof.
  induction r as [br els cs ab IH] using Region_ind'. intros p dm. simpl.
  eapply Frame_trans.
  - weaken_frame (setExpansionState_frame p (mkRegion br els cs ab) true dm);
      [auto | in_app_l].
  - weaken_frame (forEachFrom_frame (below p)); [auto | in_app_r |].
    eapply Forall_impl; [exact IH|]. intros c Hc i dm'. simpl.
    destruct (boundingRectangle c); [|apply Frame_refl].
    destruct (getExpansionState dm' c vp threshold).
    + weaken_frame Hc; [apply below_snoc | auto].
    + eapply Frame_trans; [apply setAdd_frame; by unfold below|].
      weaken_frame recursiveCollapseRegion_frame; [apply below_snoc | auto].
Qed.

(** The expansion test reads nothing that propagation writes. *)
Lemma getExpansionState_static dm dm' r vp threshold :
  sameStatic dm dm' ->
  getExpansionState dm' r vp threshold = getExpansionState dm r vp threshold.
Proof.
  intros (S1 & _ & _ & _ & S5).
  unfold getExpansionState, isVisible. by rewrite S1, S5.
Qed.

Lemma roots_loop_frame vp threshold dm0 roots :
  forall k dm,
    sameStatic dm0 dm ->
    Frame (expandedRoots (fun r => getExpansionState dm0 r vp threshold) k roots)
          (expandedRootIds (fun r => getExpansionState dm0 r vp threshold) roots)
      dm
      (forEachFrom
         (fun i region dm =>
            if getExpansionState dm region vp threshold
            then searchUntilCollapse vp threshold [i] region dm
            else dm)
         k roots dm).
Proof.
  induction roots as [|c cs IH]; intros k dm Hst; simpl; [apply Frame_refl|].
  rewrite (getExpansionState_static dm0 dm c) by exact Hst.
  assert (Hstep : Frame
            (expandedRoots (fun r => getExpansionState dm0 r vp threshold) k (c :: cs))
            (expandedRootIds (fun r => getExpansionState dm0 r vp threshold) (c :: cs))
            dm
            (if getExpansionState dm0 c vp threshold
             then searchUntilCollapse vp threshold [k] c dm else dm)).
  { destruct (getExpansionState dm0 c vp threshold) eqn:E; [|apply Frame_refl].
    weaken_frame searchUntilCollapse_frame.
    - intros q Hq. exists 0%nat, c. rewrite Nat.add_0_r. auto.
    - intros e He. exists 0%nat, c. auto. }
  eapply Frame_trans; [exact Hstep|].
  weaken_frame IH.
  - intros q (j & r & Hj & Ht & Hq). exists (S j), r.
    replace (k + S j)%nat with (S k + j)%nat by lia. auto.
  - intros e (j & r & Hj & Ht & He). exists (S j), r. auto.
  - eapply sameStatic_trans; [exact Hst | apply Hstep].
Qed.

(** *** [checkCriticalRegions] terminates *)

Lemma recursiveCollapseRegion_static p r dm :
  sameStatic dm (recursiveCollapseRegion p r dm).
Proof. apply (recursiveCollapseRegion_frame r p dm). Qed.

Lemma searchUntilCollapse_static vp threshold p r dm :
  sameStatic dm (searchUntilCollapse vp threshold p r dm).
Proof. apply (searchUntilCollapse_frame vp threshold r p dm). Qed.

Lemma forEachFrom_static callback :
  (forall i c dm, sameStatic dm (callback i c dm)) ->
  forall cs i dm, sameStatic dm (forEachFrom callback i cs dm).
Proof.
  intros Hcb. induction cs as [|c cs IH]; intros i dm; simpl.
  - apply sameStatic_refl.
  - eapply sameStatic_trans; [apply Hcb | apply IH].
Qed.

Lemma processRegion_static vp threshold p st :
  sameStatic (csMap st) (csMap (processRegion vp threshold p st)).
Proof.
  unfold processRegion.
  destruct (regionAt (rootRegions (csMap st)) p) as [region|]; [|apply sameStatic_refl].
  destruct (_ || _); [|apply sameStatic_refl].
  destruct (parentRef p) as [pp|]; simpl;
    (eapply sameStatic_trans;
     [|apply forEachFrom_static; intros; apply recursiveCollapseRegion_static]);
    repeat split.
Qed.

Lemma processRegion_next vp threshold p st q :
  q ∈ csNext (processRegion vp threshold p st) ->
  q ∈ csNext st \/ parentRef p = Some q.
Proof.
  unfold processRegion.
  destruct (regionAt (rootRegions (csMap st)) p) as [region|]; [|by left].
  destruct (_ || _); [|by left].
  destruct (parentRef p) as [pp|]; simpl; [|by left].
  intros Hq. apply elem_of_setAdd in Hq as [->|Hq]; auto.
Qed.

Lemma processRound_next vp threshold tbp :
  forall st q,
    q ∈ csNext (fold_left (fun st p => processRegion vp threshold p st) tbp st) ->
    q ∈ csNext st \/ exists p, p ∈ tbp /\ parentRef p = Some q.
Proof.
  induction tbp as [|p tbp IH]; intros st q Hq; simpl in Hq; [by left|].
  apply IH in Hq as [Hq|(p' & Hin & Hp')].
  - apply processRegion_next in Hq as [Hq|Hq]; [by left|].
    right. exists p. split; [left | assumption].
  - right. exists p'. split; [by right | assumption].
Qed.

Lemma processRound_static vp threshold tbp :
  forall st,
    sameStatic (csMap st)
      (csMap (fold_left (fun st p => processRegion vp threshold p st) tbp st)).
Proof.
  induction tbp as [|p tbp IH]; intros st; simpl; [apply sameStatic_refl|].
  eapply sameStatic_trans; [apply processRegion_static | apply IH].
Qed.

Lemma parentRef_length p q : parentRef p = Some q -> length p = S (length q).
Proof.
  intros H.
  assert (Hq : q = removelast p /\ p <> []).
  { destruct p as [|a [|b p]]; try discriminate. injection H as <-. by split. }
  destruct Hq as [-> Hne].
  destruct (exists_last Hne) as (l' & z & ->).
  rewrite removelast_last, length_app. simpl. lia.
Qed.

Lemma maxDepth_ge s p : p ∈ s -> (length p <= maxDepth s)%nat.
Proof.
  induction s as [|a s IH]; intros Hin; [by apply elem_of_nil in Hin|].
  simpl. apply elem_of_cons in Hin as [->|Hin]; [lia|].
  specialize (IH Hin). lia.
Qed.

Lemma maxDepth_lt s n :
  (0 < n)%nat -> (forall p, p ∈ s -> (length p < n)%nat) -> (maxDepth s < n)%nat.
Proof.
  intros Hn. induction s as [|a s IH]; intros Hall; simpl; [exact Hn|].
  assert (length a < n)%nat by (apply Hall; left).
  assert (maxDepth s < n)%nat by (apply IH; intros p Hp; apply Hall; by right).
  lia.
Qed.

Lemma processLoop_terminates vp threshold :
  forall fuel tbp dm cs,
    (maxDepth tbp < fuel)%nat ->
    exists dm' cs', processLoop fuel vp threshold tbp dm cs = Some (dm', cs')
                    /\ sameStatic dm dm'.
Proof.
  induction fuel as [|fuel IH]; intros tbp dm cs Hfuel; [lia|].
  destruct tbp as [|p0 tbp]; [exists dm, cs; split; [reflexivity | apply sameStatic_refl]|].
  cbn [processLoop].
  set (st := fold_left _ (p0 :: tbp) _).
  assert (Hnext : forall q, q ∈ csNext st -> (length q < maxDepth (p0 :: tbp))%nat).
  { intros q Hq. apply processRound_next in Hq as [Hq|(p & Hin & Hp)].
    - by apply elem_of_nil in Hq.
    - apply parentRef_length in Hp. apply maxDepth_ge in Hin. lia. }
  assert (Hst : sameStatic dm (csMap st)) by apply (processRound_static vp threshold (p0 :: tbp) (mkCheckState dm cs [])).
  destruct (csNext st) as [|q0 next] eqn:E.
  - exists (csMap st), (csChildSet st). split; [by destruct fuel | exact Hst].
  - destruct (IH (q0 :: next) (csMap st) (csChildSet st)) as (dm' & cs' & Hrun & Hst').
    + assert (length q0 < maxDepth (p0 :: tbp))%nat by (apply Hnext; left).
      apply maxDepth_lt; [lia|]. intros p Hp. specialize (Hnext p Hp). lia.
    + exists dm', cs'. split; [exact Hrun | by eapply sameStatic_trans].
Qed.

Lemma checkChild_static vp threshold dm q :
  sameStatic dm (checkChild vp threshold dm q).
Proof.
  unfold checkChild.
  destruct (regionAt (rootRegions dm) q) as [c|]; [|apply sameStatic_refl].
  destruct (getExpansionState dm c vp threshold);
    [apply searchUntilCollapse_static|].
  eapply sameStatic_trans; [|apply recursiveCollapseRegion_static].
  destruct (parentRef q); repeat split.
Qed.

Lemma checkCriticalRegions_terminates vp threshold dm :
  exists dm', checkCriticalRegions vp threshold dm = Some dm' /\ sameStatic dm dm'.
Proof.
  unfold checkCriticalRegions.
  destruct (processLoop_terminates vp threshold (S (maxDepth (criticalRegions dm)))
              (criticalRegions dm) dm []) as (dm1 & cs & -> & Hst); [lia|].
  eexists. split; [reflexivity|].
  clear - Hst. revert dm1 Hst. induction cs as [|q cs IH]; intros dm1 Hst; simpl; [exact Hst|].
  apply IH. eapply sameStatic_trans; [exact Hst | apply checkChild_static].
Qed.

Lemma initializeRoots_static vp threshold dm :
  sameStatic dm (initializeRoots vp threshold dm).
Proof.
  unfold initializeRoots. apply forEachFrom_static. intros i c dm'.
  destruct (getExpansionState dm' c vp threshold);
    [apply searchUntilCollapse_static | apply sameStatic_refl].
Qed.

(** [expandCollapse] always returns, and a call that is not skipped leaves
    the viewport it was given in [this.viewport]. *)
Lemma expandCollapse_returns vp opts dm :
  exists dm', expandCollapse vp opts dm = Some dm' /\
    (viewportUnchanged (viewport dm) vp = true /\ dm' = dm \/
     viewportUnchanged (viewport dm) vp = false /\
     viewport dm' = Some (mkViewport (scroll vp) (zoom vp))).
Proof.
  unfold expandCollapse.
  destruct (viewportUnchanged (viewport dm) vp) eqn:E; [exists dm; auto|].
  set (dm1 := withViewport _ dm).
  destruct (criticalRegions dm1) as [|c cr] eqn:Ecr.
  - eexists. split; [reflexivity|right]. split; [reflexivity|].
    destruct (initializeRoots_static vp (thresholdOf opts) dm1) as (_ & _ & _ & -> & _).
    reflexivity.
  - destruct (checkCriticalRegions_terminates vp (thresholdOf opts) dm1)
      as (dm' & Hrun & (_ & _ & _ & Hv & _)).
    exists dm'. rewrite Hrun. split; [reflexivity|right]. split; [reflexivity|].
    rewrite Hv. reflexivity.
Qed.

(** *** Properties of the expansion test *)

Lemma Qdiv_div (a b c : Q) : (a / (b / c) == a * c / b)%Q.
Proof.
  unfold Qdiv. rewrite Qinv_mult_distr, Qinv_involutive. ring.
Qed.

Lemma Qgtb_max (a b : Q) : ((if Qgtb a b then a else b) == Qmax a b)%Q.
Proof.
  destruct (Qgtb a b) eqn:E.
  - apply Qgtb_gt in E. symmetry. apply Q.max_l. by apply Qlt_le_weak.
  - symmetry. apply Q.max_r. unfold Qgtb in E. apply negb_false_iff in E.
    by apply Qle_bool_iff.
Qed.

(** [sizeInViewport] is the larger of the two ratios of the node's rendered
    extent (its size times the zoom) to the canvas extent. *)
Lemma sizeInViewport_max root node vp :
  (sizeInViewport root node vp ==
   Qmax (width (bounds node) * zoom vp / width (canvasBounds root))
        (height (bounds node) * zoom vp / height (canvasBounds root)))%Q.
Proof.
  unfold sizeInViewport. rewrite Qgtb_max.
  apply Q.max_compat; apply Qdiv_div.
Qed.

(** *** The skip rule *)

Lemma viewportUnchanged_recorded vp vp' :
  scrollRef (scroll vp') = scrollRef (scroll vp) -> (zoom vp' == zoom vp)%Q ->
  viewportUnchanged (Some (mkViewport (scroll vp) (zoom vp))) vp' = true.
Proof.
  intros Href Hzoom. unfold viewportUnchanged, sameScroll. simpl.
  rewrite Href, Nat.eqb_refl. simpl. apply Qeq_bool_iff. by symmetry.
Qed.

Lemma viewportUnchanged_again last vp vp' :
  scrollRef (scroll vp') = scrollRef (scroll vp) -> (zoom vp' == zoom vp)%Q ->
  viewportUnchanged last vp = true -> viewportUnchanged last vp' = true.
Proof.
  intros Href Hzoom. unfold viewportUnchanged, sameScroll.
  destruct last as [l|]; [|discriminate]. rewrite !andb_true_iff, Href.
  intros [Hs Hz]. split; [exact Hs|].
  apply Qeq_bool_iff. apply Qeq_bool_iff in Hz. rewrite Hz. by symmetry.
Qed.

(** C1 (amended).  Calling [expandCollapse] a second time with the viewport
    of the preceding call, that is with the same scroll object and the same
    zoom, changes nothing: the second call returns the DepthMap as the first
    call left it, so no region's and no element's [expansionState] and no
    member of [criticalRegions] changes. *)
Theorem expandCollapse_same_viewport_is_noop vp vp' opts opts' dm :
  scrollRef (scroll vp') = scrollRef (scroll vp) ->
  (zoom vp' == zoom vp)%Q ->
  exists dm1 dm2,
    expandCollapse vp opts dm = Some dm1 /\
    expandCollapse vp' opts' dm1 = Some dm2 /\
    dm2 = dm1 /\
    expansionState dm2 = expansionState dm1 /\
    nodeExpansionState dm2 = nodeExpansionState dm1 /\
    criticalRegions dm2 = criticalRegions dm1.
Proof.
  intros Href Hzoom.
  destruct (expandCollapse_returns vp opts dm) as (dm1 & Hrun & [[E ->]|[E Hv]]).
  - exists dm, dm. split; [exact Hrun|]. split; [|by repeat split].
    unfold expandCollapse.
    by rewrite (viewportUnchanged_again _ vp vp' Href Hzoom E).
  - exists dm1, dm1. split; [exact Hrun|]. split; [|by repeat split].
    unfold expandCollapse. rewrite Hv.
    by rewrite (viewportUnchanged_recorded vp vp' Href Hzoom).
Qed.

(** The theorem applied to the scenario: after the call with [away], a
    second call with the same scroll object and the zoom written 2/4. *)
Lemma expandCollapse_same_viewport_is_noop_witness :
  exists dm1 dm2,
    expandCollapse Scenario.away Scenario.options Scenario.afterOverview = Some dm1 /\
    expandCollapse (mkViewport (scroll Scenario.away) (2 # 4))
      (mkRenderingOptions (Some 1%Q)) dm1 = Some dm2 /\
    dm2 = dm1 /\
    expansionState dm2 = expansionState dm1 /\
    nodeExpansionState dm2 = nodeExpansionState dm1 /\
    criticalRegions dm2 = criticalRegions dm1.
Proof.
  apply (expandCollapse_same_viewport_is_noop Scenario.away
           (mkViewport (scroll Scenario.away) (2 # 4))
           Scenario.options (mkRenderingOptions (Some 1%Q)) Scenario.afterOverview).
  - reflexivity.
  - reflexivity.
Defined.

Lemma run_spec vp dm :
  expandCollapse vp Scenario.options dm = Some (Scenario.run vp dm).
Proof.
  unfold Scenario.run.
  destruct (expandCollapse_returns vp Scenario.options dm) as (dm' & -> & _).
  reflexivity.
Qed.

(** C1 (as stated) fails: [away] and [awayAgain] have the same scroll x/y
    and the same zoom, yet the call with [awayAgain] that follows the call
    with [away] is not skipped (the scroll objects differ) and removes
    region [[0;0]] from [criticalRegions]. *)
Lemma equal_viewport_values_still_change_state :
  px (scroll Scenario.awayAgain) = px (scroll Scenario.away) /\
  py (scroll Scenario.awayAgain) = py (scroll Scenario.away) /\
  zoom Scenario.awayAgain = zoom Scenario.away /\
  expandCollapse Scenario.away Scenario.options Scenario.afterOverview
    = Some Scenario.afterAway /\
  expandCollapse Scenario.awayAgain Scenario.options Scenario.afterAway
    = Some Scenario.afterAwayAgain /\
  criticalRegions Scenario.afterAway = [[0; 0]%nat] /\
  criticalRegions Scenario.afterAwayAgain = [].
Proof.
  split; [reflexivity|]. split; [reflexivity|]. split; [reflexivity|].
  split; [apply run_spec|]. split; [apply run_spec|].
  split; vm_compute; reflexivity.
Qed.

(** *** Cold start *)

Lemma below_root_inj (i j : nat) q : below [i] q -> below [j] q -> i = j.
Proof. intros [k1 ->] [k2 H]. simpl in H. congruence. Qed.

(** C10.  On a cold-start call ([criticalRegions] empty) a root region whose
    expansion test returns [COLLAPSED] is left untouched: its own
    [expansionState] and that of every region below it are what they were
    before the call, none of these regions is in [criticalRegions]
    afterwards, and the [expansionState] of its elements (and of the
    elements of the regions below it) is what it was before the call.
    Elements are told apart by id, so the statement on elements supposes
    that no element of the region's subtree also occurs under another root
    region. *)
Theorem cold_start_leaves_collapsed_root_untouched vp opts dm i region :
  criticalRegions dm = [] ->
  rootRegions dm !! i = Some region ->
  getExpansionState dm region vp (thresholdOf opts) = COLLAPSED ->
  (forall j r, j <> i -> rootRegions dm !! j = Some r ->
     forall e, e ∈ subtreeElementIds r -> e ∉ subtreeElementIds region) ->
  exists dm',
    expandCollapse vp opts dm = Some dm' /\
    (forall q, below [i] q ->
       expansionState dm' !! q = expansionState dm !! q /\ q ∉ criticalRegions dm') /\
    (forall e, e ∈ subtreeElementIds region ->
       nodeExpansionState dm' !! e = nodeExpansionState dm !! e).
Proof.
  intros Hcold Hroot Htest Hdisj. unfold expandCollapse.
  destruct (viewportUnchanged (viewport dm) vp).
  { exists dm. split; [reflexivity|]. split; [|reflexivity].
    intros q _. split; [reflexivity|]. rewrite Hcold. apply not_elem_of_nil. }
  cbn zeta. set (dm1 := withViewport _ dm).
  change (criticalRegions dm1) with (criticalRegions dm). rewrite Hcold.
  eexists. split; [reflexivity|].
  pose proof (roots_loop_frame vp (thresholdOf opts) dm1 (rootRegions dm1) 0 dm1
                (sameStatic_refl dm1)) as F.
  fold (initializeRoots vp (thresholdOf opts) dm1) in F.
  assert (Hnot : forall j r, rootRegions dm1 !! j = Some r ->
            getExpansionState dm1 r vp (thresholdOf opts) = true -> j <> i).
  { intros j r Hj Ht ->. change (rootRegions dm1) with (rootRegions dm) in Hj.
    rewrite Hroot in Hj. injection Hj as <-.
    change (getExpansionState dm1 region vp (thresholdOf opts))
      with (getExpansionState dm region vp (thresholdOf opts)) in Ht.
    rewrite Htest in Ht. discriminate. }
  split.
  - intros q Hq. split.
    + rewrite (frame_regions _ _ _ _ F); [reflexivity|].
      intros (j & r & Hj & Ht & Hb). simpl in Hb.
      apply (Hnot j r Hj Ht). by eapply below_root_inj.
    + intros Hin. apply (frame_critical _ _ _ _ F) in Hin as [Hin|(j & r & Hj & Ht & Hb)].
      * change (criticalRegions dm1) with (criticalRegions dm) in Hin.
        rewrite Hcold in Hin. by apply elem_of_nil in Hin.
      * simpl in Hb. apply (Hnot j r Hj Ht). by eapply below_root_inj.
  - intros e He. rewrite (frame_nodes _ _ _ _ F); [reflexivity|].
    intros (j & r & Hj & Ht & Hin).
    apply (Hdisj j r (Hnot j r Hj Ht) Hj e Hin He).
Qed.

(** The theorem applied to the scenario: scrolled away from [g] before any
    other call, the root region [[0]] tests [COLLAPSED]. *)
Lemma cold_start_leaves_collapsed_root_untouched_witness :
  exists dm',
    expandCollapse Scenario.away Scenario.options Scenario.fresh = Some dm' /\
    (forall q, below [0%nat] q ->
       expansionState dm' !! q = expansionState Scenario.fresh !! q
       /\ q ∉ criticalRegions dm') /\
    (forall e, e ∈ subtreeElementIds
                 (mkRegion (Some Scenario.nodeG) [Scenario.nodeP; Scenario.nodeQ]
                    [mkRegion (Some Scenario.nodeP) [Scenario.nodeC]
                       [mkRegion (Some Scenario.nodeC) [] [] None] None;
                     mkRegion (Some Scenario.nodeQ) [] [] None]
                    (Some (mkBounds 0 0 1000 1000))) ->
       nodeExpansionState dm' !! e = nodeExpansionState Scenario.fresh !! e).
Proof.
  apply (cold_start_leaves_collapsed_root_untouched
           Scenario.away Scenario.options Scenario.fresh 0).
  - vm_compute. reflexivity.
  - vm_compute. reflexivity.
  - vm_compute. reflexivity.
  - intros j r Hj Hr. destruct j; [congruence|]. vm_compute in Hr. discriminate Hr.
Defined.

(** *** Cold start from a new DepthMap

    On a DepthMap that has not been written to, the cold-start path leaves
    every expanded region below an expanded parent and every critical region
    expanded with a collapsed child. *)

Lemma below_refl p : below p p.
Proof. by unfold below. Qed.

Lemma below_child_or_eq p q : below p q -> q = p \/ exists i, below (p ++ [i]) q.
Proof.
  intros [k ->]. destruct k as [|i k]; [left; by rewrite app_nil_r|].
  right. exists i, k. by rewrite <- app_assoc.
Qed.

Lemma below_children_disjoint p i j q :
  below (p ++ [i]) q -> below (p ++ [j]) q -> i = j.
Proof.
  intros [k1 ->] [k2 H]. rewrite <- !app_assoc in H.
  apply app_inv_head in H. simpl in H. congruence.
Qed.

Lemma not_below_self p i : ~ below (p ++ [i]) p.
Proof.
  intros [k H]. apply (f_equal length) in H. rewrite !length_app in H. simpl in H. lia.
Qed.

Lemma snoc_ne (p : RegionRef) i : p <> p ++ [i].
Proof.
  intros H. apply (f_equal length) in H. rewrite length_app in H. simpl in H. lia.
Qed.

Lemma removelast_snoc (p : RegionRef) i : removelast (p ++ [i]) = p.
Proof. apply removelast_last. Qed.

Lemma removelast_below p i q :
  below (p ++ [i]) q -> q <> p ++ [i] -> below (p ++ [i]) (removelast q).
Proof.
  intros [k ->] Hne. destruct k as [|a k]; [by rewrite app_nil_r in Hne|].
  rewrite removelast_app by discriminate. by eexists.
Qed.

Lemma below_of_removelast r q : q <> [] -> below r (removelast q) -> below r q.
Proof.
  intros Hne [k Hk]. rewrite (app_removelast_last 0%nat Hne), Hk.
  exists (k ++ [List.last q 0%nat]). by rewrite app_assoc.
Qed.

Lemma parentRef_below p i q :
  p <> [] -> below (p ++ [i]) q -> parentRef q = Some (removelast q).
Proof.
  intros Hp [k ->]. destruct p as [|a p]; [done|].
  destruct p as [|b p]; simpl; reflexivity.
Qed.

Lemma snoc_below_inv p i q k :
  below (p ++ [i]) (q ++ [k]) -> ~ below (p ++ [i]) q -> q = p /\ k = i.
Proof.
  intros [l H] Hnot. destruct (decide (l = [])) as [->|Hl].
  - rewrite app_nil_r in H. by apply app_inj_tail in H.
  - destruct (exists_last Hl) as (l' & z & ->). rewrite app_assoc in H.
    apply app_inj_tail in H as [-> _]. exfalso. apply Hnot. by eexists.
Qed.

Lemma collapse_loop_leaf p cs :
  forall i dm,
    (forall j, expansionState dm !! (p ++ [j]) <> Some true) ->
    forEachFrom
      (fun i childRegion dm =>
         match expansionState dm !! (p ++ [i]) with
         | Some true => recursiveCollapseRegion (p ++ [i]) childRegion dm
         | _ => dm
         end)
      i cs dm = dm.
Proof.
  induction cs as [|c cs IH]; intros i dm Hleaf; simpl; [reflexivity|].
  pose proof (Hleaf i) as Hi.
  destruct (expansionState dm !! (p ++ [i])) as [[|]|]; [done | by apply IH | by apply IH].
Qed.

(** Where no child of [p] is expanded, [recursiveCollapseRegion] collapses
    [p] and goes no further. *)
Lemma recursiveCollapseRegion_leaf p r dm :
  (forall i, expansionState dm !! (p ++ [i]) <> Some true) ->
  recursiveCollapseRegion p r dm =
    withCritical (setDelete p (criticalRegions dm)) (setExpansionState p r COLLAPSED dm).
Proof.
  intros Hleaf. destruct r as [br els cs ab]. simpl.
  apply collapse_loop_leaf.
  intros i. simpl. rewrite lookup_insert_ne; [apply Hleaf | apply snoc_ne].
Qed.

Lemma children_loop_settles vp threshold p cs :
  p <> [] ->
  Forall (fun c => forall q dm,
            q <> [] -> unwrittenBelow q dm ->
            SettledBelow q (searchUntilCollapse vp threshold q c dm)) cs ->
  forall i dm,
    SettledBelow p dm ->
    (forall j, (i <= j)%nat -> unwrittenBelow (p ++ [j]) dm) ->
    SettledBelow p
      (forEachFrom
         (fun i childRegion dm =>
            match boundingRectangle childRegion with
            | Some _ =>
                if getExpansionState dm childRegion vp threshold
                then searchUntilCollapse vp threshold (p ++ [i]) childRegion dm
                else recursiveCollapseRegion (p ++ [i]) childRegion
                       (withCritical (setAdd p (criticalRegions dm)) dm)
            | None => dm
            end)
         i cs dm).
Proof.
  intros Hp. induction 1 as [|c cs Hc _ IH]; intros i dm Hgood Hfresh; simpl; [exact Hgood|].
  assert (Hnotp : forall j, ~ below (p ++ [j]) p) by (intros j; apply not_below_self).
  destruct (boundingRectangle c) as [br|]; [|apply IH; [exact Hgood | intros j Hj; apply Hfresh; lia]].
  destruct (getExpansionState dm c vp threshold).
  - (* the child is expanded: descend *)
    pose proof (searchUntilCollapse_frame vp threshold c (p ++ [i]) dm) as F.
    pose proof (Hc (p ++ [i]) dm ltac:(by destruct p) (Hfresh i (le_n i))) as Hchild.
    set (dm' := searchUntilCollapse vp threshold (p ++ [i]) c dm) in *.
    apply IH.
    + destruct Hgood as [Ga Gb Gc]. destruct Hchild as [Ca Cb Cc]. split.
      * rewrite (frame_regions _ _ _ _ F); [exact Ga | apply Hnotp].
      * intros q Hq Hne Hexp.
        destruct (decide (below (p ++ [i]) q)) as [Hin|Hout].
        -- destruct (decide (q = p ++ [i])) as [->|Hneq].
           ++ rewrite removelast_snoc.
              rewrite (frame_regions _ _ _ _ F); [exact Ga | apply Hnotp].
           ++ by apply Cb.
        -- rewrite (frame_regions _ _ _ _ F) in Hexp by exact Hout.
           rewrite (frame_regions _ _ _ _ F).
           ++ by apply Gb.
           ++ intros Hrl. apply Hout. apply below_of_removelast; [|exact Hrl].
              intros ->. destruct Hq as [k Hk]. by destruct p.
      * intros q Hq Hcrit.
        destruct (decide (below (p ++ [i]) q)) as [Hin|Hout]; [by apply Cc|].
        apply (frame_critical _ _ _ _ F) in Hcrit as [Hcrit|Hin]; [|done].
        destruct (Gc q Hq Hcrit) as (Hexp & k & Hk). split.
        -- by rewrite (frame_regions _ _ _ _ F).
        -- exists k. rewrite (frame_regions _ _ _ _ F); [exact Hk|].
           intros Hb. destruct (snoc_below_inv p i q k Hb Hout) as [-> ->].
           destruct (Hfresh i (le_n i) (p ++ [i]) (below_refl _)) as [Hnone _].
           congruence.
    + intros j Hj q Hq.
      assert (Hout : ~ below (p ++ [i]) q).
      { intros Hin. assert (i = j) by (by eapply below_children_disjoint). lia. }
      destruct (Hfresh j ltac:(lia) q Hq) as [Hnone Hnc]. split.
      * by rewrite (frame_regions _ _ _ _ F).
      * intros Hcrit. apply (frame_critical _ _ _ _ F) in Hcrit as [Hcrit|Hin]; done.
  - (* the child is collapsed: [p] becomes critical *)
    rewrite recursiveCollapseRegion_leaf.
    2:{ intros k. simpl.
        destruct (Hfresh i (le_n i) ((p ++ [i]) ++ [k])) as [Hnone _];
          [by eexists | by rewrite Hnone]. }
    set (dm' := withCritical _ _).
    assert (Hexp' : forall q, expansionState dm' !! q =
                      if decide (q = p ++ [i]) then Some false
                      else expansionState dm !! q).
    { intros q. simpl. destruct (decide (q = p ++ [i])) as [->|Hne].
      - apply lookup_insert_eq.
      - by apply lookup_insert_ne. }
    assert (Hcrit' : forall q, q ∈ criticalRegions dm' <->
                       q <> p ++ [i] /\ (q = p \/ q ∈ criticalRegions dm)).
    { intros q. simpl. by rewrite elem_of_setDelete, elem_of_setAdd. }
    assert (Hpi : p <> p ++ [i]) by apply snoc_ne.
    destruct (Hfresh i (le_n i) (p ++ [i]) (below_refl _)) as [Hnone_i _].
    apply IH.
    + destruct Hgood as [Ga Gb Gc]. split.
      * rewrite Hexp'. by destruct (decide (p = p ++ [i])).
      * intros q Hq Hne. rewrite !Hexp'.
        destruct (decide (q = p ++ [i])); [discriminate|].
        intros Hexp. destruct (decide (removelast q = p ++ [i])) as [Hrl|]; [|by apply Gb].
        exfalso. assert (Hin : below (p ++ [i]) q).
        { apply below_of_removelast; [|rewrite Hrl; apply below_refl].
          intros ->. by destruct p. }
        destruct (Hfresh i (le_n i) q Hin) as [Hnone _].
        congruence.
      * intros q Hq Hcrit. apply Hcrit' in Hcrit as [Hne [->|Hcrit]].
        -- split; [rewrite Hexp'; by destruct (decide (p = p ++ [i]))|].
           exists i. rewrite Hexp'. by destruct (decide (p ++ [i] = p ++ [i])).
        -- destruct (Gc q Hq Hcrit) as (Hexp & k & Hk). split.
           ++ rewrite Hexp'. by destruct (decide (q = p ++ [i])).
           ++ exists k. rewrite Hexp'. by destruct (decide (q ++ [k] = p ++ [i])).
    + intros j Hj q Hq.
      assert (Hne : q <> p ++ [i]).
      { intros ->. assert (j = i); [|lia].
        eapply below_children_disjoint; [exact Hq | apply below_refl]. }
      destruct (Hfresh j ltac:(lia) q Hq) as [Hnone Hnc]. split.
      * rewrite Hexp'. by destruct (decide (q = p ++ [i])).
      * intros Hcrit. apply Hcrit' in Hcrit as [_ [->|Hcrit]]; [|done].
        by apply (Hnotp j).
Qed.

Lemma searchUntilCollapse_settles vp threshold r :
  forall p dm,
    p <> [] -> unwrittenBelow p dm ->
    SettledBelow p (searchUntilCollapse vp threshold p r dm).
Proof.
  induction r as [br els cs ab IH] using Region_ind'. intros p dm Hp Hfresh. simpl.
  apply children_loop_settles; [exact Hp | exact IH | |].
  - split.
    + simpl. apply lookup_insert_eq.
    + intros q Hq Hne. simpl. rewrite lookup_insert_ne by done.
      destruct (Hfresh q Hq) as [Hnone _]. intros Hexp. congruence.
    + intros q Hq Hcrit. simpl in Hcrit. by destruct (Hfresh q Hq).
  - intros j _ q Hq. destruct (Hfresh q (below_snoc p j q Hq)) as [Hnone Hnc].
    split; [|exact Hnc]. simpl. rewrite lookup_insert_ne; [exact Hnone|].
    intros <-. by apply (not_below_self p j).
Qed.

Lemma parentRef_Some q pp : parentRef q = Some pp -> pp = removelast q /\ q <> [].
Proof. destruct q as [|a [|b q]]; simpl; intros [= <-]; by split. Qed.

Lemma roots_loop_settles vp threshold roots :
  forall k dm,
    Settled dm ->
    (forall j, (k <= j)%nat -> unwrittenBelow [j] dm) ->
    Settled
      (forEachFrom
         (fun i region dm =>
            if getExpansionState dm region vp threshold
            then searchUntilCollapse vp threshold [i] region dm
            else dm)
         k roots dm).
Proof.
  induction roots as [|c roots IH]; intros k dm Hgood Hfresh; simpl; [exact Hgood|].
  destruct (getExpansionState dm c vp threshold);
    [|apply IH; [exact Hgood | intros j Hj; apply Hfresh; lia]].
  pose proof (searchUntilCollapse_frame vp threshold c [k] dm) as F.
  pose proof (searchUntilCollapse_settles vp threshold c [k] dm
                ltac:(discriminate) (Hfresh k (le_n k))) as [Ca Cb Cc].
  set (dm' := searchUntilCollapse vp threshold [k] c dm) in *.
  assert (Hnil : ~ below [k] []) by (intros [l H]; discriminate H).
  destruct Hgood as [[Gn Gnc] Go Gf].
  apply IH.
  - split.
    + split.
      * by rewrite (frame_regions _ _ _ _ F).
      * intros Hcrit. apply (frame_critical _ _ _ _ F) in Hcrit as [Hcrit|Hin]; done.
    + intros q pp Hexp Hpar.
      destruct (parentRef_Some q pp Hpar) as [-> Hne].
      destruct (decide (below [k] q)) as [Hin|Hout].
      * apply below_child_or_eq in Hin as [->|[i Hin]]; [discriminate Hpar|].
        apply Cb; [by eapply below_snoc | | exact Hexp].
        intros ->. by apply (not_below_self [k] i).
      * rewrite (frame_regions _ _ _ _ F) in Hexp by exact Hout.
        rewrite (frame_regions _ _ _ _ F); [by apply (Go q)|].
        intros Hrl. apply Hout. by apply below_of_removelast.
    + intros q Hcrit.
      destruct (decide (below [k] q)) as [Hin|Hout]; [by apply Cc|].
      apply (frame_critical _ _ _ _ F) in Hcrit as [Hcrit|Hin]; [|done].
      destruct (Gf q Hcrit) as (Hexp & i & Hi). split.
      * by rewrite (frame_regions _ _ _ _ F).
      * exists i. rewrite (frame_regions _ _ _ _ F); [exact Hi|].
        intros Hb. destruct (snoc_below_inv [] k q i Hb Hout) as [-> _]. done.
  - intros j Hj q Hq.
    assert (Hout : ~ below [k] q).
    { intros Hin. assert (k = j) by (by eapply (below_children_disjoint [])). lia. }
    destruct (Hfresh j ltac:(lia) q Hq) as [Hnone Hnc]. split.
    + by rewrite (frame_regions _ _ _ _ F).
    + intros Hcrit. apply (frame_critical _ _ _ _ F) in Hcrit as [Hcrit|Hin]; done.
Qed.

(** The first call on a new DepthMap (no [expansionState] written, no
    critical region) leaves every expanded region below an expanded parent,
    and every critical region expanded with a collapsed child. *)
Lemma cold_start_settles vp opts dm :
  expansionState dm = ∅ -> criticalRegions dm = [] ->
  exists dm',
    expandCollapse vp opts dm = Some dm' /\
    (forall q pp,
       expansionState dm' !! q = Some EXPANDED -> parentRef q = Some pp ->
       expansionState dm' !! pp = Some EXPANDED) /\
    (forall q, q ∈ criticalRegions dm' ->
       expansionState dm' !! q = Some EXPANDED /\
       exists i, expansionState dm' !! (q ++ [i]) = Some COLLAPSED).
Proof.
  intros Hexp Hcrit.
  assert (Hstart : forall v, Settled (withViewport v dm)).
  { intros v. split; simpl; rewrite ?Hexp, ?Hcrit.
    - split; [apply lookup_empty | apply not_elem_of_nil].
    - intros q pp H. by rewrite lookup_empty in H.
    - intros q H. by apply elem_of_nil in H. }
  unfold expandCollapse. destruct (viewportUnchanged (viewport dm) vp).
  - exists dm. split; [reflexivity|].
    destruct (Hstart (viewport dm)) as [_ Ho Hf]. by destruct dm.
  - cbn zeta. set (dm1 := withViewport _ dm).
    change (criticalRegions dm1) with (criticalRegions dm). rewrite Hcrit.
    eexists. split; [reflexivity|].
    destruct (roots_loop_settles vp (thresholdOf opts) (rootRegions dm1) 0 dm1
                (Hstart _)) as [_ Ho Hf]; [|by split].
    intros j _ q _. simpl. rewrite Hexp, Hcrit.
    split; [apply lookup_empty | apply not_elem_of_nil].
Qed.

(** *** Incremental updates *)

(** C2 fails on the code.  After [overview] and then [awayNative], region
    [[0;0;0]] is [EXPANDED] although its parent [[0;0]] is [COLLAPSED]:
    [checkCriticalRegions] collected [[0;0;0]] into [childSet] while [[0;0]]
    was still expanded, then collapsed [[0]] and with it [[0;0]], and
    finally expanded [[0;0;0]] from [childSet] without looking at its
    parent again. *)
Theorem incremental_update_orphans_expansion :
  expandCollapse Scenario.overview Scenario.options Scenario.fresh
    = Some Scenario.afterOverview /\
  expandCollapse Scenario.awayNative Scenario.options Scenario.afterOverview
    = Some Scenario.afterAwayNative /\
  parentRef [0; 0; 0]%nat = Some [0; 0]%nat /\
  expansionState Scenario.afterAwayNative !! [0; 0; 0]%nat = Some EXPANDED /\
  expansionState Scenario.afterAwayNative !! [0; 0]%nat = Some COLLAPSED.
Proof.
  split; [apply run_spec|]. split; [apply run_spec|].
  split; [reflexivity|]. split; vm_compute; reflexivity.
Qed.

(** C3 fails on the code.  After [overview] and then [away], region
    [[0;0]] is [COLLAPSED] and a member of [criticalRegions]: it was
    collapsed together with [[0]], and then put back into the set as the
    parent of the collapsed [[0;0;0]] taken from [childSet]. *)
Theorem collapsed_region_left_in_criticalRegions :
  expandCollapse Scenario.overview Scenario.options Scenario.fresh
    = Some Scenario.afterOverview /\
  expandCollapse Scenario.away Scenario.options Scenario.afterOverview
    = Some Scenario.afterAway /\
  [0; 0]%nat ∈ criticalRegions Scenario.afterAway /\
  expansionState Scenario.afterAway !! [0; 0]%nat = Some COLLAPSED.
Proof.
  split; [apply run_spec|]. split; [apply run_spec|]. split.
  - vm_compute. left.
  - vm_compute. reflexivity.
Qed.

(** Zooming in to native resolution over the diagram after [overview]
    expands every region, and [[0]] and [[0;0]] stay in [criticalRegions]
    although none of their children is collapsed any more: a region that
    stays expanded is never taken out of the set. *)
Example expanded_regions_stay_critical :
  let native := mkViewport (mkPoint 5 0 0) 1 in
  let after := Scenario.run native Scenario.afterOverview in
  expandCollapse native Scenario.options Scenario.afterOverview = Some after /\
  criticalRegions after = [[0; 0]; [0]]%nat /\
  forallb (fun q => bool_decide (expansionState after !! q = Some EXPANDED))
    [[0]; [0; 0]; [0; 0; 0]; [0; 1]]%nat = true.
Proof.
  cbv zeta. split; [apply run_spec|]. split; vm_compute; reflexivity.
Qed.

(** *** Construction failures *)

Lemma KNode_ind' (P : KNode -> Prop) :
  (forall i b d, P (mkKNode i b d None)) ->
  (forall i b d l, Forall P l -> P (mkKNode i b d (Some l))) ->
  forall n, P n.
Proof.
  intros leaf step. fix IH 1. intros [i b d [l|]]; [|apply leaf].
  apply step. induction l as [|c l IHl]; constructor; [apply IH | exact IHl].
Qed.

Lemma addRegionToMap_dom p region m m' :
  addRegionToMap p region m = inr m' -> dom m ⊆ dom m'.
Proof.
  unfold addRegionToMap. destruct (boundingRectangle region); [|discriminate].
  intros [= <-]. rewrite dom_insert_L. set_solver.
Qed.

Lemma forOfChildren_dom visit cs :
  Forall (fun c => forall depth p region m,
            dom m ⊆ dom (builtMap (visit c depth p region m))) cs ->
  forall depth p region m,
    dom m ⊆ dom (builtMap (forOfChildren visit depth p cs region m)).
Proof.
  induction 1 as [|c cs Hc _ IH]; intros depth p region m;
    cbn [forOfChildren]; [done|].
  destruct (startsRegion c) as [e|[|]]; [done| |].
  - destruct (addRegionToMap (p ++ [length (regionChildren (pushElement c region))])
                (newRegion c) m) as [e|m1] eqn:Em; [done|].
    apply addRegionToMap_dom in Em.
    specialize (Hc (S depth) (p ++ [length (regionChildren (pushElement c region))])
                  (newRegion c) m1).
    destruct (visit c (S depth) _ (newRegion c) m1) as [[r' m2] [e|]];
      unfold builtMap in *; simpl in *.
    + set_solver.
    + specialize (IH depth p (addChild r' (pushElement c region)) m2). set_solver.
  - specialize (Hc depth p (pushElement c region) m).
    destruct (visit c depth p (pushElement c region) m) as [[r' m2] [e|]];
      unfold builtMap in *; simpl in *.
    + set_solver.
    + specialize (IH depth p r' m2). set_solver.
Qed.

Lemma initHelper_dom node :
  forall depth p region m, dom m ⊆ dom (builtMap (initHelper node depth p region m)).
Proof.
  induction node as [i b d|i b d l IH] using KNode_ind'; intros depth p region m;
    simpl; [done|].
  apply forOfChildren_dom. exact IH.
Qed.

Lemma forOfRootChildren_grows cs :
  forall dm,
    let dm' := fst (forOfRootChildren cs dm) in
    (length (rootRegions dm) <= length (rootRegions dm'))%nat /\
    dom (regionMap dm) ⊆ dom (regionMap dm') /\
    (forall c cs', cs = c :: cs' ->
       (length (rootRegions dm) < length (rootRegions dm'))%nat /\
       id c ∈ dom (regionMap dm')).
Proof.
  induction cs as [|c cs IH]; intros dm; simpl.
  { split; [lia|]. split; [done|]. discriminate. }
  assert (Hins : id c ∈ dom (<[id c := [length (rootRegions dm)]]> (regionMap dm)))
    by (rewrite dom_insert_L; set_solver).
  assert (Hsub : dom (regionMap dm)
                 ⊆ dom (<[id c := [length (rootRegions dm)]]> (regionMap dm)))
    by (rewrite dom_insert_L; set_solver).
  pose proof (initHelper_dom c 0 [length (rootRegions dm)] (newRegion c)
                (<[id c := [length (rootRegions dm)]]> (regionMap dm))) as Hdom.
  destruct (initHelper c 0 _ _ _) as [[r' m2] [e|]]; unfold builtMap in Hdom; simpl in *.
  - rewrite length_app. simpl. split; [lia|]. split; [set_solver|].
    intros c0 cs0 [= <- <-]. split; [lia | set_solver].
  - destruct (IH (withRegions (rootRegions dm ++ [r']) m2 dm)) as (Hl & Hd & _).
    simpl in Hl, Hd. rewrite length_app in Hl. simpl in Hl.
    split; [lia|]. split; [set_solver|].
    intros c0 cs0 [= <- <-]. split; [lia | set_solver].
Qed.

(** C9 (amended).  If region-tree construction throws, [getInstance]
    catches the exception and returns the new DepthMap as construction left
    it, having logged the start and the failure.  That DepthMap keeps what
    was registered before the throw: its [rootRegions] and [regionMap] are
    empty exactly if the children of the model root could not be iterated,
    that is if the failure came before the first root child. *)
Theorem getInstance_catches_construction_failure rootElement rt dmF e :
  rebuildDue rootElement rt = true ->
  init rootElement (newDepthMap rootElement) = (dmF, Some e) ->
  getInstance rootElement rt =
    (dmF, mkRuntime (Some dmF)
            ((console rt ++ ["Starting reinizialization of DepthMap"])
               ++ ["Failed to initialize DepthMap"])) /\
  (rootRegions dmF = [] <-> rootChildren rootElement = None) /\
  (regionMap dmF = ∅ <-> rootChildren rootElement = None).
Proof.
  intros Hdue Hinit. split.
  { unfold getInstance. rewrite Hdue, Hinit. reflexivity. }
  unfold init in Hinit. destruct (rootChildren rootElement) as [cs|].
  - destruct cs as [|c cs]; [discriminate|].
    destruct (forOfRootChildren_grows (c :: cs) (newDepthMap rootElement))
      as (_ & _ & Hfirst).
    destruct (Hfirst c cs eq_refl) as [Hlen Hkey].
    rewrite Hinit in Hlen, Hkey. simpl in Hlen, Hkey.
    split; (split; [|discriminate]); intros Hempty.
    + rewrite Hempty in Hlen. simpl in Hlen. lia.
    + rewrite Hempty in Hkey. set_solver.
  - injection Hinit as <- _. by split.
Qed.

(** The theorem applied to [brokenModel] in a fresh runtime. *)
Lemma getInstance_catches_construction_failure_witness :
  getInstance Scenario.brokenModel (mkRuntime None []) =
    (fst (init Scenario.brokenModel (newDepthMap Scenario.brokenModel)),
     mkRuntime (Some (fst (init Scenario.brokenModel (newDepthMap Scenario.brokenModel))))
       (([] ++ ["Starting reinizialization of DepthMap"])
          ++ ["Failed to initialize DepthMap"])) /\
  (rootRegions (fst (init Scenario.brokenModel (newDepthMap Scenario.brokenModel))) = []
   <-> rootChildren Scenario.brokenModel = None) /\
  (regionMap (fst (init Scenario.brokenModel (newDepthMap Scenario.brokenModel))) = ∅
   <-> rootChildren Scenario.brokenModel = None).
Proof.
  apply (getInstance_catches_construction_failure Scenario.brokenModel
           (mkRuntime None []) _
           (TypeError "Cannot read properties of undefined (reading 'length')")).
  - reflexivity.
  - vm_compute. reflexivity.
Defined.

(** C9 (as stated) fails: construction of [brokenModel] throws at node [p],
    the failure is logged, and the returned DepthMap holds the root region
    of [g], registered in [regionMap], with [p] among its elements. *)
Lemma failed_construction_keeps_partial_regions :
  snd (init Scenario.brokenModel (newDepthMap Scenario.brokenModel))
    = Some (TypeError "Cannot read properties of undefined (reading 'length')") /\
  console (snd (getInstance Scenario.brokenModel (mkRuntime None [])))
    = ["Starting reinizialization of DepthMap"; "Failed to initialize DepthMap"] /\
  map (fun r => (id <$> boundingRectangle r, map id (elements r)))
      (rootRegions (fst (getInstance Scenario.brokenModel (mkRuntime None []))))
    = [(Some "g", ["p"])] /\
  regionMap (fst (getInstance Scenario.brokenModel (mkRuntime None []))) !! "g"
    = Some [0%nat].
Proof.
  split; [vm_compute; reflexivity|]. split; [vm_compute; reflexivity|].
  split; vm_compute; reflexivity.
Qed.

End DepthMapFacts.

(** ** Properties of the expansion test on binary64 numbers *)

Module Binary64Facts.
Import Binary64.

(** Comparison of two numbers, neither of them NaN. *)
Lemma SFcompare_antisym a b c :
  SFcompare a b = Some c -> SFcompare b a = Some (CompOpp c).
Proof.
  destruct a as [sa|sa| |sa ma ea], b as [sb|sb| |sb mb eb]; simpl;
    try discriminate;
    try (intros [= <-]; try destruct sa; try destruct sb; reflexivity).
  intros [= <-]. f_equal.
  change (Pos.compare_cont Eq mb ma) with (Pos.compare mb ma).
  change (Pos.compare_cont Eq ma mb) with (Pos.compare ma mb).
  rewrite (Z.compare_antisym ea eb), (Pos.compare_antisym ma mb).
  destruct sa, sb; try reflexivity;
    destruct (ea ?= eb)%Z; simpl; try reflexivity;
    destruct (ma ?= mb)%positive; reflexivity.
Qed.

Lemma SFcompare_refl a : a <> S754_nan -> SFcompare a a = Some Eq.
Proof.
  destruct a as [s|s| |s m e]; simpl; intros H; try congruence.
  - destruct s; reflexivity.
  - change (Pos.compare_cont Eq m m) with (Pos.compare m m).
    rewrite Z.compare_refl, Pos.compare_refl. destruct s; reflexivity.
Qed.

Lemma geb_refl a : a <> S754_nan -> geb a a = true.
Proof. intros H. unfold geb, SFleb. rewrite (SFcompare_refl a H). reflexivity. Qed.

Lemma gtb_geb a b : gtb a b = true -> geb a b = true.
Proof. unfold gtb, geb, SFltb, SFleb. destruct (SFcompare b a) as [[]|]; congruence. Qed.

Lemma not_gtb_geb a b :
  a <> S754_nan -> b <> S754_nan -> gtb a b = false -> geb b a = true.
Proof.
  intros Ha Hb. unfold gtb, geb, SFltb, SFleb.
  destruct (SFcompare b a) as [c|] eqn:E.
  - rewrite (SFcompare_antisym _ _ _ E). destruct c; simpl; congruence.
  - destruct a, b; simpl in E; try discriminate; congruence.
Qed.

(** C5.  [getExpansionState] is [COLLAPSED] for a region that is not
    visible; otherwise [EXPANDED] for a region without bounding rectangle;
    otherwise [EXPANDED] exactly if [sizeInViewport] reaches the threshold
    or the zoom is at least 1.  [sizeInViewport] is one of the two ratios,
    of the width of the bounding rectangle to the canvas width divided by
    the zoom and of its height to the canvas height divided by the zoom,
    and unless one of them is NaN it is at least as large as both.  The
    threshold defaults to 0.2, and a visible region at zoom 1 is [EXPANDED]
    whatever the threshold. *)
Theorem getExpansionState_by_size_or_zoom dm region vp threshold :
  thresholdOf (mkRenderingOptions None) = div (integer 2) (integer 10) /\
  ((isVisible dm region vp = false /\
    getExpansionState dm region vp threshold = COLLAPSED)
   \/
   (isVisible dm region vp = true /\ boundingRectangle region = None /\
    getExpansionState dm region vp threshold = EXPANDED)
   \/
   (isVisible dm region vp = true /\
    exists br, boundingRectangle region = Some br /\
      let canvas := canvasBounds (rootElement dm) in
      let horizontal := div (width (bounds br)) (div (width canvas) (zoom vp)) in
      let vertical := div (height (bounds br)) (div (height canvas) (zoom vp)) in
      let size := sizeInViewport (rootElement dm) br vp in
      (size = horizontal \/ size = vertical) /\
      (horizontal <> S754_nan -> vertical <> S754_nan ->
       geb size horizontal = true /\ geb size vertical = true) /\
      (getExpansionState dm region vp threshold = EXPANDED <->
         geb size threshold = true \/ geb (zoom vp) (integer 1) = true)))
  /\
  (isVisible dm region vp = true -> zoom vp = integer 1 ->
   getExpansionState dm region vp threshold = EXPANDED).
Proof.
  split; [vm_compute; reflexivity|]. split.
  - unfold getExpansionState.
    destruct (isVisible dm region vp) eqn:V; cbn [negb]; [right|left; auto].
    destruct (boundingRectangle region) as [br|] eqn:B; [right|left; auto].
    split; [reflexivity|]. exists br. split; [reflexivity|]. cbv zeta.
    split; [|split].
    + unfold sizeInViewport. cbv zeta. destruct (gtb _ _); auto.
    + unfold sizeInViewport. cbv zeta.
      set (horizontal := div (width (bounds br)) _).
      set (vertical := div (height (bounds br)) _).
      intros Hh Hv. destruct (gtb horizontal vertical) eqn:G.
      * split; [apply geb_refl; assumption | apply gtb_geb; assumption].
      * split; [apply not_gtb_geb; assumption | apply geb_refl; assumption].
    + destruct (geb (sizeInViewport (rootElement dm) br vp) threshold);
        destruct (geb (zoom vp) (integer 1)); cbn [orb];
        (split; [auto; discriminate | intros [H|H]; (reflexivity || discriminate)]).
  - intros V Z. unfold getExpansionState. rewrite V, Z. cbn [negb].
    destruct (boundingRectangle region) as [br|]; [|reflexivity].
    replace (geb (integer 1) (integer 1)) with true by (vm_compute; reflexivity).
    by rewrite orb_true_r.
Qed.

(** Below zoom 1 a region on a canvas without extent is [EXPANDED]: its
    size in the viewport is infinite. *)
Example region_on_empty_canvas_is_expanded :
  sizeInViewport (rootElement (canvas (integer 0) (integer 0)))
    (mkKNode (mkBounds (integer 0) (integer 0) (integer 100) (integer 50)))
    (zoomed (div (integer 1) (integer 2)))
  = S754_infinity false /\
  getExpansionState (canvas (integer 0) (integer 0)) (sized (integer 100) (integer 50))
    (zoomed (div (integer 1) (integer 2))) defaultThreshold = EXPANDED.
Proof. split; vm_compute; reflexivity. Qed.

(** A region 960 wide on a canvas 1440 wide is [EXPANDED] at zoom 0.3 with
    the default threshold: the rounded quotients give 0.2 itself. *)
Example region_at_the_threshold_is_expanded :
  sizeInViewport (rootElement (canvas (integer 1440) (integer 900)))
    (mkKNode (mkBounds (integer 0) (integer 0) (integer 960) (integer 100)))
    (zoomed (div (integer 3) (integer 10)))
  = defaultThreshold /\
  getExpansionState (canvas (integer 1440) (integer 900))
    (sized (integer 960) (integer 100))
    (zoomed (div (integer 3) (integer 10))) defaultThreshold = EXPANDED.
Proof. split; vm_compute; reflexivity. Qed.

End Binary64Facts.

(** ** Properties of the layered-constraint resolver *)

Module LayeredFacts.
Import LayeredConstraints.

Local Open Scope Q_scope.

(** *** Sorting and positions *)

Lemma length_insertSorted before n sorted :
  length (insertSorted before n sorted) = S (length sorted).
Proof.
  induction sorted as [|m rest IH]; simpl; [reflexivity|].
  destruct (before n m); simpl; [reflexivity | by rewrite IH].
Qed.

Lemma length_stableSort before nodes :
  length (stableSort before nodes) = length nodes.
Proof.
  unfold stableSort.
  assert (H : forall acc, length (fold_left (fun sorted n => insertSorted before n sorted)
                                    nodes acc) = (length acc + length nodes)%nat).
  { induction nodes as [|n nodes IH]; intros acc; simpl; [lia|].
    rewrite IH, length_insertSorted. lia. }
  by rewrite H.
Qed.

Lemma indexOf_bounds nodes target i :
  indexOf nodes target = Some i -> (0 <= i < Z.of_nat (length nodes))%Z.
Proof.
  revert i. induction nodes as [|n rest IH]; intros i; simpl; [discriminate|].
  destruct (sameNode n target).
  - intros [= <-]. lia.
  - destruct (indexOf rest target) as [j|]; [|discriminate].
    intros [= <-]. specialize (IH j eq_refl). lia.
Qed.

Lemma firstBeyond_bounds direction nodes target i :
  (i <= firstBeyond direction nodes target i <= i + Z.of_nat (length nodes))%Z.
Proof.
  revert i. induction nodes as [|n rest IH]; intros i; simpl; [lia|].
  destruct (Qltb _ _); [lia|]. specialize (IH (i + 1)%Z). lia.
Qed.

(** The position [getPositionInLayer] returns is an index into the sorted
    layer, or its length. *)
Lemma getPositionInLayer_bounds nodes target direction :
  (0 <= snd (getPositionInLayer nodes target direction)
     <= Z.of_nat (length (fst (getPositionInLayer nodes target direction))))%Z.
Proof.
  unfold getPositionInLayer.
  destruct (indexOf _ target) as [i|] eqn:E; simpl.
  - apply indexOf_bounds in E. lia.
  - pose proof (firstBeyond_bounds direction
                  (stableSort (fun a b => Qltb (crossCoordinate direction a)
                                               (crossCoordinate direction b)) nodes)
                  target 0). lia.
Qed.

Lemma getActualTargetIndex_defined targetIndex alreadyInLayer layerNodes :
  (0 <= targetIndex <= Z.of_nat (length layerNodes))%Z ->
  exists index, getActualTargetIndex targetIndex alreadyInLayer layerNodes = Some index.
Proof.
  intros Hb. unfold getActualTargetIndex.
  destruct (targetIndex >? 0)%Z eqn:E; [|eauto].
  destruct (nth_error layerNodes (Z.to_nat (targetIndex - 1))) as [u|] eqn:N.
  - destruct (positionConstraint (properties u) >? targetIndex - 1)%Z; [|eauto].
    destruct (alreadyInLayer && _); eauto.
  - apply nth_error_None in N. lia.
Qed.

(** *** The decision of [setProperty] *)

(** C7.  If the layer resolved for the drop position of the target is its
    current [layerId] and the position resolved in that layer is its
    current [positionId], [setProperty] returns [RefreshDiagramAction], and
    so no constraint action. *)
Theorem setProperty_unchanged_refreshes h nodes layers target layerOfTarget :
  getLayerOfNode target nodes layers (direction target) = Some layerOfTarget ->
  layerOfTarget = layerId (properties target) ->
  snd (getPositionInLayer (getNodesOfLayer layerOfTarget nodes) target (direction target))
    = positionId (properties target) ->
  setProperty h nodes layers target = Some RefreshDiagramAction.
Proof.
  intros Hlayer Hsame Hpos. unfold setProperty. rewrite Hlayer.
  pose proof (getPositionInLayer_bounds (getNodesOfLayer layerOfTarget nodes) target
                (direction target)) as Hb.
  destruct (getPositionInLayer _ target (direction target)) as [sorted pos].
  simpl in Hpos, Hb.
  destruct (getActualTargetIndex_defined pos
              (match indexOf sorted target with Some _ => true | None => false end)
              sorted Hb) as [index ->].
  destruct (isLayerForbidden h target _); [reflexivity|].
  assert ((layerId (properties target) =? layerOfTarget)%Z = true) as ->
    by (apply Z.eqb_eq; congruence).
  assert ((positionId (properties target) =? pos)%Z = true) as ->
    by (apply Z.eqb_eq; congruence).
  reflexivity.
Qed.

(** The theorem applied to node [a] released where it rests. *)
Lemma setProperty_unchanged_refreshes_witness :
  setProperty (Drag.host [Drag.aAtRest; Drag.b]) [Drag.aAtRest; Drag.b]
    (snd (getLayers [Drag.aAtRest; Drag.b] RIGHT)) Drag.aAtRest
  = Some RefreshDiagramAction.
Proof.
  apply (setProperty_unchanged_refreshes _ _ _ _ 0%Z);
    vm_compute; reflexivity.
Defined.

(** A connected node that is pinned ([layerConstraint] other than [-1]) and
    lies in [layer] makes [layer] forbidden. *)
Lemma isLayerForbidden_pinned h node layer n :
  n ∈ connectedNodes
        (getChain h node
           (getNodesOfLayer (layerId (properties node))
              (filterKNodes h (parentChildren h node)))) ->
  layerId (endProperties n) = layer ->
  layerConstraint (endProperties n) <> (-1)%Z ->
  isLayerForbidden h node layer = true.
Proof.
  intros Hin Hl Hc. unfold isLayerForbidden. apply existsb_exists.
  exists n. split; [by apply list_elem_of_In|].
  apply andb_true_iff. split; [by apply Z.eqb_eq|].
  apply negb_true_iff. by apply Z.eqb_neq.
Qed.

(** Without a node at or before [layerCandidate] whose layer constraint
    exceeds its [layerId], [getActualLayer] returns [layerCandidate]. *)
Lemma getActualLayer_unboosted node nodes layerCandidate :
  (forall n, n ∈ nodes ->
     (layerId (properties n) <= layerCandidate)%Z ->
     (layerConstraint (properties n) <= layerId (properties n))%Z) ->
  getActualLayer node nodes layerCandidate = layerCandidate.
Proof.
  intros Hno. unfold getActualLayer.
  destruct (List.filter _ nodes) as [|n rest] eqn:E; [reflexivity|].
  assert (Hin : In n (List.filter
                        (fun n => (layerId (properties n) <=? layerCandidate)%Z
                                  && (layerConstraint (properties n)
                                        >? layerId (properties n))%Z) nodes))
    by (rewrite E; left; reflexivity).
  apply filter_In in Hin as [Hin Hb]. apply andb_true_iff in Hb as [H1 H2].
  apply Z.leb_le in H1. apply Z.gtb_lt in H2.
  apply list_elem_of_In in Hin. specialize (Hno n Hin H1). lia.
Qed.

(** If some node connected by an incoming or outgoing edge to the dragged
    node's chain is pinned and lies in the layer that [getActualLayer] makes
    of the layer [L] the node is dropped into, then [setProperty] returns
    [RefreshDiagramAction].  That layer is [L] itself where no node at or
    before [L] carries a layer constraint above its [layerId]. *)
Lemma setProperty_forbidden_layer_refreshes h nodes layers target L n :
  getLayerOfNode target nodes layers (direction target) = Some L ->
  n ∈ connectedNodes
        (getChain h target
           (getNodesOfLayer (layerId (properties target))
              (filterKNodes h (parentChildren h target)))) ->
  layerConstraint (endProperties n) <> (-1)%Z ->
  layerId (endProperties n) = getActualLayer target nodes L ->
  setProperty h nodes layers target = Some RefreshDiagramAction /\
  ((forall m, m ∈ nodes -> (layerId (properties m) <= L)%Z ->
      (layerConstraint (properties m) <= layerId (properties m))%Z) ->
   getActualLayer target nodes L = L).
Proof.
  intros Hlayer Hin Hpin Hat. split; [|apply getActualLayer_unboosted].
  unfold setProperty. rewrite Hlayer.
  pose proof (getPositionInLayer_bounds (getNodesOfLayer L nodes) target
                (direction target)) as Hb.
  destruct (getPositionInLayer _ target (direction target)) as [sorted pos].
  simpl in Hb.
  destruct (getActualTargetIndex_defined pos
              (match indexOf sorted target with Some _ => true | None => false end)
              sorted Hb) as [index ->].
  by rewrite (isLayerForbidden_pinned h target _ n Hin Hat Hpin).
Qed.

(** With [b] pinned by the constraint of the layer it is in, dropping [a]
    into that layer is refused. *)
Example drop_beside_node_pinned_in_place :
  setProperty (Drag.host [Drag.aBelowInPlace; Drag.bInPlace])
    [Drag.aBelowInPlace; Drag.bInPlace]
    (snd (getLayers [Drag.aBelowInPlace; Drag.bInPlace] RIGHT)) Drag.aBelowInPlace
  = Some RefreshDiagramAction.
Proof. vm_compute. reflexivity. Qed.

(** C8 fails on the code.  [b] is connected to [a] by an edge and pinned,
    and lies in layer 1; [isLayerForbidden] says that layer 1 is forbidden
    for [a].  [a] is dropped into layer 1, yet [setProperty] returns a
    [SetStaticConstraintAction] (dropped below [b]) or a
    [SetLayerConstraintAction] (dropped above the layers) that places [a]
    in layer 1: it asks [isLayerForbidden] about 5, the value
    [getActualLayer] makes of layer 1, and no connected node lies in a
    layer 5.  The same happens where [b] carries the constraint of the
    layer it is in and another node of that layer, [cBeyond], a constraint
    beyond it. *)
Theorem forbidden_layer_missed_after_boost :
  Drag.bEnd ∈ connectedNodes [Drag.aBelow] /\
  layerId (endProperties Drag.bEnd) = 1%Z /\
  layerConstraint (endProperties Drag.bEnd) = 5%Z /\
  getLayerOfNode Drag.aBelow [Drag.aBelow; Drag.b]
    (snd (getLayers [Drag.aBelow; Drag.b] RIGHT)) RIGHT = Some 1%Z /\
  isLayerForbidden (Drag.host [Drag.aBelow; Drag.b]) Drag.aBelow 1 = true /\
  getActualLayer Drag.aBelow [Drag.aBelow; Drag.b] 1 = 5%Z /\
  setProperty (Drag.host [Drag.aBelow; Drag.b]) [Drag.aBelow; Drag.b]
    (snd (getLayers [Drag.aBelow; Drag.b] RIGHT)) Drag.aBelow
  = Some (SetStaticConstraintAction "a" 1 5 1 1) /\
  setProperty (Drag.host [Drag.aAbove; Drag.b]) [Drag.aAbove; Drag.b]
    (snd (getLayers [Drag.aAbove; Drag.b] RIGHT)) Drag.aAbove
  = Some (SetLayerConstraintAction "a" 1 5) /\
  Drag.bEndInPlace ∈ connectedNodes [Drag.aBelowInPlace] /\
  layerId (endProperties Drag.bEndInPlace) = 1%Z /\
  layerConstraint (endProperties Drag.bEndInPlace) = 1%Z /\
  getLayerOfNode Drag.aBelowInPlace [Drag.aBelowInPlace; Drag.bInPlace; Drag.cBeyond]
    (snd (getLayers [Drag.aBelowInPlace; Drag.bInPlace; Drag.cBeyond] RIGHT)) RIGHT
  = Some 1%Z /\
  setProperty (Drag.host [Drag.aBelowInPlace; Drag.bInPlace; Drag.cBeyond])
    [Drag.aBelowInPlace; Drag.bInPlace; Drag.cBeyond]
    (snd (getLayers [Drag.aBelowInPlace; Drag.bInPlace; Drag.cBeyond] RIGHT))
    Drag.aBelowInPlace
  = Some (SetStaticConstraintAction "a" 1 3 1 1).
Proof.
  split; [vm_compute; left|].
  split; [reflexivity|]. split; [reflexivity|].
  split; [vm_compute; reflexivity|]. split; [vm_compute; reflexivity|].
  split; [vm_compute; reflexivity|]. split; [vm_compute; reflexivity|].
  split; [vm_compute; reflexivity|].
  split; [vm_compute; left|].
  split; [reflexivity|]. split; [reflexivity|].
  split; vm_compute; reflexivity.
Qed.

(** *** Layer assignment *)

Lemma find_first {A} (f : A -> bool) pre x post :
  Forall (fun y => f y = false) pre -> f x = true ->
  List.find f (pre ++ x :: post) = Some x.
Proof.
  induction 1 as [|y pre Hy _ IH]; intros Hx; simpl.
  - by rewrite Hx.
  - rewrite Hy. by apply IH.
Qed.


Lemma reaches_iff d c l :
  reaches d c l = true <->
  (ascending d = true /\ c < Layer.end_ l) \/ (ascending d = false /\ Layer.end_ l < c).
Proof.
  unfold reaches. rewrite <- Qltb_lt, <- Qgtb_gt.
  destruct (ascending d), (Qltb c (Layer.end_ l)), (Qgtb c (Layer.end_ l)); simpl;
    intuition discriminate.
Qed.




(** *** Shadow coordinates *)

Lemma insertSorted_map before (g : KNode -> KNode) n sorted :
  (forall a b, before (g a) (g b) = before a b) ->
  insertSorted before (g n) (map g sorted) = map g (insertSorted before n sorted).
Proof.
  intros Hg. induction sorted as [|m rest IH]; simpl; [reflexivity|].
  rewrite Hg. destruct (before n m); simpl; [reflexivity | by rewrite IH].
Qed.

Lemma stableSort_map before (g : KNode -> KNode) nodes :
  (forall a b, before (g a) (g b) = before a b) ->
  stableSort before (map g nodes) = map g (stableSort before nodes).
Proof.
  intros Hg. unfold stableSort.
  assert (H : forall acc,
            fold_left (fun sorted n => insertSorted before n sorted) (map g nodes)
              (map g acc)
            = map g (fold_left (fun sorted n => insertSorted before n sorted) nodes acc)).
  { induction nodes as [|n nodes IH]; intros acc; simpl; [reflexivity|].
    rewrite insertSorted_map by exact Hg. apply IH. }
  exact (H []).
Qed.

Lemma fold_scanNode_map d (g : KNode -> KNode) nodes :
  (forall st n, scanNode d st (g n) = scanNode d st n) ->
  forall st, fold_left (scanNode d) (map g nodes) st = fold_left (scanNode d) nodes st.
Proof.
  intros Hg. induction nodes as [|n nodes IH]; intros st; simpl; [reflexivity|].
  by rewrite Hg, IH.
Qed.

(** [getLayers] reads the committed position of no node whose shadow flag
    is set. *)
Lemma getLayers_shadowed nodes d (moved : KNode -> Point) :
  snd (getLayers (map (fun n => if shadow n then withPosition (moved n) n else n) nodes) d)
  = snd (getLayers nodes d).
Proof.
  unfold getLayers. cbn [snd].
  rewrite stableSort_map by (intros a b; destruct (shadow a), (shadow b); reflexivity).
  rewrite fold_scanNode_map; [reflexivity|].
  intros st n. destruct (shadow n) eqn:E; [|reflexivity].
  unfold scanNode, nodeExtent. simpl. rewrite E. reflexivity.
Qed.

(** [getLayers] places a node whose shadow flag is set where its shadow
    coordinates put it. *)
Lemma getLayers_dropped nodes d :
  snd (getLayers (map dropped nodes) d) = snd (getLayers nodes d).
Proof.
  unfold getLayers. cbn [snd].
  rewrite stableSort_map
    by (intros a b; unfold dropped; destruct (shadow a), (shadow b); reflexivity).
  rewrite fold_scanNode_map; [reflexivity|].
  intros st n. unfold dropped. destruct (shadow n) eqn:E; [|reflexivity].
  unfold scanNode, nodeExtent. simpl. rewrite E. reflexivity.
Qed.

Lemma indexOf_withShadow flag sx sy nodes target :
  indexOf nodes (withShadow flag sx sy target) = indexOf nodes target.
Proof.
  induction nodes as [|n rest IH]; simpl; [reflexivity|].
  rewrite IH. reflexivity.
Qed.

Lemma firstBeyond_withShadow d flag sx sy nodes target i :
  firstBeyond d nodes (withShadow flag sx sy target) i = firstBeyond d nodes target i.
Proof.
  revert i. induction nodes as [|n rest IH]; intros i; simpl; [reflexivity|].
  rewrite IH. reflexivity.
Qed.

(** C4 (amended).  Of the functions of the resolver only [getLayers], which
    computes the bounds of the layers, evaluates a node whose shadow flag is
    set at [shadowX]/[shadowY]: its layers are those of the nodes with every
    such node dropped at its shadow coordinates, and they do not depend on
    the committed position of such a node.  [getLayerOfNode] and
    [getPositionInLayer] evaluate the target at [position] and read none of
    its shadow fields, whether the flag is set or not. *)
Theorem shadow_coordinates_read_by_getLayers_only :
  (forall nodes d,
     snd (getLayers (map dropped nodes) d) = snd (getLayers nodes d)) /\
  (forall nodes d (moved : KNode -> Point),
     snd (getLayers
            (map (fun n => if shadow n then withPosition (moved n) n else n) nodes) d)
     = snd (getLayers nodes d)) /\
  (forall target nodes layers d flag sx sy,
     getLayerOfNode (withShadow flag sx sy target) nodes layers d
     = getLayerOfNode target nodes layers d) /\
  (forall nodes target d flag sx sy,
     getPositionInLayer nodes (withShadow flag sx sy target) d
     = getPositionInLayer nodes target d).
Proof.
  split; [apply getLayers_dropped|].
  split; [apply getLayers_shadowed|]. split; [reflexivity|].
  intros nodes target d flag sx sy. unfold getPositionInLayer.
  rewrite indexOf_withShadow, firstBeyond_withShadow. reflexivity.
Qed.

(** C4 (as stated) fails: the targets below have their shadow flag set, yet
    [getLayerOfNode] and [getPositionInLayer] resolve them where [position]
    puts them (layer 0, position 0) and not where their shadow coordinates
    would (layer 1, position 2). *)
Lemma shadowed_target_resolved_at_position :
  shadow Drag.shadowAhead = true /\
  getLayerOfNode Drag.shadowAhead (Drag.level Drag.shadowAhead) Drag.threeLayers RIGHT
    = Some 0%Z /\
  getLayerOfNode (Drag.atShadow Drag.shadowAhead) (Drag.level Drag.shadowAhead)
    Drag.threeLayers RIGHT = Some 1%Z /\
  shadow Drag.shadowBelow = true /\
  snd (getPositionInLayer [Drag.inLayer2; Drag.otherInLayer2] Drag.shadowBelow RIGHT)
    = 0%Z /\
  snd (getPositionInLayer [Drag.inLayer2; Drag.otherInLayer2]
         (Drag.atShadow Drag.shadowBelow) RIGHT) = 2%Z.
Proof.
  split; [reflexivity|]. split; [vm_compute; reflexivity|].
  split; [vm_compute; reflexivity|]. split; [reflexivity|].
  split; vm_compute; reflexivity.
Qed.

End LayeredFacts.

(** ** Further properties of the layered-constraint resolver *)

Module LayeredMore.
Import LayeredConstraints.

Local Open Scope Q_scope.

(** *** [Array.prototype.sort] *)

Section SortFacts.
Context (before : KNode -> KNode -> bool).
Context (asym : forall a b, before a b = true -> before b a = false).
Context (le_trans : forall a b c,
           before b a = false -> before c b = false -> before c a = false).

Lemma insertSorted_perm n sorted : Permutation (n :: sorted) (insertSorted before n sorted).
Proof.
  induction sorted as [|m rest IH]; simpl; [reflexivity|].
  destruct (before n m); [reflexivity|].
  etransitivity; [apply perm_swap|]. by apply perm_skip.
Qed.

Lemma stableSort_perm nodes : Permutation nodes (stableSort before nodes).
Proof.
  unfold stableSort.
  assert (H : forall acc, Permutation (acc ++ nodes)
                (fold_left (fun sorted n => insertSorted before n sorted) nodes acc)).
  { induction nodes as [|n nodes IH]; intros acc; simpl; [by rewrite app_nil_r|].
    etransitivity; [|apply IH].
    etransitivity; [symmetry; apply Permutation_middle|].
    change (n :: acc ++ nodes) with ((n :: acc) ++ nodes).
    apply Permutation_app_tail, insertSorted_perm. }
  exact (H []).
Qed.

Lemma insertSorted_sorted n sorted :
  StronglySorted (fun a b => before b a = false) sorted ->
  StronglySorted (fun a b => before b a = false) (insertSorted before n sorted).
Proof.
  induction 1 as [|m rest Hrest IH Hm]; simpl; [repeat constructor|].
  destruct (before n m) eqn:E.
  - constructor; [by constructor|]. constructor; [by apply asym|].
    eapply Forall_impl; [exact Hm|]. intros x Hx. simpl in Hx.
    eapply le_trans; [|exact Hx]. by apply asym.
  - constructor; [exact IH|].
    apply (Permutation_Forall (insertSorted_perm n rest)). by constructor.
Qed.

Lemma stableSort_sorted nodes :
  StronglySorted (fun a b => before b a = false) (stableSort before nodes).
Proof.
  unfold stableSort.
  assert (H : forall acc, StronglySorted (fun a b => before b a = false) acc ->
            StronglySorted (fun a b => before b a = false)
              (fold_left (fun sorted n => insertSorted before n sorted) nodes acc)).
  { induction nodes as [|n nodes IH]; intros acc Hacc; simpl; [exact Hacc|].
    by apply IH, insertSorted_sorted. }
  apply H. constructor.
Qed.

(** Nodes that the comparison does not tell apart keep their order. *)
Lemma insertSorted_stable (P : KNode -> bool) n sorted :
  (forall a b, P a = true -> P b = true -> before a b = false) ->
  StronglySorted (fun a b => before b a = false) sorted ->
  List.filter P (insertSorted before n sorted)
  = List.filter P sorted ++ (if P n then [n] else []).
Proof.
  intros Hsame. induction 1 as [|m rest Hrest IH Hm]; simpl; [by destruct (P n)|].
  destruct (before n m) eqn:E.
  - destruct (P n) eqn:Pn; [|simpl; rewrite Pn; by rewrite app_nil_r].
    assert (Hnone : List.filter P (m :: rest) = []).
    { assert (Hall : Forall (fun x => P x = false) (m :: rest)).
      { constructor.
        - destruct (P m) eqn:Pm; [|reflexivity].
          rewrite (Hsame n m Pn Pm) in E. discriminate.
        - eapply Forall_impl; [exact Hm|]. intros x Hx. simpl in Hx.
          destruct (P x) eqn:Px; [|reflexivity].
          pose proof (le_trans m x n Hx (Hsame n x Pn Px)) as Hc.
          rewrite Hc in E. discriminate. }
      clear - Hall. induction Hall as [|x l Hx _ IHl]; simpl; [reflexivity|].
      by rewrite Hx. }
    simpl in Hnone. simpl. rewrite Pn. rewrite Hnone. reflexivity.
  - simpl. destruct (P m); simpl; by rewrite IH.
Qed.

Lemma stableSort_stable (P : KNode -> bool) nodes :
  (forall a b, P a = true -> P b = true -> before a b = false) ->
  List.filter P (stableSort before nodes) = List.filter P nodes.
Proof.
  intros Hsame. unfold stableSort.
  assert (H : forall acc, StronglySorted (fun a b => before b a = false) acc ->
            List.filter P (fold_left (fun sorted n => insertSorted before n sorted) nodes acc)
            = List.filter P acc ++ List.filter P nodes).
  { induction nodes as [|n nodes IH]; intros acc Hacc; simpl; [by rewrite app_nil_r|].
    rewrite IH by (by apply insertSorted_sorted).
    rewrite insertSorted_stable by assumption.
    rewrite <- app_assoc. by destruct (P n). }
  apply (H []). constructor.
Qed.

End SortFacts.

(** *** [getPositionInLayer] *)

Lemma Qltb_asym a b : Qltb a b = true -> Qltb b a = false.
Proof.
  intros H. apply Qltb_lt in H. destruct (Qltb b a) eqn:E; [|reflexivity].
  apply Qltb_lt in E. exfalso. exact (Qlt_irrefl _ (Qlt_trans _ _ _ H E)).
Qed.

Lemma Qltb_false a b : Qltb a b = false <-> b <= a.
Proof.
  unfold Qltb. rewrite negb_false_iff. apply Qle_bool_iff.
Qed.

Lemma Qltb_le_trans a b c : Qltb b a = false -> Qltb c b = false -> Qltb c a = false.
Proof. rewrite !Qltb_false. intros H1 H2. by eapply Qle_trans. Qed.

Lemma StronglySorted_weaken {A} (R R' : A -> A -> Prop) l :
  (forall a b, R a b -> R' a b) -> StronglySorted R l -> StronglySorted R' l.
Proof.
  intros HR. induction 1 as [|a l Hl IH Ha]; constructor; [exact IH|].
  eapply Forall_impl; [exact Ha|]. intros b. apply HR.
Qed.

Lemma filter_length_perm {A} (P : A -> bool) l l' :
  Permutation l l' -> length (List.filter P l) = length (List.filter P l').
Proof.
  induction 1 as [|a l l' _ IH|a b l|l l' l'' _ IH1 _ IH2]; simpl.
  - reflexivity.
  - destruct (P a); simpl; by rewrite IH.
  - destruct (P a), (P b); reflexivity.
  - by rewrite IH1.
Qed.

Local Abbreviation sortedAcross d nodes :=
  (stableSort (fun a b => Qltb (crossCoordinate d a) (crossCoordinate d b)) nodes).

Lemma getPositionInLayer_fst nodes target d :
  fst (getPositionInLayer nodes target d) = sortedAcross d nodes.
Proof.
  unfold getPositionInLayer. by destruct (indexOf _ target).
Qed.

Lemma sortedAcross_sorted d nodes :
  StronglySorted (fun a b => crossCoordinate d a <= crossCoordinate d b)
    (sortedAcross d nodes).
Proof.
  eapply StronglySorted_weaken; [|apply stableSort_sorted].
  - intros a b H. by apply Qltb_false.
  - intros a b. apply Qltb_asym.
  - intros a b c. apply Qltb_le_trans.
Qed.

(** X1.  [getPositionInLayer] leaves the array it is given sorted by the
    coordinate across the layer (y for UNDEFINED, LEFT and RIGHT, x for UP
    and DOWN): the same nodes, in ascending order of that coordinate, nodes
    with equal coordinate in the order they had. *)
Theorem getPositionInLayer_sorts_layer nodes target d :
  Permutation nodes (fst (getPositionInLayer nodes target d)) /\
  StronglySorted (fun a b => crossCoordinate d a <= crossCoordinate d b)
    (fst (getPositionInLayer nodes target d)) /\
  (forall c,
     List.filter (fun n => Qeq_bool (crossCoordinate d n) c)
       (fst (getPositionInLayer nodes target d))
     = List.filter (fun n => Qeq_bool (crossCoordinate d n) c) nodes).
Proof.
  rewrite getPositionInLayer_fst. split; [apply stableSort_perm|].
  split; [apply sortedAcross_sorted|].
  intros c. apply stableSort_stable.
  - intros a b. apply Qltb_asym.
  - intros a b e. apply Qltb_le_trans.
  - intros a b Ha Hb. apply Qeq_bool_iff in Ha, Hb.
    apply Qltb_false. rewrite Ha, Hb. apply Qle_refl.
Qed.

Lemma indexOf_absent nodes target :
  Forall (fun n => id n <> id target) nodes -> indexOf nodes target = None.
Proof.
  induction 1 as [|n rest Hn _ IH]; simpl; [reflexivity|].
  unfold sameNode. destruct (String.eqb_spec (id n) (id target)); [done|].
  by rewrite IH.
Qed.

Lemma firstBeyond_count d nodes target :
  StronglySorted (fun a b => crossCoordinate d a <= crossCoordinate d b) nodes ->
  forall i,
    firstBeyond d nodes target i =
    (i + Z.of_nat (length (List.filter
                             (fun n => Qle_bool (crossCoordinate d n)
                                         (crossCoordinate d target)) nodes)))%Z.
Proof.
  induction 1 as [|n rest Hrest IH Hn]; intros i; simpl; [lia|].
  destruct (Qltb (crossCoordinate d target) (crossCoordinate d n)) eqn:E.
  - apply Qltb_lt in E.
    assert (Hn' : Qle_bool (crossCoordinate d n) (crossCoordinate d target) = false).
    { destruct (Qle_bool _ _) eqn:L; [|reflexivity].
      apply Qle_bool_iff in L. exfalso. exact (Qlt_not_le _ _ E L). }
    rewrite Hn'.
    assert (Hnone : List.filter
                      (fun n => Qle_bool (crossCoordinate d n) (crossCoordinate d target))
                      rest = []).
    { clear - Hn E. induction Hn as [|x l Hx _ IHl]; simpl; [reflexivity|].
      destruct (Qle_bool (crossCoordinate d x) (crossCoordinate d target)) eqn:L;
        [|exact IHl].
      apply Qle_bool_iff in L. exfalso.
      exact (Qlt_not_le _ _ E (Qle_trans _ _ _ Hx L)). }
    rewrite Hnone. simpl. lia.
  - apply Qltb_false in E. apply Qle_bool_iff in E. rewrite E. simpl.
    rewrite IH. lia.
Qed.

(** X2.  For a target that is not in the layer, [getPositionInLayer] returns
    the number of nodes of the layer that do not lie beyond the target
    (whose coordinate across the layer is at most the target's): the target
    goes behind all of them, also behind those at its own coordinate. *)
Theorem getPositionInLayer_of_newcomer nodes target d :
  Forall (fun n => id n <> id target) nodes ->
  snd (getPositionInLayer nodes target d) =
  Z.of_nat (length (List.filter
                      (fun n => Qle_bool (crossCoordinate d n) (crossCoordinate d target))
                      nodes)).
Proof.
  intros Habsent. unfold getPositionInLayer.
  assert (Hperm : Permutation nodes (sortedAcross d nodes)) by apply stableSort_perm.
  rewrite indexOf_absent by (by apply (Permutation_Forall Hperm)).
  simpl. rewrite firstBeyond_count by apply sortedAcross_sorted.
  by rewrite <- (filter_length_perm _ _ _ Hperm).
Qed.

Lemma getPositionInLayer_of_newcomer_witness :
  snd (getPositionInLayer [Drag.inLayer2; Drag.otherInLayer2] Drag.shadowBelow RIGHT) =
  Z.of_nat (length (List.filter
                      (fun n => Qle_bool (crossCoordinate RIGHT n)
                                  (crossCoordinate RIGHT Drag.shadowBelow))
                      [Drag.inLayer2; Drag.otherInLayer2])).
Proof.
  apply getPositionInLayer_of_newcomer.
  repeat constructor; discriminate.
Defined.

Lemma indexOf_found nodes target i :
  indexOf nodes target = Some i ->
  (0 <= i)%Z /\
  exists n, nodes !! Z.to_nat i = Some n /\ id n = id target /\
    forall j m, (j < Z.to_nat i)%nat -> nodes !! j = Some m -> id m <> id target.
Proof.
  revert i. induction nodes as [|n rest IH]; intros i; simpl; [discriminate|].
  unfold sameNode. destruct (String.eqb_spec (id n) (id target)) as [Heq|Hne].
  - intros [= <-]. split; [lia|]. exists n. split; [reflexivity|]. split; [exact Heq|].
    intros j m Hj. simpl in Hj. lia.
  - destruct (indexOf rest target) as [k|]; [|discriminate].
    intros [= <-]. destruct (IH k eq_refl) as (Hk & m & Hm & Hid & Hfirst).
    split; [lia|]. exists m.
    replace (Z.to_nat (k + 1)) with (S (Z.to_nat k)) by lia.
    split; [exact Hm|]. split; [exact Hid|].
    intros j m' Hj Hm'. destruct j as [|j]; simpl in Hm'.
    + by injection Hm' as <-.
    + apply (Hfirst j m'); [lia | exact Hm'].
Qed.

Lemma indexOf_present nodes target :
  Exists (fun n => id n = id target) nodes -> exists i, indexOf nodes target = Some i.
Proof.
  induction 1 as [n rest Hn|n rest _ IH]; simpl; unfold sameNode.
  - rewrite Hn, String.eqb_refl. eauto.
  - destruct (String.eqb (id n) (id target)); [eauto|].
    destruct IH as [i ->]. eauto.
Qed.

(** X3.  For a target that is in the layer, [getPositionInLayer] returns its
    index in the sorted layer, whatever the position of the object passed as
    target: the node at the returned index is the target, and no node
    before it is. *)
Theorem getPositionInLayer_of_member nodes target d :
  Exists (fun n => id n = id target) nodes ->
  let sorted := fst (getPositionInLayer nodes target d) in
  let pos := snd (getPositionInLayer nodes target d) in
  (0 <= pos < Z.of_nat (length nodes))%Z /\
  exists n, sorted !! Z.to_nat pos = Some n /\ id n = id target /\
    forall j m, (j < Z.to_nat pos)%nat -> sorted !! j = Some m -> id m <> id target.
Proof.
  intros Hin. cbv zeta. unfold getPositionInLayer.
  assert (Hperm : Permutation nodes (sortedAcross d nodes)) by apply stableSort_perm.
  destruct (indexOf_present (sortedAcross d nodes) target) as [i Hi].
  { apply Exists_exists. apply Exists_exists in Hin as (n & Hn & Hid).
    exists n. split; [|exact Hid]. by rewrite <- Hperm. }
  rewrite Hi. simpl. destruct (indexOf_found _ _ _ Hi) as (H0 & n & Hn & Hid & Hfirst).
  split; [|by exists n].
  split; [exact H0|]. apply lookup_lt_Some in Hn.
  rewrite <- (Permutation_length Hperm) in Hn. lia.
Qed.

Lemma getPositionInLayer_of_member_witness :
  let sorted := fst (getPositionInLayer [Drag.otherInLayer2; Drag.inLayer2]
                       Drag.inLayer2 RIGHT) in
  let pos := snd (getPositionInLayer [Drag.otherInLayer2; Drag.inLayer2]
                    Drag.inLayer2 RIGHT) in
  (0 <= pos < Z.of_nat (length [Drag.otherInLayer2; Drag.inLayer2]))%Z /\
  exists n, sorted !! Z.to_nat pos = Some n /\ id n = id Drag.inLayer2 /\
    forall j m, (j < Z.to_nat pos)%nat -> sorted !! j = Some m -> id m <> id Drag.inLayer2.
Proof.
  apply getPositionInLayer_of_member.
  apply Exists_cons_tl, Exists_cons_hd. reflexivity.
Defined.

(** *** [getActualTargetIndex], [getActualLayer], [getLayerOfNode] *)

Lemma getActualTargetIndex_ge targetIndex alreadyInLayer layerNodes index :
  getActualTargetIndex targetIndex alreadyInLayer layerNodes = Some index ->
  (targetIndex <= index)%Z.
Proof.
  unfold getActualTargetIndex. destruct (targetIndex >? 0)%Z; [|intros [= <-]; lia].
  destruct (nth_error layerNodes _) as [u|]; [|discriminate].
  destruct (Z.gtb_spec (positionConstraint (properties u)) (targetIndex - 1));
    [|intros [= <-]; lia].
  destruct (alreadyInLayer && _); intros [= <-]; lia.
Qed.

(** X4.  [getActualTargetIndex] never returns less than the index it is
    given, and returns that index itself where it is not positive.  It
    throws exactly if the index is positive and there is no node at the
    index before it. *)
Theorem getActualTargetIndex_range targetIndex alreadyInLayer layerNodes :
  match getActualTargetIndex targetIndex alreadyInLayer layerNodes with
  | Some index =>
      (targetIndex <= index)%Z /\
      (targetIndex <= Z.of_nat (length layerNodes))%Z /\
      ((targetIndex <=? 0)%Z = true -> index = targetIndex)
  | None => (0 < targetIndex)%Z /\ (Z.of_nat (length layerNodes) < targetIndex)%Z
  end.
Proof.
  unfold getActualTargetIndex.
  destruct (targetIndex >? 0)%Z eqn:E.
  - apply Z.gtb_lt in E.
    destruct (nth_error layerNodes (Z.to_nat (targetIndex - 1))) as [u|] eqn:N.
    + assert (Hlen : (targetIndex <= Z.of_nat (length layerNodes))%Z).
      { assert (Z.to_nat (targetIndex - 1) < length layerNodes)%nat
          by (apply nth_error_Some; congruence). lia. }
      destruct (positionConstraint (properties u) >? targetIndex - 1)%Z eqn:C.
      * apply Z.gtb_lt in C.
        destruct (alreadyInLayer && _); (split; [lia|]); (split; [exact Hlen|]);
          intros H0; apply Z.leb_le in H0; lia.
      * split; [lia|]. split; [exact Hlen|]. reflexivity.
    + apply nth_error_None in N. lia.
  - assert (Hle : (targetIndex <= 0)%Z).
    { destruct (Z.gtb_spec targetIndex 0); [discriminate | lia]. }
    split; [lia|]. split; [lia|]. reflexivity.
Qed.

Lemma maxConstraint_snoc l n :
  maxConstraint (l ++ [n]) =
  (let '(nodeWithMaxCons, maxCons) := maxConstraint l in
   if (layerConstraint (properties n) >? maxCons)%Z
   then (Some n, layerConstraint (properties n))
   else (nodeWithMaxCons, maxCons)).
Proof.
  unfold maxConstraint. rewrite fold_left_app. simpl.
  by destruct (fold_left _ l _) as [r m].
Qed.

Lemma maxConstraint_spec l :
  match maxConstraint l with
  | (None, m) =>
      m = (-1)%Z /\ Forall (fun n => (layerConstraint (properties n) <= -1)%Z) l
  | (Some n, m) =>
      In n l /\ m = layerConstraint (properties n) /\ (-1 < m)%Z
  end.
Proof.
  induction l as [|n l IH] using rev_ind.
  - simpl. split; [reflexivity | constructor].
  - rewrite maxConstraint_snoc. destruct (maxConstraint l) as [[k|] m].
    + destruct IH as (Hin & -> & Hm).
      destruct (Z.gtb_spec (layerConstraint (properties n))
                  (layerConstraint (properties k))).
      * split; [apply in_or_app; right; by left|]. split; [reflexivity | lia].
      * split; [apply in_or_app; by left|]. split; [reflexivity | exact Hm].
    + destruct IH as (-> & Hall).
      destruct (Z.gtb_spec (layerConstraint (properties n)) (-1)).
      * split; [apply in_or_app; right; by left|]. split; [reflexivity | lia].
      * split; [reflexivity|]. apply Forall_app. split; [exact Hall|].
        constructor; [lia | constructor].
Qed.

Lemma getActualLayer_ge node nodes layerCandidate :
  (layerCandidate <= getActualLayer node nodes layerCandidate)%Z.
Proof.
  unfold getActualLayer. destruct (List.filter _ nodes) as [|k rest] eqn:E; [lia|].
  rewrite <- E. pose proof (maxConstraint_spec
    (List.filter (fun n => (layerId (properties n) <=? layerCandidate)%Z
                           && (layerConstraint (properties n)
                                 >? layerId (properties n))%Z) nodes)) as Hs.
  destruct (maxConstraint _) as [[w|] m]; [|lia].
  destruct Hs as (Hin & -> & _). apply filter_In in Hin as [_ Hb].
  apply andb_true_iff in Hb as [_ Hb]. apply Z.gtb_lt in Hb. lia.
Qed.

(** The nodes whose constraint moves [getActualLayer] off the candidate. *)
Local Abbreviation boosts layerCandidate n :=
  ((layerId (properties n) <= layerCandidate)%Z /\
   (layerId (properties n) < layerConstraint (properties n))%Z /\
   (-1 < layerConstraint (properties n))%Z).

(** X5.  [getActualLayer] never returns less than the candidate layer.  It
    returns the candidate itself exactly if no node at or before the
    candidate ([layerId <= layerCandidate]) carries a layer constraint that
    is above its [layerId] and above [-1]; its first argument, the moved
    node, is not read. *)
Theorem getActualLayer_at_least_candidate node nodes layerCandidate :
  (layerCandidate <= getActualLayer node nodes layerCandidate)%Z /\
  (getActualLayer node nodes layerCandidate = layerCandidate <->
   Forall (fun n => ~ boosts layerCandidate n) nodes) /\
  (forall other, getActualLayer other nodes layerCandidate
                 = getActualLayer node nodes layerCandidate).
Proof.
  split; [apply getActualLayer_ge|split; [|reflexivity]].
  unfold getActualLayer. destruct (List.filter _ nodes) as [|k rest] eqn:E.
  - split; [intros _|reflexivity]. apply Forall_forall. intros n Hn (H1 & H2 & _).
    assert (Hin : In n (List.filter
              (fun n => (layerId (properties n) <=? layerCandidate)%Z
                        && (layerConstraint (properties n)
                              >? layerId (properties n))%Z) nodes)).
    { apply filter_In. split; [by apply list_elem_of_In|].
      apply andb_true_iff. split; [by apply Z.leb_le | by apply Z.gtb_lt]. }
    rewrite E in Hin. destruct Hin.
  - rewrite <- E. pose proof (maxConstraint_spec
      (List.filter (fun n => (layerId (properties n) <=? layerCandidate)%Z
                             && (layerConstraint (properties n)
                                   >? layerId (properties n))%Z) nodes)) as Hs.
    destruct (maxConstraint _) as [[w|] m].
    + destruct Hs as (Hin & -> & Hm). apply filter_In in Hin as [Hin Hb].
      apply andb_true_iff in Hb as [Hb1 Hb2].
      apply Z.leb_le in Hb1. apply Z.gtb_lt in Hb2.
      split; [lia|]. intros Hall. exfalso.
      apply list_elem_of_In in Hin.
      rewrite Forall_forall in Hall. apply (Hall w Hin). lia.
    + destruct Hs as (_ & Hall). split; [intros _|reflexivity].
      apply Forall_forall. intros n Hn (H1 & H2 & H3).
      assert (Hin : In n (List.filter
                (fun n => (layerId (properties n) <=? layerCandidate)%Z
                          && (layerConstraint (properties n)
                                >? layerId (properties n))%Z) nodes)).
      { apply filter_In. split; [by apply list_elem_of_In|].
        apply andb_true_iff. split; [by apply Z.leb_le | by apply Z.gtb_lt]. }
      apply list_elem_of_In in Hin.
      rewrite Forall_forall in Hall. specialize (Hall n Hin). simpl in Hall. lia.
Qed.

Lemma find_some_in {A} (f : A -> bool) l a : List.find f l = Some a -> In a l.
Proof. intros H. by apply find_some in H as [H _]. Qed.

(** X6.  [getLayerOfNode] throws exactly if [layers] is empty.  Otherwise
    it returns the id of one of the layers, or the id of the last layer
    plus one. *)
Theorem getLayerOfNode_range node nodes layers d :
  match getLayerOfNode node nodes layers d with
  | None => layers = []
  | Some layer =>
      exists lastLayer, last layers = Some lastLayer /\
        (In layer (map Layer.id layers) \/ layer = (Layer.id lastLayer + 1)%Z)
  end.
Proof.
  unfold getLayerOfNode.
  destruct (List.find _ layers) as [l|] eqn:F.
  - apply find_some_in in F.
    destruct (last layers) as [lastLayer|] eqn:L.
    + exists lastLayer. split; [reflexivity|]. left. by apply in_map.
    + apply last_None in L. subst layers. destruct F.
  - destruct (last layers) as [lastLayer|] eqn:L; [|by apply last_None in L].
    assert (Hlast : In (Layer.id lastLayer) (map Layer.id layers)).
    { apply in_map. apply list_elem_of_In. by apply last_Some_elem_of. }
    destruct (getNodesOfLayer (Layer.id lastLayer) nodes) as [|only [|]];
      [| destruct (selected only) |]; exists lastLayer; split; auto.
Qed.

(** *** [getLayers]: the nodes and the layer ids *)

Local Abbreviation byLayer :=
  (fun a b : KNode => (layerId (properties a) <? layerId (properties b))%Z).

Lemma byLayer_asym a b : byLayer a b = true -> byLayer b a = false.
Proof. intros H. apply Z.ltb_lt in H. apply Z.ltb_ge. lia. Qed.

Lemma byLayer_trans a b c :
  byLayer b a = false -> byLayer c b = false -> byLayer c a = false.
Proof. rewrite !Z.ltb_ge. lia. Qed.

Lemma getLayers_fst nodes d : fst (getLayers nodes d) = stableSort byLayer nodes.
Proof. reflexivity. Qed.

Lemma stableSort_byLayer_sorted nodes :
  StronglySorted (fun a b => (layerId (properties a) <= layerId (properties b))%Z)
    (stableSort byLayer nodes).
Proof.
  eapply StronglySorted_weaken;
    [|apply (stableSort_sorted byLayer byLayer_asym byLayer_trans)].
  intros a b H. by apply Z.ltb_ge in H.
Qed.

(** X9.  [getLayers] leaves the array it is given sorted by [layerId]: the
    same nodes, in ascending order of [layerId], and the nodes of every
    layer in the order they had, so that [getNodesOfLayer] returns the same
    before and after. *)
Theorem getLayers_sorts_nodes nodes d :
  Permutation nodes (fst (getLayers nodes d)) /\
  StronglySorted (fun a b => (layerId (properties a) <= layerId (properties b))%Z)
    (fst (getLayers nodes d)) /\
  (forall layer,
     getNodesOfLayer layer (fst (getLayers nodes d)) = getNodesOfLayer layer nodes).
Proof.
  rewrite getLayers_fst. split; [apply stableSort_perm|].
  split; [apply stableSort_byLayer_sorted|].
  intros layer. unfold getNodesOfLayer.
  apply (stableSort_stable byLayer byLayer_asym byLayer_trans).
  intros a b Ha Hb. apply Z.eqb_eq in Ha, Hb. apply Z.ltb_ge. lia.
Qed.

(** The ids of the layers the first loop has opened so far. *)
Local Abbreviation scanIds st := (map Layer.id (scanLayers st) ++ [scanLayer st]).

Lemma scanNode_layers d st n :
  scanLayers (scanNode d st n) =
  (if (layerId (properties n) =? scanLayer st)%Z then scanLayers st
   else scanLayers st ++ [closeLayer d st]) /\
  scanLayer (scanNode d st n) = layerId (properties n).
Proof.
  unfold scanNode. destruct (nodeExtent d n) as [[[cb ce] ct] cbt].
  destruct (Z.eqb_spec (layerId (properties n)) (scanLayer st)); simpl; auto.
Qed.

Lemma scanNode_ids d st n :
  scanIds (scanNode d st n) =
  (if (layerId (properties n) =? scanLayer st)%Z then scanIds st
   else scanIds st ++ [layerId (properties n)]).
Proof.
  destruct (scanNode_layers d st n) as [-> ->].
  destruct (Z.eqb_spec (layerId (properties n)) (scanLayer st)) as [->|_];
    [reflexivity|].
  rewrite map_app. reflexivity.
Qed.

Lemma fold_scanNode_ids_in d nodes : forall st z,
  In z (scanIds (fold_left (scanNode d) nodes st)) <->
  In z (scanIds st) \/ exists n, In n nodes /\ layerId (properties n) = z.
Proof.
  induction nodes as [|n nodes IH]; intros st z; simpl.
  - split; [auto | intros [H|(n & [] & _)]; exact H].
  - rewrite IH, scanNode_ids. split.
    + intros [H|(m & Hm & Hz)]; [|right; eauto].
      destruct (Z.eqb_spec (layerId (properties n)) (scanLayer st)); [by left|].
      apply in_app_or in H as [H|[<-|[]]]; [by left|]. right. eauto.
    + intros [H|(m & [<-|Hm] & Hz)].
      * left. destruct (_ =? _)%Z; [exact H|]. apply in_or_app. by left.
      * left. destruct (Z.eqb_spec (layerId (properties n)) (scanLayer st)) as [E|_].
        -- apply in_or_app. right. left. congruence.
        -- apply in_or_app. right. by left.
      * right. eauto.
Qed.

Lemma joinLayers_ids top bottom layers :
  map Layer.id (joinLayers top bottom layers) = map Layer.id layers.
Proof.
  induction layers as [|a [|b rest] IH]; [reflexivity | reflexivity |].
  change (joinLayers top bottom (a :: b :: rest)) with
    (Layer.withBorders top bottom
       (Layer.withEnd (Layer.end_ a + (Layer.begin b - Layer.end_ a) / 2) a)
     :: match joinLayers top bottom (b :: rest) with
        | p :: rest' =>
            Layer.withBegin (Layer.end_ a + (Layer.begin b - Layer.end_ a) / 2) p :: rest'
        | [] => []
        end).
  destruct (joinLayers top bottom (b :: rest)) as [|p rest']; [discriminate IH|].
  simpl in *. by rewrite <- IH.
Qed.

Lemma map_alter_same {A B} (g : A -> B) (f : A -> A) i (l : list A) :
  (forall a, g (f a) = g a) -> map g (alter f i l) = map g l.
Proof.
  intros Hf. revert i. induction l as [|a l IH]; intros [|i]; simpl; [done|done| |].
  - by rewrite Hf.
  - by rewrite <- (IH i).
Qed.

Lemma closeOuterLayers_ids top bottom layers :
  map Layer.id (closeOuterLayers top bottom layers) = map Layer.id layers.
Proof.
  unfold closeOuterLayers.
  destruct (_ !! _); rewrite ?map_alter_same; auto.
Qed.

Lemma padOnlyLayer_id d top bottom l :
  Layer.id (padOnlyLayer d top bottom l) = Layer.id l.
Proof. unfold padOnlyLayer. by destruct (ascending d). Qed.

Lemma getLayers_ids nodes d :
  map Layer.id (snd (getLayers nodes d)) =
  scanIds (fold_left (scanNode d) (stableSort byLayer nodes)
             (mkLayerScan [] 0%Z (initialBegin d) (initialEnd d) MAX_VALUE MIN_VALUE)).
Proof.
  unfold getLayers. cbv zeta. cbn [snd].
  set (st := fold_left (scanNode d) _ _).
  set (top := scanTopBorder st - PLACEMENT_TOP_BOTTOM_OFFSET).
  set (bottom := scanBottomBorder st + PLACEMENT_TOP_BOTTOM_OFFSET).
  assert (Hj := joinLayers_ids top bottom (scanLayers st ++ [closeLayer d st])).
  destruct (joinLayers top bottom _) as [|a [|b rest]].
  - rewrite closeOuterLayers_ids, Hj, map_app. reflexivity.
  - simpl. rewrite padOnlyLayer_id. simpl in Hj. rewrite Hj, map_app. reflexivity.
  - rewrite closeOuterLayers_ids, Hj, map_app. reflexivity.
Qed.

(** X10.  [getLayers] returns a layer for id 0 and for every [layerId] that
    occurs among the nodes, and no other layer. *)
Theorem getLayers_layer_ids nodes d z :
  In z (map Layer.id (snd (getLayers nodes d))) <->
  z = 0%Z \/ exists n, In n nodes /\ layerId (properties n) = z.
Proof.
  rewrite getLayers_ids, fold_scanNode_ids_in. simpl.
  assert (Hperm : Permutation nodes (stableSort byLayer nodes))
    by apply stableSort_perm.
  split; (intros [H|(n & Hn & Hz)]; [left; intuition congruence|right]);
    exists n; (split; [|exact Hz]).
  - by apply (Permutation_in _ (Permutation_sym Hperm)).
  - by apply (Permutation_in _ Hperm).
Qed.

Lemma StronglySorted_snoc_lt l a b :
  StronglySorted Z.lt (l ++ [a]) -> (a < b)%Z -> StronglySorted Z.lt ((l ++ [a]) ++ [b]).
Proof.
  intros Hs Hab. induction l as [|c l IH]; simpl in *.
  - repeat constructor. exact Hab.
  - apply StronglySorted_inv in Hs as [Hs Hc]. constructor; [by apply IH|].
    apply Forall_app. split; [exact Hc|]. constructor; [|constructor].
    apply Forall_app in Hc as [_ Hc]. apply Forall_inv in Hc. lia.
Qed.

Lemma fold_scanNode_ids_sorted d nodes : forall st,
  StronglySorted (fun a b => (layerId (properties a) <= layerId (properties b))%Z) nodes ->
  Forall (fun n => (scanLayer st <= layerId (properties n))%Z) nodes ->
  StronglySorted Z.lt (scanIds st) ->
  StronglySorted Z.lt (scanIds (fold_left (scanNode d) nodes st)).
Proof.
  induction nodes as [|n nodes IH]; intros st Hs Hge Hst; simpl; [exact Hst|].
  apply StronglySorted_inv in Hs as [Hs Hn].
  apply Forall_cons in Hge as [Hge0 Hge].
  apply IH; [exact Hs | | ].
  - destruct (scanNode_layers d st n) as [_ ->]. exact Hn.
  - rewrite scanNode_ids.
    destruct (Z.eqb_spec (layerId (properties n)) (scanLayer st)); [exact Hst|].
    apply StronglySorted_snoc_lt; [exact Hst | lia].
Qed.

(** X11.  If no node has a negative [layerId], the layers [getLayers]
    returns are in strictly ascending order of their ids, so no two of them
    share an id. *)
Theorem getLayers_ids_ascending nodes d :
  Forall (fun n => (0 <= layerId (properties n))%Z) nodes ->
  StronglySorted Z.lt (map Layer.id (snd (getLayers nodes d))).
Proof.
  intros Hnonneg. rewrite getLayers_ids.
  assert (Hperm : Permutation nodes (stableSort byLayer nodes))
    by apply stableSort_perm.
  apply fold_scanNode_ids_sorted.
  - apply stableSort_byLayer_sorted.
  - simpl. by apply (Permutation_Forall Hperm).
  - simpl. repeat constructor.
Qed.

Lemma getLayers_ids_ascending_witness :
  StronglySorted Z.lt
    (map Layer.id (snd (getLayers [Drag.otherInLayer2; Drag.inLayer1; Drag.inLayer2]
                          RIGHT))).
Proof.
  apply getLayers_ids_ascending.
  repeat constructor; vm_compute; discriminate.
Defined.

(** *** [setProperty] *)

Lemma getLayerOfNode_None_iff node nodes layers d :
  getLayerOfNode node nodes layers d = None <-> layers = [].
Proof.
  split; [|by intros ->]. unfold getLayerOfNode.
  destruct (List.find _ layers); [discriminate|].
  destruct (last layers) as [lastLayer|] eqn:L; [|intros _; by apply last_None in L].
  destruct (getNodesOfLayer (Layer.id lastLayer) nodes) as [|only [|]];
    [| destruct (selected only) |]; discriminate.
Qed.

Lemma setProperty_None_iff h nodes layers target :
  setProperty h nodes layers target = None <-> layers = [].
Proof.
  rewrite <- (getLayerOfNode_None_iff target nodes layers (direction target)).
  unfold setProperty.
  destruct (getLayerOfNode target nodes layers (direction target)) as [L|];
    [|split; reflexivity].
  pose proof (LayeredFacts.getPositionInLayer_bounds (getNodesOfLayer L nodes) target
                (direction target)) as Hb.
  destruct (getPositionInLayer _ target (direction target)) as [sorted pos].
  simpl in Hb.
  destruct (LayeredFacts.getActualTargetIndex_defined pos
              (match indexOf sorted target with Some _ => true | None => false end)
              sorted Hb) as [index ->].
  split; [|discriminate].
  destruct (isLayerForbidden h target _); [discriminate|].
  destruct (negb (layerId (properties target) =? L)%Z).
  - destruct (shouldOnlyLCBeSet target layers (direction target)); discriminate.
  - destruct (negb (positionId (properties target) =? pos)%Z); discriminate.
Qed.

Lemma getLayers_nonempty nodes d : snd (getLayers nodes d) <> [].
Proof.
  intros H. apply (f_equal (map Layer.id)) in H. rewrite getLayers_ids in H.
  by destruct (map Layer.id _).
Qed.

(** X7.  [setProperty] throws exactly if [layers] is empty: the position
    [getPositionInLayer] returns is always one [getActualTargetIndex]
    accepts.  So it never throws on layers that [getLayers] has
    computed. *)
Theorem setProperty_throws_iff_no_layers h nodes layers target :
  (setProperty h nodes layers target = None <-> layers = []) /\
  (forall levelNodes d,
     setProperty h nodes (snd (getLayers levelNodes d)) target <> None).
Proof.
  split; [apply setProperty_None_iff|].
  intros levelNodes d H. apply setProperty_None_iff in H.
  by apply getLayers_nonempty in H.
Qed.

(** X8.  What an action of [setProperty] carries.  Every constraint action
    names the target.  A layer is carried only if it differs from the
    target's [layerId], with a layer constraint that is not below it and
    that [isLayerForbidden] accepts; a position is carried only by a static
    constraint or if it differs from the target's [positionId], it is not
    negative, and the position constraint is not below it. *)
Theorem setProperty_action_sound h nodes layers target :
  match setProperty h nodes layers target with
  | Some (SetLayerConstraintAction i layer layerCons) =>
      i = id target /\ layer <> layerId (properties target) /\
      (layer <= layerCons)%Z /\ isLayerForbidden h target layerCons = false /\
      shouldOnlyLCBeSet target layers (direction target) = true
  | Some (SetStaticConstraintAction i layer layerCons pos posCons) =>
      i = id target /\ layer <> layerId (properties target) /\
      (layer <= layerCons)%Z /\ isLayerForbidden h target layerCons = false /\
      (0 <= pos <= posCons)%Z /\
      shouldOnlyLCBeSet target layers (direction target) = false
  | Some (SetPositionConstraintAction i pos posCons) =>
      i = id target /\ pos <> positionId (properties target) /\
      (0 <= pos <= posCons)%Z /\
      getLayerOfNode target nodes layers (direction target)
        = Some (layerId (properties target))
  | Some RefreshDiagramAction => True
  | None => layers = []
  end.
Proof.
  pose proof (setProperty_None_iff h nodes layers target) as Hthrow.
  unfold setProperty in *.
  destruct (getLayerOfNode target nodes layers (direction target)) as [L|];
    [|by apply Hthrow].
  pose proof (LayeredFacts.getPositionInLayer_bounds (getNodesOfLayer L nodes) target
                (direction target)) as Hb.
  destruct (getPositionInLayer _ target (direction target)) as [sorted pos].
  simpl in Hb.
  destruct (getActualTargetIndex pos _ sorted) as [index|] eqn:Hi;
    [|by apply Hthrow].
  apply getActualTargetIndex_ge in Hi.
  pose proof (getActualLayer_ge target nodes L) as Hl.
  destruct (isLayerForbidden h target (getActualLayer target nodes L)) eqn:Hf;
    [exact I|].
  destruct (Z.eqb_spec (layerId (properties target)) L) as [Heq|Hne]; simpl.
  - destruct (Z.eqb_spec (positionId (properties target)) pos) as [Hp|Hp]; simpl;
      [exact I|].
    split; [reflexivity|]. split; [congruence|]. split; [lia | congruence].
  - destruct (shouldOnlyLCBeSet target layers (direction target)) eqn:Hs.
    + split; [reflexivity|]. split; [congruence|]. auto.
    + split; [reflexivity|]. split; [congruence|]. split; [exact Hl|].
      split; [exact Hf|]. split; [lia | reflexivity].
Qed.

Lemma isLayerForbidden_unconstrained h node layer :
  Forall (fun n => layerConstraint (endProperties n) = (-1)%Z)
    (connectedNodes
       (getChain h node
          (getNodesOfLayer (layerId (properties node))
             (filterKNodes h (parentChildren h node))))) ->
  isLayerForbidden h node layer = false.
Proof.
  intros Hfree. unfold isLayerForbidden.
  induction Hfree as [|n rest Hn _ IH]; simpl; [reflexivity|].
  rewrite Hn, IH. simpl. by rewrite andb_false_r.
Qed.

(** X25.  Where no node connected to the target's chain carries a layer
    constraint, [setProperty] refuses nothing: it returns
    [RefreshDiagramAction] only if the target was released in its own
    layer at its own position. *)
Theorem setProperty_refreshes_only_if_unchanged h nodes layers target :
  Forall (fun n => layerConstraint (endProperties n) = (-1)%Z)
    (connectedNodes
       (getChain h target
          (getNodesOfLayer (layerId (properties target))
             (filterKNodes h (parentChildren h target))))) ->
  setProperty h nodes layers target = Some RefreshDiagramAction ->
  getLayerOfNode target nodes layers (direction target)
    = Some (layerId (properties target)) /\
  snd (getPositionInLayer (getNodesOfLayer (layerId (properties target)) nodes)
         target (direction target))
    = positionId (properties target).
Proof.
  intros Hfree. unfold setProperty.
  destruct (getLayerOfNode target nodes layers (direction target)) as [L|];
    [|discriminate].
  destruct (getPositionInLayer (getNodesOfLayer L nodes) target (direction target))
    as [sorted pos] eqn:Hpos.
  destruct (getActualTargetIndex pos _ sorted) as [index|]; [|discriminate].
  rewrite (isLayerForbidden_unconstrained h target _ Hfree).
  destruct (Z.eqb_spec (layerId (properties target)) L) as [<-|Hne]; simpl.
  - destruct (Z.eqb_spec (positionId (properties target)) pos) as [->|Hp]; simpl;
      [|discriminate].
    intros _. by rewrite Hpos.
  - destruct (shouldOnlyLCBeSet target layers (direction target)); discriminate.
Qed.

Lemma setProperty_refreshes_only_if_unchanged_witness :
  getLayerOfNode Drag.inLayer1 [Drag.inLayer1; Drag.inLayer2; Drag.otherInLayer2]
    (snd (getLayers [Drag.inLayer1; Drag.inLayer2; Drag.otherInLayer2] RIGHT))
    (direction Drag.inLayer1)
    = Some (layerId (properties Drag.inLayer1)) /\
  snd (getPositionInLayer
         (getNodesOfLayer (layerId (properties Drag.inLayer1))
            [Drag.inLayer1; Drag.inLayer2; Drag.otherInLayer2])
         Drag.inLayer1 (direction Drag.inLayer1))
    = positionId (properties Drag.inLayer1).
Proof.
  apply (setProperty_refreshes_only_if_unchanged
           (Drag.host [Drag.inLayer1; Drag.inLayer2; Drag.otherInLayer2])).
  - constructor.
  - vm_compute. reflexivity.
Defined.

(** *** [getLayers]: the bounds of the layers *)

(** The middle between a layer and the next one, where the second loop of
    [getLayers] lets the one end and the other begin. *)
Local Abbreviation between a b :=
  (Layer.end_ a + (Layer.begin b - Layer.end_ a) / 2).

Lemma joinLayers_lookup top bottom R : forall i a,
  R !! i = Some a ->
  joinLayers top bottom R !! i =
  Some (Layer.mk (Layer.id a)
          (match i with
           | O => Layer.begin a
           | S j => match R !! j with Some p => between p a | None => Layer.begin a end
           end)
          (match R !! S i with Some nx => between a nx | None => Layer.end_ a end)
          (Layer.mid a) (Layer.direction a)
          (match R !! S i with Some _ => Some top | None => Layer.topBorder a end)
          (match R !! S i with Some _ => Some bottom | None => Layer.bottomBorder a end)).
Proof.
  induction R as [|a [|b rest] IH]; intros i x Hx.
  - destruct i; discriminate Hx.
  - destruct i as [|i]; [|destruct i; discriminate Hx].
    injection Hx as <-. by destruct a.
  - change (joinLayers top bottom (a :: b :: rest)) with
      (Layer.withBorders top bottom (Layer.withEnd (between a b) a)
       :: match joinLayers top bottom (b :: rest) with
          | p :: rest' => Layer.withBegin (between a b) p :: rest'
          | [] => []
          end).
    destruct i as [|j].
    + injection Hx as <-. reflexivity.
    + change ((a :: b :: rest) !! S j) with ((b :: rest) !! j) in Hx.
      specialize (IH j x Hx).
      destruct (joinLayers top bottom (b :: rest)) as [|p r];
        [destruct j; discriminate IH|].
      destruct j as [|j].
      * injection Hx as <-. injection IH as ->. reflexivity.
      * exact IH.
Qed.

Lemma joinLayers_length top bottom R : length (joinLayers top bottom R) = length R.
Proof.
  pose proof (joinLayers_ids top bottom R) as H.
  apply (f_equal (@length Z)) in H. by rewrite !length_map in H.
Qed.

(** The last step of [getLayers]. *)
Local Abbreviation closeLayers d top bottom joined :=
  (match joined%list return list Layer.t with
   | firstLayer :: nil => padOnlyLayer d top bottom firstLayer :: nil
   | _ => closeOuterLayers top bottom joined
   end).

Lemma closeLayers_lookup d top bottom R i a :
  R !! i = Some a ->
  exists L,
    closeLayers d top bottom (joinLayers top bottom R) !! i = Some L /\
    Layer.id L = Layer.id a /\ Layer.mid L = Layer.mid a /\
    Layer.direction L = Layer.direction a /\
    Layer.topBorder L = Some top /\ Layer.bottomBorder L = Some bottom /\
    Layer.begin L =
      match i with
      | O => match R !! 1%nat with
             | Some nx => Layer.mid a - (between a nx - Layer.mid a)
             | None => if ascending d then Layer.begin a - ONE_LAYER_PADDING
                       else Layer.begin a + ONE_LAYER_PADDING
             end
      | S j => match R !! j with Some p => between p a | None => Layer.begin a end
      end /\
    Layer.end_ L =
      match R !! S i with
      | Some nx => between a nx
      | None =>
          match i with
          | O => if ascending d then Layer.end_ a + ONE_LAYER_PADDING
                 else Layer.end_ a - ONE_LAYER_PADDING
          | S j => match R !! j with
                   | Some p => Layer.mid a + (Layer.mid a - between p a)
                   | None => Layer.end_ a
                   end
          end
      end.
Proof.
  intros Hi.
  destruct (le_lt_dec 2 (length R)) as [Hk|Hk].
  - pose proof (joinLayers_length top bottom R) as Hlen.
    pose proof (joinLayers_lookup top bottom R) as HJ.
    assert (Hclose : closeLayers d top bottom (joinLayers top bottom R)
                     = closeOuterLayers top bottom (joinLayers top bottom R)).
    { destruct (joinLayers top bottom R) as [|j0 [|j1 jr]]; try reflexivity.
      simpl in Hlen. lia. }
    rewrite Hclose. clear Hclose. unfold closeOuterLayers. cbv zeta.
    set (J := joinLayers top bottom R) in *.
    set (f0 := fun firstLayer : Layer.t => Layer.withBegin _ firstLayer).
    assert (Hi' : (i < length R)%nat) by (by apply lookup_lt_Some in Hi).
    rewrite !length_alter, Hlen.
    destruct (lookup_lt_is_Some_2 R (length R - 2)) as [bl Hbl]; [lia|].
    assert (Hbefore : exists beforeLast,
               alter f0 0%nat J !! (length R - 2)%nat = Some beforeLast /\
               Layer.end_ beforeLast =
                 match R !! S (length R - 2) with
                 | Some nx => between bl nx | None => Layer.end_ bl end).
    { rewrite list_lookup_alter. destruct (decide (0%nat = (length R - 2)%nat)) as [E|E].
      - rewrite <- E in *. rewrite (HJ _ _ Hbl). eexists. split; reflexivity.
      - rewrite (HJ _ _ Hbl). eexists. split; reflexivity. }
    destruct Hbefore as (beforeLast & -> & HbE).
    rewrite list_lookup_alter.
    destruct (decide ((length R - 1)%nat = i)) as [E|E].
    + assert (i <> 0%nat) by lia.
      rewrite E, list_lookup_alter_ne by lia. rewrite (HJ _ _ Hi).
      eexists. split; [reflexivity|].
      cbn [Layer.id Layer.begin Layer.end_ Layer.mid Layer.direction Layer.topBorder
           Layer.bottomBorder Layer.withBegin Layer.withEnd Layer.withBorders].
      assert (Hnone : R !! S i = None) by (apply lookup_ge_None; lia).
      rewrite Hnone. destruct i as [|j]; [lia|].
      replace (length R - 2)%nat with j in * by lia.
      rewrite Hbl in *. rewrite Hi in HbE. rewrite HbE.
      repeat split.
    + rewrite list_lookup_alter. destruct (decide (0%nat = i)) as [<-|E0].
      * rewrite (HJ _ _ Hi). eexists. split; [reflexivity|].
        destruct (lookup_lt_is_Some_2 R 1) as [nx Hnx]; [lia|]. rewrite Hnx.
        repeat split.
      * rewrite (HJ _ _ Hi). eexists. split; [reflexivity|].
        destruct (lookup_lt_is_Some_2 R (S i)) as [nx Hnx]; [lia|]. rewrite Hnx.
        destruct i as [|j]; [lia|]. repeat split.
  - destruct R as [|r0 [|r1 rest]]; [destruct i; discriminate Hi | | simpl in Hk; lia].
    destruct i as [|i]; [|destruct i; discriminate Hi]. injection Hi as <-.
    simpl. unfold padOnlyLayer. destruct (ascending d); eexists; repeat split.
Qed.

Lemma closeLayers_length d top bottom R :
  length (closeLayers d top bottom (joinLayers top bottom R)) = length R.
Proof.
  rewrite <- (joinLayers_length top bottom R).
  destruct (joinLayers top bottom R) as [|j0 [|j1 jr]]; [reflexivity | reflexivity |].
  unfold closeOuterLayers. cbv zeta. destruct (_ !! _); by rewrite ?length_alter.
Qed.

Lemma getLayers_snd nodes d :
  let st := fold_left (scanNode d) (stableSort byLayer nodes) (initialScan d) in
  let top := scanTopBorder st - PLACEMENT_TOP_BOTTOM_OFFSET in
  let bottom := scanBottomBorder st + PLACEMENT_TOP_BOTTOM_OFFSET in
  snd (getLayers nodes d) =
  closeLayers d top bottom (joinLayers top bottom (rawLayers d st)).
Proof. reflexivity. Qed.

Lemma rawLayers_direction d nodes : forall st,
  Forall (fun L => Layer.direction L = d) (scanLayers st) ->
  Forall (fun L => Layer.direction L = d)
    (rawLayers d (fold_left (scanNode d) nodes st)).
Proof.
  induction nodes as [|n nodes IH]; intros st Hst; simpl.
  - apply Forall_app. split; [exact Hst | by repeat constructor].
  - apply IH. destruct (scanNode_layers d st n) as [-> _].
    destruct (_ =? _)%Z; [exact Hst|].
    apply Forall_app. split; [exact Hst | by repeat constructor].
Qed.

(** X12.  [getLayers] always returns at least one layer.  Every layer it
    returns has the direction it was asked for and both borders set, all
    layers to the same two values; and every layer begins exactly where the
    layer before it ends. *)
Theorem getLayers_layers_chained nodes d :
  snd (getLayers nodes d) <> [] /\
  (exists top bottom,
     Forall (fun L => Layer.direction L = d /\
                      Layer.topBorder L = Some top /\ Layer.bottomBorder L = Some bottom)
       (snd (getLayers nodes d))) /\
  (forall i a b,
     snd (getLayers nodes d) !! i = Some a ->
     snd (getLayers nodes d) !! S i = Some b ->
     Layer.begin b = Layer.end_ a).
Proof.
  rewrite getLayers_snd. cbv zeta.
  set (st := fold_left (scanNode d) (stableSort byLayer nodes) (initialScan d)).
  set (top := scanTopBorder st - PLACEMENT_TOP_BOTTOM_OFFSET).
  set (bottom := scanBottomBorder st + PLACEMENT_TOP_BOTTOM_OFFSET).
  set (R := rawLayers d st).
  pose proof (closeLayers_length d top bottom R) as Hlen.
  pose proof (fun i a => closeLayers_lookup d top bottom R i a) as Hlook.
  assert (Hdir : Forall (fun L => Layer.direction L = d) R)
    by (apply rawLayers_direction; constructor).
  set (F := closeLayers d top bottom (joinLayers top bottom R)) in *.
  split; [|split].
  - intros HF. rewrite HF in Hlen. unfold R, rawLayers in Hlen.
    rewrite length_app in Hlen. simpl in Hlen. lia.
  - exists top, bottom. apply Forall_lookup. intros i L HL.
    destruct (lookup_lt_is_Some_2 R i) as [r Hr];
      [rewrite <- Hlen; by apply lookup_lt_Some in HL|].
    destruct (Hlook i r Hr) as (L' & HL' & _ & _ & Hd & Ht & Hb & _).
    rewrite HL in HL'. injection HL' as <-.
    rewrite Forall_lookup in Hdir. rewrite (Hdir i r Hr) in Hd. auto.
  - intros i a b Ha Hb.
    destruct (lookup_lt_is_Some_2 R i) as [ra Hra];
      [rewrite <- Hlen; by apply lookup_lt_Some in Ha|].
    destruct (lookup_lt_is_Some_2 R (S i)) as [rb Hrb];
      [rewrite <- Hlen; by apply lookup_lt_Some in Hb|].
    destruct (Hlook i ra Hra) as (a' & Ha' & _ & _ & _ & _ & _ & _ & Hend).
    destruct (Hlook (S i) rb Hrb) as (b' & Hb' & _ & _ & _ & _ & _ & Hbegin & _).
    rewrite Ha in Ha'. injection Ha' as <-. rewrite Hb in Hb'. injection Hb' as <-.
    rewrite Hbegin, Hend, Hra, Hrb. reflexivity.
Qed.

(** *** [getLayers]: the nodes inside the bounds *)

Lemma Qmin'_spec a b : (Qmin' a b = a \/ Qmin' a b = b) /\ Qmin' a b <= a /\ Qmin' a b <= b.
Proof.
  unfold Qmin'. destruct (Qle_bool a b) eqn:E.
  - apply Qle_bool_iff in E. split; [by left|]. split; [apply Qle_refl | exact E].
  - assert (b < a).
    { apply Qnot_le_lt. intros H. apply Qle_bool_iff in H. congruence. }
    split; [by right|]. split; [by apply Qlt_le_weak | apply Qle_refl].
Qed.

Lemma Qmax'_spec a b : (Qmax' a b = a \/ Qmax' a b = b) /\ a <= Qmax' a b /\ b <= Qmax' a b.
Proof.
  unfold Qmax'. destruct (Qle_bool a b) eqn:E.
  - apply Qle_bool_iff in E. split; [by right|]. split; [exact E | apply Qle_refl].
  - assert (b < a).
    { apply Qnot_le_lt. intros H. apply Qle_bool_iff in H. congruence. }
    split; [by left|]. split; [apply Qle_refl | by apply Qlt_le_weak].
Qed.

Local Abbreviation nodeBegin d n := (fst (fst (fst (nodeExtent d n)))).
Local Abbreviation nodeEnd d n := (snd (fst (fst (nodeExtent d n)))).
Local Abbreviation nodeTop d n := (snd (fst (nodeExtent d n))).
Local Abbreviation nodeBottom d n := (snd (nodeExtent d n)).
Local Abbreviation firstAlong d a b := (if ascending d then Qmin' a b else Qmax' a b).
Local Abbreviation lastAlong d a b := (if ascending d then Qmax' a b else Qmin' a b).

Lemma along_refl d a : along d a a.
Proof. unfold along. destruct (ascending d); apply Qle_refl. Qed.

Lemma along_trans d a b c : along d a b -> along d b c -> along d a c.
Proof. unfold along. destruct (ascending d); intros; eapply Qle_trans; eauto. Qed.

Lemma firstAlong_spec d a b :
  (firstAlong d a b = a \/ firstAlong d a b = b) /\
  along d (firstAlong d a b) a /\ along d (firstAlong d a b) b.
Proof.
  unfold along. destruct (ascending d); [apply Qmin'_spec | apply Qmax'_spec].
Qed.

Lemma lastAlong_spec d a b :
  (lastAlong d a b = a \/ lastAlong d a b = b) /\
  along d a (lastAlong d a b) /\ along d b (lastAlong d a b).
Proof.
  unfold along. destruct (ascending d); [apply Qmax'_spec | apply Qmin'_spec].
Qed.

Lemma scanNode_eq d st n :
  scanNode d st n =
  (let st1 :=
     if negb (layerId (properties n) =? scanLayer st)%Z then
       mkLayerScan (scanLayers st ++ [closeLayer d st]) (layerId (properties n))
         (initialBegin d) (initialEnd d) (scanTopBorder st) (scanBottomBorder st)
     else st in
   mkLayerScan (scanLayers st1) (scanLayer st1)
     (firstAlong d (nodeBegin d n) (beginCoordinate st1))
     (lastAlong d (nodeEnd d n) (endCoordinate st1))
     (Qmin' (nodeTop d n) (scanTopBorder st1))
     (Qmax' (nodeBottom d n) (scanBottomBorder st1))).
Proof. unfold scanNode. by destruct (nodeExtent d n) as [[[cb ce] ct] cbt]. Qed.

Lemma fold_scanNode_borders d nodes : forall st,
  (scanTopBorder (fold_left (scanNode d) nodes st) <= scanTopBorder st /\
   scanBottomBorder st <= scanBottomBorder (fold_left (scanNode d) nodes st)) /\
  (forall n, In n nodes ->
     scanTopBorder (fold_left (scanNode d) nodes st) <= nodeTop d n /\
     nodeBottom d n <= scanBottomBorder (fold_left (scanNode d) nodes st)).
Proof.
  induction nodes as [|m nodes IH]; intros st; simpl.
  - split; [split; apply Qle_refl | intros n []].
  - destruct (IH (scanNode d st m)) as [[Ht Hb] Hin].
    assert (Hm : (scanTopBorder (scanNode d st m) <= scanTopBorder st /\
                  scanTopBorder (scanNode d st m) <= nodeTop d m) /\
                 (scanBottomBorder st <= scanBottomBorder (scanNode d st m) /\
                  nodeBottom d m <= scanBottomBorder (scanNode d st m))).
    { rewrite scanNode_eq. cbv zeta.
      destruct (negb _); cbn [scanTopBorder scanBottomBorder];
        pose proof (Qmin'_spec (nodeTop d m) (scanTopBorder st)) as (_ & ? & ?);
        pose proof (Qmax'_spec (nodeBottom d m) (scanBottomBorder st)) as (_ & ? & ?);
        auto. }
    destruct Hm as [[Ht1 Ht2] [Hb1 Hb2]].
    split; [split; eapply Qle_trans; eauto|].
    intros n [<-|Hn]; [split; eapply Qle_trans; eauto | by apply Hin].
Qed.

Lemma nodeExtent_at_rest d n :
  shadow n = false ->
  nodeExtent d n =
  (restBegin d n, restEnd d n, crossCoordinate d n, crossCoordinate d n + crossSize d n).
Proof.
  intros Hs. unfold nodeExtent, restBegin, restEnd, crossCoordinate, crossSize,
    layoutPosition, layoutSize. rewrite Hs. by destruct d.
Qed.

(** X13.  The borders [getLayers] sets enclose every node it was given: for
    a node of the list that is not being dragged, of non-negative size
    across the layout direction, [shouldOnlyLCBeSet] is false on the layers
    [getLayers] returns. *)
Theorem resting_node_within_borders nodes d n :
  In n nodes -> shadow n = false -> 0 <= crossSize d n ->
  shouldOnlyLCBeSet n (snd (getLayers nodes d)) d = false.
Proof.
  intros Hin Hrest Hsize. rewrite getLayers_snd. cbv zeta.
  set (st := fold_left (scanNode d) (stableSort byLayer nodes) (initialScan d)).
  set (top := scanTopBorder st - PLACEMENT_TOP_BOTTOM_OFFSET).
  set (bottom := scanBottomBorder st + PLACEMENT_TOP_BOTTOM_OFFSET).
  destruct (lookup_lt_is_Some_2 (rawLayers d st) 0) as [r Hr].
  { unfold rawLayers. rewrite length_app. simpl. lia. }
  destruct (closeLayers_lookup d top bottom _ _ _ Hr) as (L & HL & _ & _ & _ & Ht & Hb & _).
  unfold shouldOnlyLCBeSet.
  destruct (closeLayers d top bottom _) as [|first rest]; [reflexivity|].
  injection HL as ->. rewrite Ht, Hb. unfold outsideBorders.
  destruct (fold_scanNode_borders d (stableSort byLayer nodes) (initialScan d))
    as [_ Hall].
  destruct (Hall n) as [Htop Hbottom].
  { apply (Permutation_in _ (stableSort_perm byLayer nodes)), Hin. }
  fold st in Htop, Hbottom. rewrite (nodeExtent_at_rest d n Hrest) in Htop, Hbottom.
  cbn [fst snd] in Htop, Hbottom. fold (crossCoordinate d n).
  apply orb_false_iff. split.
  - apply Qltb_false. unfold top, PLACEMENT_TOP_BOTTOM_OFFSET. lra.
  - unfold Qgtb. apply Qltb_false. unfold bottom, PLACEMENT_TOP_BOTTOM_OFFSET. lra.
Qed.

Lemma resting_node_within_borders_witness :
  shouldOnlyLCBeSet Drag.inLayer2
    (snd (getLayers [Drag.inLayer1; Drag.inLayer2; Drag.otherInLayer2] RIGHT)) RIGHT
  = false.
Proof.
  apply resting_node_within_borders.
  - right. left. reflexivity.
  - reflexivity.
  - vm_compute. discriminate.
Defined.

(** *** [getLayers] and [getLayerOfNode] *)

(** What the first loop of [getLayers] has established of the layers after
    the nodes [seen]. *)
Local Abbreviation scanned d seen st :=
  ((forall L, In L (rawLayers d st) ->
      Layer.mid L = Layer.begin L + (Layer.end_ L - Layer.begin L) / 2 /\
      (forall a, In a seen -> layerId (properties a) = Layer.id L ->
         along d (Layer.begin L) (nodeBegin d a) /\
         along d (nodeEnd d a) (Layer.end_ L)) /\
      (Layer.begin L = initialBegin d \/
       exists a, In a seen /\ layerId (properties a) = Layer.id L /\
                 Layer.begin L = nodeBegin d a) /\
      (Layer.end_ L = initialEnd d \/
       exists a, In a seen /\ layerId (properties a) = Layer.id L /\
                 Layer.end_ L = nodeEnd d a)) /\
   (forall a, In a seen -> Z.le (layerId (properties a)) (scanLayer st)) /\
   StronglySorted Z.lt (scanIds st)).

Lemma StronglySorted_snoc_bound l z :
  StronglySorted Z.lt (l ++ [z]) -> Forall (fun y => (y < z)%Z) l.
Proof.
  induction l as [|a l IH]; simpl; intros Hs; [constructor|].
  apply StronglySorted_inv in Hs as [Hs Ha]. constructor; [|by apply IH].
  apply Forall_app in Ha as [_ Ha]. by apply Forall_inv in Ha.
Qed.

Lemma rawLayers_ids d st : map Layer.id (rawLayers d st) = scanIds st.
Proof. unfold rawLayers. by rewrite map_app. Qed.

Lemma rawLayers_id_bound d st L :
  StronglySorted Z.lt (scanIds st) -> In L (rawLayers d st) ->
  (Layer.id L <= scanLayer st)%Z /\
  (In L (scanLayers st) -> (Layer.id L < scanLayer st)%Z).
Proof.
  intros Hs HL. apply StronglySorted_snoc_bound in Hs. rewrite Forall_forall in Hs.
  assert (Hclosed : In L (scanLayers st) -> (Layer.id L < scanLayer st)%Z).
  { intros H. apply Hs. apply list_elem_of_In. by apply in_map. }
  split; [|exact Hclosed].
  unfold rawLayers in HL. apply in_app_or in HL as [H|[<-|[]]].
  - specialize (Hclosed H). lia.
  - simpl. lia.
Qed.

Lemma scanned_step d seen st n :
  scanned d seen st -> (scanLayer st <= layerId (properties n))%Z ->
  scanned d (seen ++ [n]) (scanNode d st n).
Proof.
  intros (Hlayers & Hseen & Hsorted) Hn.
  pose proof (rawLayers_id_bound d st) as Hbound.
  pose proof (scanNode_ids d st n) as Hids.
  destruct (scanNode_layers d st n) as [_ Hcur].
  destruct (firstAlong_spec d (nodeBegin d n) (beginCoordinate st)) as (Hb1 & Hb2 & Hb3).
  destruct (lastAlong_spec d (nodeEnd d n) (endCoordinate st)) as (He1 & He2 & He3).
  destruct (firstAlong_spec d (nodeBegin d n) (initialBegin d)) as (Hb1' & Hb2' & Hb3').
  destruct (lastAlong_spec d (nodeEnd d n) (initialEnd d)) as (He1' & He2' & He3').
  split; [|split].
  - intros L HL.
    assert (Hold : forall L, In L (rawLayers d st) ->
              Layer.id L <> layerId (properties n) ->
              Layer.mid L = Layer.begin L + (Layer.end_ L - Layer.begin L) / 2 /\
              (forall a, In a (seen ++ [n]) -> layerId (properties a) = Layer.id L ->
                 along d (Layer.begin L) (nodeBegin d a) /\
                 along d (nodeEnd d a) (Layer.end_ L)) /\
              (Layer.begin L = initialBegin d \/
               exists a, In a (seen ++ [n]) /\ layerId (properties a) = Layer.id L /\
                         Layer.begin L = nodeBegin d a) /\
              (Layer.end_ L = initialEnd d \/
               exists a, In a (seen ++ [n]) /\ layerId (properties a) = Layer.id L /\
                         Layer.end_ L = nodeEnd d a)).
    { intros L0 HL0 Hother. destruct (Hlayers L0 HL0) as (Hmid & Hin & Hbeg & Hend).
      split; [exact Hmid|]. split; [|split].
      - intros a Ha Hid. apply in_app_or in Ha as [Ha|[<-|[]]]; [auto | congruence].
      - destruct Hbeg as [H|(a & Ha & Hid & H)]; [by left|].
        right. exists a. split; [apply in_or_app; by left | auto].
      - destruct Hend as [H|(a & Ha & Hid & H)]; [by left|].
        right. exists a. split; [apply in_or_app; by left | auto]. }
    revert HL. rewrite scanNode_eq. cbv zeta. unfold rawLayers.
    destruct (Z.eqb_spec (layerId (properties n)) (scanLayer st)) as [Heq|Hne];
      cbn [negb scanLayers scanLayer beginCoordinate endCoordinate closeLayer].
    + intros HL. apply in_app_or in HL as [HL|[<-|[]]].
      * assert (HL' : In L (rawLayers d st)) by (apply in_or_app; by left).
        destruct (Hbound L Hsorted HL') as [_ Hlt]. specialize (Hlt HL).
        apply (Hold L HL'). lia.
      * cbn [closeLayer Layer.new Layer.id Layer.begin Layer.end_ Layer.mid
             scanLayers scanLayer beginCoordinate endCoordinate].
        assert (HL' : In (closeLayer d st) (rawLayers d st))
          by (apply in_or_app; right; by left).
        destruct (Hlayers _ HL') as (_ & Hin & Hbeg & Hend).
        cbn [closeLayer Layer.new Layer.id Layer.begin Layer.end_ Layer.mid]
          in Hin, Hbeg, Hend.
        split; [reflexivity|]. split; [|split].
        -- intros a Ha Hid. apply in_app_or in Ha as [Ha|[<-|[]]]; [|auto].
           destruct (Hin a Ha Hid) as [H1 H2].
           split; eapply along_trans; eauto.
        -- destruct Hb1 as [->| ->].
           ++ right. exists n. split; [apply in_or_app; right; by left | auto].
           ++ destruct Hbeg as [H|(a & Ha & Hid & H)]; [by left|].
              right. exists a. split; [apply in_or_app; by left | auto].
        -- destruct He1 as [->| ->].
           ++ right. exists n. split; [apply in_or_app; right; by left | auto].
           ++ destruct Hend as [H|(a & Ha & Hid & H)]; [by left|].
              right. exists a. split; [apply in_or_app; by left | auto].
    + intros HL. apply in_app_or in HL as [HL|[<-|[]]].
      * destruct (Hbound L Hsorted HL) as [Hle _].
        apply (Hold L HL). lia.
      * cbn [closeLayer Layer.new Layer.id Layer.begin Layer.end_ Layer.mid
             scanLayers scanLayer beginCoordinate endCoordinate].
        split; [reflexivity|]. split; [|split].
        -- intros a Ha Hid. apply in_app_or in Ha as [Ha|[<-|[]]]; [|auto].
           specialize (Hseen a Ha). cbn [closeLayer Layer.id Layer.new scanLayer] in Hid. lia.
        -- destruct Hb1' as [->| ->]; [|by left].
           right. exists n. split; [apply in_or_app; right; by left | auto].
        -- destruct He1' as [->| ->]; [|by left].
           right. exists n. split; [apply in_or_app; right; by left | auto].
  - intros a Ha. rewrite Hcur. apply in_app_or in Ha as [Ha|[<-|[]]]; [|lia].
    specialize (Hseen a Ha). lia.
  - rewrite Hids.
    destruct (Z.eqb_spec (layerId (properties n)) (scanLayer st)); [exact Hsorted|].
    apply StronglySorted_snoc_lt; [exact Hsorted | lia].
Qed.

Lemma scanned_fold d rest : forall seen st,
  scanned d seen st ->
  StronglySorted (fun a b => (layerId (properties a) <= layerId (properties b))%Z) rest ->
  Forall (fun n => (scanLayer st <= layerId (properties n))%Z) rest ->
  scanned d (seen ++ rest) (fold_left (scanNode d) rest st).
Proof.
  induction rest as [|n rest IH]; intros seen st Hst Hsorted Hge.
  - rewrite app_nil_r. exact Hst.
  - apply StronglySorted_inv in Hsorted as [Hsorted Hn].
    apply Forall_cons in Hge as [Hge0 Hge].
    change (seen ++ n :: rest) with (seen ++ [n] ++ rest). rewrite app_assoc.
    apply (IH (seen ++ [n]) (scanNode d st n)); [by apply scanned_step | exact Hsorted |].
    destruct (scanNode_layers d st n) as [_ ->]. exact Hn.
Qed.

Lemma getLayers_scanned nodes d :
  Forall (fun n => (0 <= layerId (properties n))%Z) nodes ->
  scanned d (stableSort byLayer nodes)
    (fold_left (scanNode d) (stableSort byLayer nodes) (initialScan d)).
Proof.
  intros Hnonneg.
  apply (scanned_fold d (stableSort byLayer nodes) [] (initialScan d)).
  - split; [|split].
    + intros L [<-|[]]. split; [reflexivity|]. split; [intros a []|].
      split; by left.
    + intros a [].
    + repeat constructor.
  - apply stableSort_byLayer_sorted.
  - by apply (Permutation_Forall (stableSort_perm byLayer nodes)).
Qed.

Lemma StronglySorted_lookup_lt (l : list Z) i j y z :
  StronglySorted Z.lt l -> l !! i = Some y -> l !! j = Some z -> (i < j)%nat ->
  (y < z)%Z.
Proof.
  intros Hs. revert i j. induction Hs as [|a l Hs IH Ha]; intros i j Hi Hj Hij.
  - destruct i; discriminate Hi.
  - destruct j as [|j]; [lia|]. destruct i as [|i].
    + injection Hi as <-. rewrite Forall_forall in Ha. apply Ha.
      simpl in Hj. by apply list_elem_of_lookup_2 in Hj.
    + apply (IH i j); [exact Hi | exact Hj | lia].
Qed.

(** The coordinate lies beyond the end of a layer, as [getLayerOfNode]
    tests it. *)
Local Abbreviation beyond d c e := (if ascending d then c < e else e < c).

Lemma reaches_beyond d c l : beyond d c (Layer.end_ l) -> reaches d c l = true.
Proof.
  intros H. apply LayeredFacts.reaches_iff. destruct (ascending d); auto.
Qed.

Lemma reaches_before d c l : along d (Layer.end_ l) c -> reaches d c l = false.
Proof.
  unfold along. intros H. destruct (reaches d c l) eqn:E; [|reflexivity].
  apply LayeredFacts.reaches_iff in E. exfalso.
  destruct E as [[E Hlt]|[E Hlt]]; rewrite E in H; cbv iota in H; lra.
Qed.

Local Ltac halves := unfold Qdiv in *; change (/ 2) with (1 # 2) in *; lra.

Lemma between_before d e b c : along d e c -> along d b c -> along d (e + (b - e) / 2) c.
Proof. unfold along. destruct (ascending d); cbv iota; intros; halves. Qed.

Lemma between_beyond d e b c c1 :
  beyond d c c1 -> along d c1 e -> along d c1 b -> beyond d c (e + (b - e) / 2).
Proof. unfold along. destruct (ascending d); cbv iota; intros; halves. Qed.

Lemma padded_beyond d e c c1 :
  beyond d c c1 -> along d c1 e ->
  beyond d c (if ascending d then e + ONE_LAYER_PADDING else e - ONE_LAYER_PADDING).
Proof. unfold along, ONE_LAYER_PADDING. destruct (ascending d); cbv iota; lra. Qed.

Lemma mirrored_beyond d b e pe mid c c1 :
  mid = b + (e - b) / 2 -> along d pe b -> along d c1 e -> beyond d c c1 ->
  beyond d c (mid + (mid - (pe + (b - pe) / 2))).
Proof. intros ->. unfold along. destruct (ascending d); cbv iota; intros; halves. Qed.

Lemma centre_at_rest d n :
  0 < layoutSize d n ->
  along d (restBegin d n) (coordinateInLayoutDirection n d) /\
  beyond d (coordinateInLayoutDirection n d) (restEnd d n).
Proof.
  unfold along, restBegin, restEnd, coordinateInLayoutDirection, layoutPosition,
    layoutSize. destruct d; simpl; intros; halves.
Qed.

Lemma placed_bounds d a :
  placed d a ->
  along d (restBegin d a) (restEnd d a) /\
  along d (initialEnd d) (restBegin d a) /\
  along d (restEnd d a) (initialBegin d).
Proof.
  unfold placed, along, restBegin, restEnd, initialBegin, initialEnd.
  destruct (ascending d); cbv iota; lra.
Qed.

Lemma onGrid_placed d a : onGrid d a -> placed d a.
Proof.
  intros (Hrest & p & s & Hp & Hs & H1 & H0 & Hfar). split; [exact Hrest|].
  rewrite Hp, Hs, <- inject_Z_plus.
  split; [change 0 with (inject_Z 0); by rewrite <- Zle_Qle|]. split.
  - apply Qle_trans with (inject_Z 1); [by vm_compute | by rewrite <- Zle_Qle].
  - apply Qle_trans with (inject_Z (2 ^ 50)); [by rewrite <- Zle_Qle|].
    unfold MAX_VALUE. rewrite <- Zle_Qle. by vm_compute.
Qed.

(** X14.  [getLayers] and [getLayerOfNode] agree on nodes that lie where
    the layout put them.  If no node is being dragged, every node has a
    non-negative [layerId] and, along the layout direction, a whole-numbered
    position of at least 1 and a whole-numbered non-negative size that ends
    at 2^50 at most (a range in which the bounds and the coordinate compared
    are exact in binary64), and the nodes of every layer end before the
    nodes of every later layer begin, then [getLayerOfNode] resolves every
    node of positive size to its own [layerId] on the layers that
    [getLayers] computes. *)
Theorem resting_node_resolves_to_own_layer nodes d n others :
  In n nodes ->
  Forall (fun a => (0 <= layerId (properties a))%Z) nodes ->
  Forall (onGrid d) nodes ->
  separated d nodes ->
  0 < layoutSize d n ->
  getLayerOfNode n others (snd (getLayers nodes d)) d = Some (layerId (properties n)).
Proof.
  intros Hn Hnonneg Hgrid Hsep Hsize.
  assert (Hplaced : Forall (placed d) nodes).
  { eapply Forall_impl; [exact Hgrid|]. intros a. apply onGrid_placed. }
  clear Hgrid.
  rewrite getLayers_snd. cbv zeta.
  pose proof (getLayers_scanned nodes d Hnonneg) as (Hlayers & _ & Hsorted).
  pose proof (fold_scanNode_ids_in d (stableSort byLayer nodes) (initialScan d)) as Hids.
  set (st := fold_left (scanNode d) (stableSort byLayer nodes) (initialScan d)) in *.
  set (top := scanTopBorder st - PLACEMENT_TOP_BOTTOM_OFFSET).
  set (bottom := scanBottomBorder st + PLACEMENT_TOP_BOTTOM_OFFSET).
  rewrite <- (rawLayers_ids d st) in Hsorted, Hids.
  set (R := rawLayers d st) in *.
  assert (Hperm : forall a, In a (stableSort byLayer nodes) <-> In a nodes).
  { intros a. split; apply Permutation_in;
      [apply Permutation_sym|]; apply stableSort_perm. }
  rewrite Forall_forall in Hplaced, Hnonneg.
  assert (Hext : forall a, In a nodes ->
            nodeBegin d a = restBegin d a /\ nodeEnd d a = restEnd d a).
  { intros a Ha. destruct (Hplaced a) as [Hrest _]; [by apply list_elem_of_In|].
    by rewrite (nodeExtent_at_rest d a Hrest). }
  assert (Hb : forall a, In a nodes ->
            along d (restBegin d a) (restEnd d a) /\
            along d (initialEnd d) (restBegin d a) /\
            along d (restEnd d a) (initialBegin d)).
  { intros a Ha. apply placed_bounds, Hplaced. by apply list_elem_of_In. }
  (* the raw layers and the nodes *)
  assert (Hmid : forall L, In L R ->
            Layer.mid L = Layer.begin L + (Layer.end_ L - Layer.begin L) / 2).
  { intros L HL. by destruct (Hlayers L HL). }
  assert (Hin : forall L a, In L R -> In a nodes ->
            layerId (properties a) = Layer.id L ->
            along d (Layer.begin L) (restBegin d a) /\
            along d (restEnd d a) (Layer.end_ L)).
  { intros L a HL Ha Hid. destruct (Hlayers L HL) as (_ & H & _).
    destruct (Hext a Ha) as [<- <-]. apply H; [by apply Hperm | exact Hid]. }
  assert (Hend : forall L b, In L R -> In b nodes ->
            (Layer.id L < layerId (properties b))%Z ->
            along d (Layer.end_ L) (restBegin d b)).
  { intros L b HL Hb' Hlt. destruct (Hlayers L HL) as (_ & _ & _ & [->|(a & Ha & Hid & ->)]).
    - by apply Hb.
    - apply Hperm in Ha. destruct (Hext a Ha) as [_ ->].
      apply Hsep; [exact Ha | exact Hb' | lia]. }
  assert (Hbegin : forall L a, In L R -> In a nodes ->
            (layerId (properties a) < Layer.id L)%Z ->
            along d (restEnd d a) (Layer.begin L)).
  { intros L a HL Ha Hlt. destruct (Hlayers L HL) as (_ & _ & [->|(b & Hb' & Hid & ->)] & _).
    - by apply Hb.
    - apply Hperm in Hb'. destruct (Hext b Hb') as [-> _].
      apply Hsep; [exact Ha | exact Hb' | lia]. }
  assert (Hoccupied : forall L, In L R -> Layer.id L <> 0%Z ->
            exists a, In a nodes /\ layerId (properties a) = Layer.id L).
  { intros L HL H0. destruct (proj1 (Hids (Layer.id L))) as [[H|[]]|(a & Ha & Hid)].
    - by apply in_map.
    - simpl in H. congruence.
    - exists a. split; [by apply Hperm | exact Hid]. }
  assert (Hfirst : forall L b, In L R -> In b nodes ->
            (0 < Layer.id L <= layerId (properties b))%Z ->
            along d (Layer.begin L) (restBegin d b)).
  { intros L b HL Hb' [H0 Hle]. destruct (Hoccupied L HL) as (a & Ha & Hid); [lia|].
    destruct (Z.eq_dec (Layer.id L) (layerId (properties b))) as [E|E].
    - apply (Hin L b HL Hb'). congruence.
    - destruct (Hin L a HL Ha Hid) as [H1 _]. destruct (Hb a Ha) as [H2 _].
      eapply along_trans; [exact H1|]. eapply along_trans; [exact H2|].
      apply Hsep; [exact Ha | exact Hb' | lia]. }
  assert (Hnonneg' : forall L, In L R -> (0 <= Layer.id L)%Z).
  { intros L HL. destruct (Z.eq_dec (Layer.id L) 0%Z) as [->|H0]; [lia|].
    destruct (Hoccupied L HL H0) as (a & Ha & <-).
    apply Hnonneg. by apply list_elem_of_In. }
  (* the layer of the node *)
  assert (HT : exists i T, R !! i = Some T /\ Layer.id T = layerId (properties n)).
  { assert (H : layerId (properties n) ∈ map Layer.id R).
    { apply list_elem_of_In, Hids. right. exists n. split; [by apply Hperm | reflexivity]. }
    apply list_elem_of_lookup in H as [i Hi]. rewrite list_lookup_fmap in Hi.
    destruct (R !! i) as [T|] eqn:HT; [|discriminate]. injection Hi as Hi. eauto. }
  destruct HT as (i & T & HT & HidT).
  assert (Hlt : forall j k rj rk, R !! j = Some rj -> R !! k = Some rk -> (j < k)%nat ->
            (Layer.id rj < Layer.id rk)%Z).
  { intros j k rj rk Hj Hk Hjk.
    apply (StronglySorted_lookup_lt (map Layer.id R) j k); [exact Hsorted | | | exact Hjk];
      rewrite list_lookup_fmap; [by rewrite Hj | by rewrite Hk]. }
  assert (Hel : forall j rj, R !! j = Some rj -> In rj R).
  { intros j rj Hj. apply list_elem_of_lookup_2 in Hj. by apply list_elem_of_In. }
  destruct (centre_at_rest d n Hsize) as [Hc0 Hc1].
  set (c := coordinateInLayoutDirection n d) in *.
  pose proof (closeLayers_length d top bottom R) as Hlen.
  pose proof (closeLayers_lookup d top bottom R) as Hlook.
  set (F := closeLayers d top bottom (joinLayers top bottom R)) in *.
  destruct (Hlook i T HT) as (Fi & HFi & HFid & _ & _ & _ & _ & _ & HFend).
  unfold getLayerOfNode. fold c.
  rewrite <- (take_drop_middle F i Fi HFi).
  rewrite (LayeredFacts.find_first (reaches d c) (take i F) Fi (drop (S i) F)).
  - by rewrite HFid, HidT.
  - apply Forall_lookup. intros j Fj HFj.
    apply lookup_take_Some in HFj as [HFj Hji].
    destruct (lookup_lt_is_Some_2 R j) as [rj Hrj];
      [apply lookup_lt_Some in HT; lia|].
    destruct (lookup_lt_is_Some_2 R (S j)) as [rk Hrk];
      [apply lookup_lt_Some in HT; lia|].
    destruct (Hlook j rj Hrj) as (Fj' & HFj' & _ & _ & _ & _ & _ & _ & HFjend).
    rewrite HFj in HFj'. injection HFj' as <-. rewrite Hrk in HFjend.
    apply reaches_before. rewrite HFjend.
    eapply along_trans; [|exact Hc0]. apply between_before.
    + apply Hend; [by eapply Hel | exact Hn|].
      rewrite <- HidT. by apply (Hlt j i).
    + apply Hfirst; [by eapply Hel | exact Hn|].
      pose proof (Hnonneg' rj (Hel _ _ Hrj)). pose proof (Hlt j (S j) rj rk Hrj Hrk).
      destruct (decide (S j = i)) as [E|E].
      * rewrite E in Hrk. rewrite HT in Hrk. injection Hrk as <-. lia.
      * pose proof (Hlt (S j) i rk T Hrk HT). lia.
  - apply reaches_beyond. rewrite HFend.
    destruct (Hin T n (Hel _ _ HT) Hn (eq_sym HidT)) as [_ HendT].
    destruct (R !! S i) as [nx|] eqn:Hnx.
    + apply (between_beyond d _ _ c (restEnd d n)); [exact Hc1 | exact HendT|].
      apply Hbegin; [by eapply Hel | exact Hn|].
      rewrite <- HidT. apply (Hlt i (S i)); [exact HT | exact Hnx | lia].
    + destruct i as [|j].
      * by apply (padded_beyond d _ c (restEnd d n)).
      * destruct (lookup_lt_is_Some_2 R j) as [rp Hrp];
          [apply lookup_lt_Some in HT; lia|].
        rewrite Hrp.
        apply (mirrored_beyond d (Layer.begin T) (Layer.end_ T) (Layer.end_ rp)
                 (Layer.mid T) c (restEnd d n));
          [by eapply Hmid, Hel | | exact HendT | exact Hc1].
        pose proof (Hlt j (S j) rp T Hrp HT) as HpT.
        destruct (Hlayers T (Hel _ _ HT)) as (_ & _ & [->|(b & Hb' & Hid & ->)] & _).
        -- destruct (Hlayers rp (Hel _ _ Hrp)) as (_ & _ & _ & [->|(a & Ha & Hida & ->)]).
           ++ destruct (Hb n Hn) as (H1 & H2 & H3).
              eapply along_trans; [exact H2|]. eapply along_trans; [exact H1 | exact H3].
           ++ apply Hperm in Ha. destruct (Hext a Ha) as [_ ->]. by apply Hb.
        -- apply Hperm in Hb'. destruct (Hext b Hb') as [-> _].
           apply Hend; [by eapply Hel | exact Hb' | lia].
Qed.

Lemma resting_node_resolves_to_own_layer_witness :
  getLayerOfNode Drag.inLayer2 []
    (snd (getLayers [Drag.inLayer1; Drag.inLayer2; Drag.otherInLayer2] RIGHT)) RIGHT
  = Some (layerId (properties Drag.inLayer2)).
Proof.
  apply resting_node_resolves_to_own_layer.
  - right. left. reflexivity.
  - repeat constructor; vm_compute; discriminate.
  - repeat constructor.
    + exists 150%Z, 20%Z. repeat split; try reflexivity; lia.
    + exists 250%Z, 20%Z. repeat split; try reflexivity; lia.
    + exists 250%Z, 20%Z. repeat split; try reflexivity; lia.
  - intros a b [<-|[<-|[<-|[]]]] [<-|[<-|[<-|[]]]] H; vm_compute in H |- *;
      discriminate.
  - vm_compute. reflexivity.
Defined.

End LayeredMore.

(** ** Further properties of the DepthMap / Region engine *)

Module DepthMapMore.
Import DepthMapEngine DepthMapFacts.

(** *** [getInstance] and [init] *)

(** [init] writes [rootRegions] and [regionMap] only. *)
Lemma forOfRootChildren_keeps cs : forall dm,
  let dm' := fst (forOfRootChildren cs dm) in
  rootElement dm' = rootElement dm /\ viewport dm' = viewport dm /\
  criticalRegions dm' = criticalRegions dm /\
  expansionState dm' = expansionState dm /\
  nodeExpansionState dm' = nodeExpansionState dm.
Proof.
  induction cs as [|node cs IH]; intros dm; simpl; [by repeat split|].
  destruct (initHelper node 0 _ _ _) as [[region' m2] [e|]]; simpl;
    [by repeat split|].
  apply (IH (withRegions (rootRegions dm ++ [region']) m2 dm)).
Qed.

Lemma init_keeps model_root dm :
  let dm' := fst (init model_root dm) in
  rootElement dm' = rootElement dm /\ viewport dm' = viewport dm /\
  criticalRegions dm' = criticalRegions dm /\
  expansionState dm' = expansionState dm /\
  nodeExpansionState dm' = nodeExpansionState dm.
Proof.
  unfold init. destruct (rootChildren model_root) as [cs|]; [|by repeat split].
  apply forOfRootChildren_keeps.
Qed.

Lemma getInstance_instance rootElement rt :
  exists dm, instance (snd (getInstance rootElement rt)) = Some dm /\
    fst (getInstance rootElement rt) = dm /\
    sameRoot (DepthMapEngine.rootElement dm) rootElement = true.
Proof.
  unfold getInstance. destruct (rebuildDue rootElement rt) eqn:Hdue.
  - pose proof (init_keeps rootElement (newDepthMap rootElement)) as (Hroot & _).
    destruct (init rootElement (newDepthMap rootElement)) as [dm [e|]];
      exists dm; simpl in *; rewrite Hroot; unfold sameRoot;
      by rewrite Nat.eqb_refl.
  - unfold rebuildDue in Hdue. destruct (instance rt) as [inst|] eqn:Hinst;
      [|discriminate].
    exists inst. simpl. rewrite Hinst. by apply negb_false_iff in Hdue.
Qed.

(** X15.  [getInstance] is idempotent: called again with the same model
    root it returns the DepthMap of the first call, does not construct or
    initialise anything and logs nothing.  This holds also where the first
    call failed to initialise the DepthMap: the failed instance is kept and
    the initialisation is not tried again. *)
Theorem getInstance_reuses_instance rootElement rt :
  getInstance rootElement (snd (getInstance rootElement rt))
  = getInstance rootElement rt.
Proof.
  destruct (getInstance_instance rootElement rt) as (dm & Hinst & Hfst & Hsame).
  destruct (getInstance rootElement rt) as [dm0 rt1]. simpl in *. subst dm0.
  unfold getInstance at 1. unfold rebuildDue. rewrite Hinst, Hsame. reflexivity.
Qed.

(** *** [expandCollapse] *)

(** X16.  [expandCollapse] returns for every DepthMap and viewport: the
    [while] loop of [checkCriticalRegions] comes to an end.  It leaves the
    model root, the region tree, the region map and the visibility buffer
    as they were, and when it returns the DepthMap holds the viewport it
    was given (the same scroll object and an equal zoom). *)
Theorem expandCollapse_returns_and_keeps_regions vp opts dm :
  exists dm',
    expandCollapse vp opts dm = Some dm' /\
    rootElement dm' = rootElement dm /\
    rootRegions dm' = rootRegions dm /\
    regionMap dm' = regionMap dm /\
    absoluteVisibilityBuffer dm' = absoluteVisibilityBuffer dm /\
    viewportUnchanged (viewport dm') vp = true.
Proof.
  unfold expandCollapse. destruct (viewportUnchanged (viewport dm) vp) eqn:Hsame.
  - exists dm. by repeat split.
  - set (dm1 := withViewport (Some (mkViewport (scroll vp) (zoom vp))) dm).
    assert (Hrecorded : viewportUnchanged (viewport dm1) vp = true).
    { apply viewportUnchanged_recorded; [reflexivity | apply Qeq_refl]. }
    destruct (criticalRegions dm1) as [|c cs] eqn:Hcrit.
    + destruct (initializeRoots_static vp (thresholdOf opts) dm1)
        as (H1 & H2 & H3 & H4 & H5).
      eexists. split; [reflexivity|]. rewrite H1, H2, H3, H4, H5. by repeat split.
    + destruct (checkCriticalRegions_terminates vp (thresholdOf opts) dm1)
        as (dm' & Hrun & H1 & H2 & H3 & H4 & H5).
      exists dm'. split; [exact Hrun|]. rewrite H1, H2, H3, H4, H5. by repeat split.
Qed.

(** X17.  In the DepthMap [getInstance] constructs no region has an
    expansion state, and there is no critical region and no viewport,
    whether or not its initialisation succeeded.  (The [expansionState]
    fields of the nodes are not part of this: neither the constructor nor
    [init] touches them.)  On such a DepthMap, whatever has been assigned to
    its regions in the meantime, the first [expandCollapse] leaves a state
    in which every expanded region with a parent has an expanded parent and
    every critical region is expanded and has a collapsed child. *)
Theorem first_expandCollapse_settles rootElement rt regions map vp opts :
  rebuildDue rootElement rt = true ->
  let dm := fst (getInstance rootElement rt) in
  expansionState dm = ∅ /\ criticalRegions dm = [] /\ viewport dm = None /\
  exists dm',
    expandCollapse vp opts (withRegions regions map dm) = Some dm' /\
    (forall q pp,
       expansionState dm' !! q = Some EXPANDED -> parentRef q = Some pp ->
       expansionState dm' !! pp = Some EXPANDED) /\
    (forall q, q ∈ criticalRegions dm' ->
       expansionState dm' !! q = Some EXPANDED /\
       exists i, expansionState dm' !! (q ++ [i]) = Some COLLAPSED).
Proof.
  intros Hdue dm.
  assert (Hdm : dm = fst (init rootElement (newDepthMap rootElement))).
  { unfold dm, getInstance. rewrite Hdue.
    by destruct (init rootElement (newDepthMap rootElement)) as [d [e|]]. }
  pose proof (init_keeps rootElement (newDepthMap rootElement))
    as (_ & Hv & Hc & He & _).
  rewrite <- Hdm in Hv, Hc, He. simpl in Hv, Hc, He.
  split; [exact He|]. split; [exact Hc|]. split; [exact Hv|].
  apply cold_start_settles; [exact He | exact Hc].
Qed.

Lemma first_expandCollapse_settles_witness :
  let dm := fst (getInstance Scenario.model (mkRuntime None [])) in
  expansionState dm = ∅ /\ criticalRegions dm = [] /\ viewport dm = None /\
  exists dm',
    expandCollapse Scenario.overview Scenario.options
      (withRegions (rootRegions Scenario.fresh) (regionMap Scenario.fresh) dm)
    = Some dm' /\
    (forall q pp,
       expansionState dm' !! q = Some EXPANDED -> parentRef q = Some pp ->
       expansionState dm' !! pp = Some EXPANDED) /\
    (forall q, q ∈ criticalRegions dm' ->
       expansionState dm' !! q = Some EXPANDED /\
       exists i, expansionState dm' !! (q ++ [i]) = Some COLLAPSED).
Proof.
  apply first_expandCollapse_settles. reflexivity.
Defined.

(** *** [setExpansionState] and [recursiveCollapseRegion] *)

Lemma OnlyCollapses_refl dm : OnlyCollapses dm dm.
Proof. split; [apply sameStatic_refl | by left | by left | auto]. Qed.

Lemma OnlyCollapses_trans a b c :
  OnlyCollapses a b -> OnlyCollapses b c -> OnlyCollapses a c.
Proof.
  intros [S1 R1 N1 C1] [S2 R2 N2 C2]. split.
  - by eapply sameStatic_trans.
  - intros q. destruct (R2 q) as [->| ->]; [apply R1 | by right].
  - intros k. destruct (N2 k) as [->| ->]; [apply N1 | by right].
  - auto.
Qed.

Lemma fold_insert_member (state : bool) (els : list KNode) (m : gmap string bool) k :
  k ∈ map id els ->
  fold_left (fun m elem => <[id elem := state]> m) els m !! k = Some state.
Proof.
  revert m. induction els as [|e els IH]; intros m Hk; simpl.
  - by apply elem_of_nil in Hk.
  - destruct (decide (k ∈ map id els)) as [Hin|Hout]; [by apply IH|].
    rewrite fold_insert_other by exact Hout.
    simpl in Hk. apply elem_of_cons in Hk as [->|Hk]; [|done].
    apply lookup_insert_eq.
Qed.

Lemma setExpansionState_written p r state dm :
  expansionState (setExpansionState p r state dm) !! p = Some state /\
  (forall e, e ∈ elements r ->
     nodeExpansionState (setExpansionState p r state dm) !! id e = Some state).
Proof.
  split; simpl; [apply lookup_insert_eq|].
  intros e He. apply fold_insert_member. by apply list_elem_of_fmap_2.
Qed.

Lemma setExpansionState_collapses p r dm :
  OnlyCollapses dm (setExpansionState p r COLLAPSED dm).
Proof.
  split; simpl.
  - repeat split.
  - intros q. destruct (decide (q = p)) as [->|Hne].
    + right. apply lookup_insert_eq.
    + left. by apply lookup_insert_ne.
  - intros k. destruct (decide (k ∈ map id (elements r))) as [Hin|Hout].
    + right. by apply fold_insert_member.
    + left. by apply fold_insert_other.
  - auto.
Qed.

Lemma setDelete_collapses q dm :
  OnlyCollapses dm (withCritical (setDelete q (criticalRegions dm)) dm).
Proof.
  split; simpl; [repeat split | by left | by left |].
  intros x Hx. by apply elem_of_setDelete in Hx as [_ Hx].
Qed.

Lemma forEachFrom_collapses callback cs :
  Forall (fun c => forall i dm, OnlyCollapses dm (callback i c dm)) cs ->
  forall i dm, OnlyCollapses dm (forEachFrom callback i cs dm).
Proof.
  induction 1 as [|c cs Hc _ IH]; intros i dm; simpl; [apply OnlyCollapses_refl|].
  eapply OnlyCollapses_trans; [apply Hc | apply IH].
Qed.

Lemma recursiveCollapseRegion_collapses r :
  forall p dm, OnlyCollapses dm (recursiveCollapseRegion p r dm).
Proof.
  induction r as [br els cs ab IH] using Region_ind'. intros p dm. simpl.
  eapply OnlyCollapses_trans; [eapply OnlyCollapses_trans|].
  - apply (setExpansionState_collapses p (mkRegion br els cs ab)).
  - apply setDelete_collapses.
  - apply forEachFrom_collapses.
    eapply Forall_impl; [exact IH|]. intros c Hc i dm'. simpl.
    destruct (expansionState dm' !! (p ++ [i])) as [[|]|];
      [apply Hc | apply OnlyCollapses_refl | apply OnlyCollapses_refl].
Qed.

Lemma recursiveCollapseRegion_top p region dm :
  expansionState (recursiveCollapseRegion p region dm) !! p = Some COLLAPSED /\
  (p ∉ criticalRegions (recursiveCollapseRegion p region dm)) /\
  (forall e, e ∈ elements region ->
     nodeExpansionState (recursiveCollapseRegion p region dm) !! id e = Some COLLAPSED).
Proof.
  destruct region as [br els cs ab]. simpl.
  set (dm2 := withCritical _ _).
  match goal with |- expansionState ?d !! p = _ /\ _ =>
    assert (Hloop : OnlyCollapses dm2 d) end.
  { apply forEachFrom_collapses. apply Forall_forall. intros c _ i dm'.
    destruct (expansionState dm' !! (p ++ [i])) as [[|]|];
      [apply recursiveCollapseRegion_collapses | apply OnlyCollapses_refl
       | apply OnlyCollapses_refl]. }
  split; [|split].
  - assert (H2 : expansionState dm2 !! p = Some COLLAPSED) by apply lookup_insert_eq.
    destruct (collapses_regions _ _ Hloop p) as [->| ->]; [exact H2 | reflexivity].
  - intros Hin. apply (collapses_critical _ _ Hloop) in Hin.
    unfold dm2 in Hin. simpl in Hin. apply elem_of_setDelete in Hin as [Hne _].
    by apply Hne.
  - intros e He.
    assert (H2 : nodeExpansionState dm2 !! id e = Some COLLAPSED).
    { unfold dm2. simpl. apply fold_insert_member. by apply list_elem_of_fmap_2. }
    destruct (collapses_nodes _ _ Hloop (id e)) as [->| ->]; [exact H2 | reflexivity].
Qed.

(** X18.  [recursiveCollapseRegion] expands nothing.  When it returns, the
    region is [COLLAPSED] and is not a critical region, and all its
    elements are [COLLAPSED]; every other region and element has the state
    it had before or is [COLLAPSED]; no region has been added to
    [criticalRegions]; and nothing outside the region's subtree has been
    written. *)
Theorem recursiveCollapseRegion_only_collapses p region dm :
  let dm' := recursiveCollapseRegion p region dm in
  expansionState dm' !! p = Some COLLAPSED /\
  (p ∉ criticalRegions dm') /\
  (forall e, e ∈ elements region -> nodeExpansionState dm' !! id e = Some COLLAPSED) /\
  OnlyCollapses dm dm' /\
  (forall q, ~ below p q -> expansionState dm' !! q = expansionState dm !! q) /\
  (forall k, k ∉ subtreeElementIds region ->
     nodeExpansionState dm' !! k = nodeExpansionState dm !! k).
Proof.
  cbv zeta.
  destruct (recursiveCollapseRegion_top p region dm) as (Htop & Hcrit & Hels).
  pose proof (recursiveCollapseRegion_collapses region p dm) as Hall.
  pose proof (recursiveCollapseRegion_frame region p dm) as [_ Hregions Hnodes _].
  auto 10.
Qed.

(** *** [searchUntilCollapse] *)

Lemma KeepsCritical_refl R dm : KeepsCritical R dm dm.
Proof. by intros q _ Hq. Qed.

Lemma KeepsCritical_trans R a b c :
  KeepsCritical R a b -> KeepsCritical R b c -> KeepsCritical R a c.
Proof. intros H1 H2 q Hq Hin. apply H2; [exact Hq|]. by apply H1. Qed.

Lemma KeepsCritical_weaken (R R' : RegionRef -> Prop) a b :
  (forall q, R' q -> R q) -> KeepsCritical R' a b -> KeepsCritical R a b.
Proof. intros Hsub H q Hq. apply H. intros Hq'. by apply Hq, Hsub. Qed.

Lemma forEachFrom_keeps R callback cs :
  Forall (fun c => forall i dm, KeepsCritical R dm (callback i c dm)) cs ->
  forall i dm, KeepsCritical R dm (forEachFrom callback i cs dm).
Proof.
  induction 1 as [|c cs Hc _ IH]; intros i dm; simpl; [apply KeepsCritical_refl|].
  eapply KeepsCritical_trans; [apply Hc | apply IH].
Qed.

Lemma recursiveCollapseRegion_keeps r :
  forall p dm, KeepsCritical (below p) dm (recursiveCollapseRegion p r dm).
Proof.
  induction r as [br els cs ab IH] using Region_ind'. intros p dm. simpl.
  eapply KeepsCritical_trans; cycle 1.
  - apply forEachFrom_keeps.
    eapply Forall_impl; [exact IH|]. intros c Hc i dm'. simpl.
    destruct (expansionState dm' !! (p ++ [i])) as [[|]|];
      try apply KeepsCritical_refl.
    eapply KeepsCritical_weaken; [|apply Hc]. apply below_snoc.
  - intros q Hq Hin. simpl. apply elem_of_setDelete. split; [|exact Hin].
    intros ->. apply Hq. apply below_refl.
Qed.

(** The regions properly below [p]. *)
Local Abbreviation under p := (fun q : RegionRef => exists i : nat, below (p ++ [i]) q).

Lemma under_snoc (p : RegionRef) i q : under (p ++ [i]) q -> under p q.
Proof. intros [j Hj]. exists i. by eapply below_snoc. Qed.

Lemma not_under_self (p : RegionRef) : ~ under p p.
Proof. intros [i Hi]. by apply not_below_self in Hi. Qed.

Lemma searchUntilCollapse_keeps vp threshold r :
  forall p dm, KeepsCritical (under p) dm (searchUntilCollapse vp threshold p r dm).
Proof.
  induction r as [br els cs ab IH] using Region_ind'. intros p dm. simpl.
  eapply KeepsCritical_trans; cycle 1.
  - apply forEachFrom_keeps.
    eapply Forall_impl; [exact IH|]. intros c Hc i dm'. simpl.
    destruct (boundingRectangle c); [|apply KeepsCritical_refl].
    destruct (getExpansionState dm' c vp threshold).
    + eapply KeepsCritical_weaken; [|apply Hc]. intros q Hq.
      exists i. destruct Hq as [j Hj]. by eapply below_snoc.
    + eapply KeepsCritical_trans; cycle 1.
      * eapply KeepsCritical_weaken; [|apply recursiveCollapseRegion_keeps].
        intros q Hq. by exists i.
      * intros q _ Hin. simpl. apply elem_of_setAdd. by right.
  - by intros q _ Hin.
Qed.

(** The loop over the children in [searchUntilCollapse]. *)
Local Abbreviation searchChildren vp threshold p :=
  (forEachFrom
     (fun (i : nat) (childRegion : Region) (dm : DepthMap) =>
        match boundingRectangle childRegion with
        | Some _ =>
            if getExpansionState dm childRegion vp threshold
            then searchUntilCollapse vp threshold (p ++ [i]) childRegion dm
            else recursiveCollapseRegion (p ++ [i]) childRegion
                   (withCritical (setAdd p (criticalRegions dm)) dm)
        | None => dm
        end)).

Lemma searchChildren_outside vp threshold p cs : forall i dm q,
  (forall k, (i <= k)%nat -> ~ below (p ++ [k]) q) ->
  expansionState (searchChildren vp threshold p i cs dm) !! q = expansionState dm !! q.
Proof.
  induction cs as [|c cs IH]; intros i dm q Hq; simpl; [reflexivity|].
  rewrite IH by (intros k Hk; apply Hq; lia).
  assert (Hi : ~ below (p ++ [i]) q) by (apply Hq; lia).
  destruct (boundingRectangle c); [|reflexivity].
  destruct (getExpansionState dm c vp threshold).
  - by apply (frame_regions _ _ _ _ (searchUntilCollapse_frame vp threshold c (p ++ [i]) dm)).
  - by rewrite (frame_regions _ _ _ _
                  (recursiveCollapseRegion_frame c (p ++ [i])
                     (withCritical (setAdd p (criticalRegions dm)) dm))).
Qed.

Lemma searchUntilCollapse_top vp threshold p r dm :
  expansionState (searchUntilCollapse vp threshold p r dm) !! p = Some EXPANDED.
Proof.
  destruct r as [br els cs ab]. simpl.
  rewrite (searchChildren_outside vp threshold p cs 0)
    by (intros k _; apply not_below_self).
  apply lookup_insert_eq.
Qed.

Lemma below_sibling (p : RegionRef) i k : below (p ++ [k]) (p ++ [i]) -> k = i.
Proof.
  intros H. apply (below_children_disjoint p k i (p ++ [i])); [exact H | apply below_refl].
Qed.

Lemma searchChildren_decides vp threshold p dm0 cs : forall i dm,
  sameStatic dm0 dm ->
  (forall j c, cs !! j = Some c -> boundingRectangle c <> None ->
     expansionState (searchChildren vp threshold p i cs dm) !! (p ++ [(i + j)%nat])
     = Some (getExpansionState dm0 c vp threshold)) /\
  (p ∈ criticalRegions dm \/
   (exists j c, cs !! j = Some c /\ boundingRectangle c <> None /\
      getExpansionState dm0 c vp threshold = COLLAPSED) ->
   p ∈ criticalRegions (searchChildren vp threshold p i cs dm)).
Proof.
  induction cs as [|c cs IH]; intros i dm Hstatic.
  - split; [intros j c Hj; destruct j; discriminate Hj|].
    intros [H|(j & c & Hj & _)]; [exact H | destruct j; discriminate Hj].
  - cbn [forEachFrom].
    set (dm1 := match boundingRectangle c with Some _ => _ | None => dm end).
    assert (Hdecision : getExpansionState dm c vp threshold
                        = getExpansionState dm0 c vp threshold)
      by (by apply getExpansionState_static).
    assert (Hstatic1 : sameStatic dm0 dm1).
    { eapply sameStatic_trans; [exact Hstatic|]. unfold dm1.
      destruct (boundingRectangle c); [|apply sameStatic_refl].
      destruct (getExpansionState dm c vp threshold).
      - apply searchUntilCollapse_static.
      - eapply sameStatic_trans; [|apply recursiveCollapseRegion_static].
        repeat split. }
    assert (Hkeep : p ∈ criticalRegions dm -> p ∈ criticalRegions dm1).
    { intros Hin. unfold dm1. destruct (boundingRectangle c); [|exact Hin].
      destruct (getExpansionState dm c vp threshold).
      - apply (searchUntilCollapse_keeps vp threshold c (p ++ [i]) dm); [|exact Hin].
        intros Hu. apply under_snoc in Hu. by apply not_under_self in Hu.
      - apply (recursiveCollapseRegion_keeps c (p ++ [i])); [apply not_below_self|].
        simpl. apply elem_of_setAdd. by right. }
    destruct (IH (S i) dm1 Hstatic1) as [IHstate IHcrit].
    split.
    + intros [|j] c' Hj Hbr.
      * injection Hj as <-. rewrite Nat.add_0_r.
        rewrite searchChildren_outside
          by (intros k Hk Hb; apply below_sibling in Hb; lia).
        unfold dm1. destruct (boundingRectangle c); [|done].
        rewrite Hdecision. destruct (getExpansionState dm0 c vp threshold).
        -- apply searchUntilCollapse_top.
        -- apply recursiveCollapseRegion_top.
      * replace (i + S j)%nat with (S i + j)%nat by lia. by apply IHstate.
    + intros [Hin|(j & c' & Hj & Hbr & Hcollapsed)]; apply IHcrit.
      * left. by apply Hkeep.
      * destruct j as [|j]; [|right; eauto].
        injection Hj as <-. left. unfold dm1.
        destruct (boundingRectangle c); [|done].
        rewrite Hdecision, Hcollapsed.
        apply (recursiveCollapseRegion_keeps c (p ++ [i])); [apply not_below_self|].
        simpl. apply elem_of_setAdd. by left.
Qed.

(** X19.  [searchUntilCollapse] leaves the region [EXPANDED] and gives
    every child region that has a bounding rectangle the state
    [getExpansionState] decides for it; if that is [COLLAPSED] for one of
    them, the region is a critical region afterwards. *)
Theorem searchUntilCollapse_decides_children vp threshold p region dm :
  let dm' := searchUntilCollapse vp threshold p region dm in
  expansionState dm' !! p = Some EXPANDED /\
  (forall i c, regionChildren region !! i = Some c -> boundingRectangle c <> None ->
     expansionState dm' !! (p ++ [i])
     = Some (getExpansionState dm c vp threshold)) /\
  ((exists i c, regionChildren region !! i = Some c /\ boundingRectangle c <> None /\
      getExpansionState dm c vp threshold = COLLAPSED) ->
   p ∈ criticalRegions dm').
Proof.
  cbv zeta. split; [apply searchUntilCollapse_top|].
  destruct region as [br els cs ab]. cbn [searchUntilCollapse regionChildren].
  set (dm1 := setExpansionState p _ true dm).
  destruct (searchChildren_decides vp threshold p dm cs 0 dm1) as [Hstate Hcrit];
    [repeat split|].
  split; [exact Hstate|]. intros H. apply Hcrit. by right.
Qed.

(** *** Construction of the region tree *)

Lemma forOfChildren_ok visit (okb : KNode -> bool) cs :
  Forall (fun c => forall depth p region m,
            snd (visit c depth p region m) = None <-> okb c = true) cs ->
  forall depth p region m,
    snd (forOfChildren visit depth p cs region m) = None <->
    forallb (fun c => testable c && okb c) cs = true.
Proof.
  induction 1 as [|c cs Hc _ IH]; intros depth p region m; [done|].
  cbn [forOfChildren forallb]. unfold testable.
  destruct (startsRegion c) as [e|[|]]; cbn [andb].
  - split; discriminate.
  - cbn [addRegionToMap newRegion boundingRectangle].
    specialize (Hc (S depth) (p ++ [length (regionChildren (pushElement c region))])
                  (mkRegion (Some c) [] [] None)
                  (<[id c := p ++ [length (regionChildren (pushElement c region))]]> m)).
    destruct (visit c (S depth) _ _ _) as [[r' m2] [e|]]; cbn [snd] in Hc |- *.
    + destruct (okb c); [by destruct Hc as [_ Hc]; specialize (Hc eq_refl)|].
      split; discriminate.
    + destruct Hc as [Hc _]. rewrite (Hc eq_refl). apply IH.
  - specialize (Hc depth p (pushElement c region) m).
    destruct (visit c depth p _ m) as [[r' m2] [e|]]; cbn [snd] in Hc |- *.
    + destruct (okb c); [by destruct Hc as [_ Hc]; specialize (Hc eq_refl)|].
      split; discriminate.
    + destruct Hc as [Hc _]. rewrite (Hc eq_refl). apply IH.
Qed.

Lemma initHelper_ok node :
  forall depth p region m,
    snd (initHelper node depth p region m) = None <-> traversable node = true.
Proof.
  induction node as [i b d|i b d l IH] using KNode_ind'; intros depth p region m.
  - simpl. split; discriminate.
  - cbn [initHelper traversable children].
    apply (forOfChildren_ok _ traversable). exact IH.
Qed.

Lemma forOfChildren_bounding visit cs :
  Forall (fun c => forall depth p region m,
            boundingRectangle (fst (fst (visit c depth p region m)))
            = boundingRectangle region) cs ->
  forall depth p region m,
    boundingRectangle (fst (fst (forOfChildren visit depth p cs region m)))
    = boundingRectangle region.
Proof.
  induction 1 as [|c cs Hc _ IH]; intros depth p region m; [done|].
  cbn [forOfChildren].
  destruct (startsRegion c) as [e|[|]]; [reflexivity| |].
  - cbn [addRegionToMap newRegion boundingRectangle].
    destruct (visit c (S depth) _ _ _) as [[r' m2] [e|]]; [reflexivity|].
    by rewrite IH.
  - specialize (Hc depth p (pushElement c region) m).
    destruct (visit c depth p _ m) as [[r' m2] [e|]]; cbn [fst] in Hc |- *;
      [exact Hc|].
    by rewrite IH, Hc.
Qed.

Lemma initHelper_bounding node :
  forall depth p region m,
    boundingRectangle (fst (fst (initHelper node depth p region m)))
    = boundingRectangle region.
Proof.
  induction node as [i b d|i b d l IH] using KNode_ind'; intros depth p region m;
    [reflexivity|].
  cbn [initHelper children]. apply forOfChildren_bounding. exact IH.
Qed.

Lemma forOfRootChildren_ok cs : forall dm,
  (snd (forOfRootChildren cs dm) = None <-> forallb traversable cs = true) /\
  (snd (forOfRootChildren cs dm) = None ->
   map boundingRectangle (rootRegions (fst (forOfRootChildren cs dm)))
   = map boundingRectangle (rootRegions dm) ++ map Some cs).
Proof.
  induction cs as [|node cs IH]; intros dm.
  - simpl. by rewrite app_nil_r.
  - cbn [forOfRootChildren forallb addRegionToMap newRegion boundingRectangle].
    pose proof (initHelper_ok node 0 [length (rootRegions dm)]
                  (mkRegion (Some node) [] [] None)
                  (<[id node := [length (rootRegions dm)]]> (regionMap dm))) as Hok.
    pose proof (initHelper_bounding node 0 [length (rootRegions dm)]
                  (mkRegion (Some node) [] [] None)
                  (<[id node := [length (rootRegions dm)]]> (regionMap dm))) as Hbr.
    destruct (initHelper node 0 _ _ _) as [[region' m2] [e|]];
      cbn [snd fst boundingRectangle] in Hok, Hbr |- *.
    + destruct (traversable node); [by destruct Hok as [_ Hok]; specialize (Hok eq_refl)|].
      split; [split; discriminate | discriminate].
    + destruct Hok as [Hok _]. rewrite (Hok eq_refl). cbn [andb].
      destruct (IH (withRegions (rootRegions dm ++ [region']) m2 dm)) as [IH1 IH2].
      split; [exact IH1|]. intros Hnone. rewrite (IH2 Hnone). simpl.
      rewrite map_app, <- app_assoc. simpl. by rewrite Hbr.
Qed.

(** X20.  [init] runs to its end exactly on a model that can be traversed:
    the model root and every node below it have a [children] array, and
    every node below the root's children has a [data] array whose leading
    rectangle, if there is one, has a [children] array.  [getInstance] then
    logs the success, and the DepthMap has one root region for every child
    of the model root, in their order, each bounded by that child. *)
Theorem init_succeeds_iff_traversable model_root :
  (forall dm, snd (init model_root dm) = None <-> traversableModel model_root = true) /\
  (forall rt, rebuildDue model_root rt = true ->
     console (snd (getInstance model_root rt)) =
     console rt ++ ["Starting reinizialization of DepthMap";
                    if traversableModel model_root then "Reinizialized DepthMap"
                    else "Failed to initialize DepthMap"]) /\
  (forall cs, rootChildren model_root = Some cs -> traversableModel model_root = true ->
     map boundingRectangle (rootRegions (fst (init model_root (newDepthMap model_root))))
     = map Some cs).
Proof.
  assert (Hinit : forall dm,
            snd (init model_root dm) = None <-> traversableModel model_root = true).
  { intros dm. unfold init, traversableModel.
    destruct (rootChildren model_root) as [cs|]; [|split; discriminate].
    apply forOfRootChildren_ok. }
  split; [exact Hinit|]. split.
  - intros rt Hdue. unfold getInstance. rewrite Hdue.
    specialize (Hinit (newDepthMap model_root)).
    destruct (init model_root (newDepthMap model_root)) as [dm [e|]];
      cbn [snd console consoleLog] in Hinit |- *.
    + destruct (traversableModel model_root);
        [by destruct Hinit as [_ Hinit]; specialize (Hinit eq_refl)|].
      by rewrite <- app_assoc.
    + destruct Hinit as [Hinit _]. rewrite (Hinit eq_refl). by rewrite <- app_assoc.
  - intros cs Hcs Hok. apply (Hinit (newDepthMap model_root)) in Hok.
    unfold init in *. rewrite Hcs in *.
    by apply (forOfRootChildren_ok cs (newDepthMap model_root)) in Hok.
Qed.

(** *** [getRegion] and [findRegionWithElement] *)

(** X21.  [findRegionWithElement] returns the region registered for the
    node itself or, failing that, for the nearest of its ancestors that has
    one; it returns [undefined] exactly if neither the node nor any of its
    ancestors bounds a region of the region map. *)
Theorem findRegionWithElement_nearest dm chain :
  match findRegionWithElement dm chain with
  | Some region =>
      exists nearer current further,
        chain = nearer ++ current :: further /\
        Forall (fun k => getRegion dm k = None) nearer /\
        getRegion dm current = Some region
  | None => Forall (fun k => getRegion dm k = None) chain
  end.
Proof.
  induction chain as [|current parents IH]; simpl; [constructor|].
  destruct (getRegion dm current) as [region|] eqn:Hcur.
  - exists [], current, parents. by repeat split.
  - destruct (findRegionWithElement dm parents) as [region|].
    + destruct IH as (nearer & k & further & -> & Hnone & Hk).
      exists (current :: nearer), k, further. split; [reflexivity|].
      split; [by constructor | exact Hk].
    + by constructor.
Qed.

Lemma pointsTo_app rs more path k : pointsTo rs path k -> pointsTo (rs ++ more) path k.
Proof.
  intros (r & br & Hat & Hbr & Hid). exists r, br. split; [|auto].
  destruct path as [|i q]; [discriminate Hat|]. simpl in *.
  destruct (nth_error rs i) as [r0|] eqn:Hi; [|discriminate].
  rewrite nth_error_app1 by (apply nth_error_Some; congruence).
  by rewrite Hi.
Qed.

Lemma regionAt_snoc rs r q :
  regionAt (rs ++ [r]) (length rs :: q) =
  match q with [] => Some r | _ => regionAt (regionChildren r) q end.
Proof.
  simpl. rewrite nth_error_app2 by lia. by rewrite Nat.sub_diag.
Qed.

Lemma Registers_refl p region m e : Registers p region m (region, m, e).
Proof.
  split; [exists []; by rewrite app_nil_r|]. split; [reflexivity|].
  intros k path H. by left.
Qed.

Lemma Registers_trans p region m region1 m1 e1 b :
  Registers p region m (region1, m1, e1) -> Registers p region1 m1 b ->
  Registers p region m b.
Proof.
  intros ([a1 H1] & Hb1 & Hm1) ([a2 H2] & Hb2 & Hm2). simpl in *.
  split; [exists (a1 ++ a2); by rewrite H2, H1, app_assoc|].
  split; [congruence|].
  intros k path Hk. destruct (Hm2 k path Hk) as [Hold|Hnew]; [|by right].
  destruct (Hm1 k path Hold) as [Hold'|(i & q & -> & Hpt)]; [by left|].
  right. exists i, q. split; [reflexivity|]. rewrite H2. by apply pointsTo_app.
Qed.

Lemma forOfChildren_registers visit cs :
  Forall (fun c => forall depth p region m,
            Registers p region m (visit c depth p region m)) cs ->
  forall depth p region m,
    Registers p region m (forOfChildren visit depth p cs region m).
Proof.
  induction 1 as [|c cs Hc _ IH]; intros depth p region m;
    [apply Registers_refl|].
  cbn [forOfChildren].
  assert (Hpush : forall e, Registers p region m (pushElement c region, m, e)).
  { intros e. split; [exists []; simpl; by rewrite app_nil_r|].
    split; [reflexivity|]. intros k path Hk. by left. }
  destruct (startsRegion c) as [e|[|]]; [apply Hpush| |].
  - cbn [addRegionToMap newRegion boundingRectangle].
    set (n := length (regionChildren (pushElement c region))).
    specialize (Hc (S depth) (p ++ [n]) (mkRegion (Some c) [] [] None)
                  (<[id c := p ++ [n]]> m)).
    destruct (visit c (S depth) _ _ _) as [[next' m2] err].
    destruct Hc as (_ & Hbr & Hm). simpl in Hbr, Hm.
    assert (Hstep : Registers p region m
                      (addChild next' (pushElement c region), m2, err)).
    { split; [exists [next']; reflexivity|]. split; [reflexivity|].
      intros k path Hk. simpl in Hk.
      destruct (Hm k path Hk) as [Hold|(i & q & -> & r & br & Hat & Hr & Hid)].
      - apply lookup_insert_Some in Hold as [[<- <-]|[_ Hold]]; [|by left].
        right. exists n, []. split; [reflexivity|].
        exists next', c. split; [apply (regionAt_snoc _ next' [])|]. auto.
      - right. exists n, (i :: q). split; [by rewrite <- app_assoc|].
        exists r, br. split; [|auto].
        cbn [fst addChild regionChildren]. fold n.
        change (regionChildren (pushElement c region)) with (regionChildren region).
        unfold n. simpl. rewrite nth_error_app2 by lia. rewrite Nat.sub_diag.
        exact Hat. }
    destruct err as [e|]; [exact Hstep|].
    eapply Registers_trans; [exact Hstep | apply IH].
  - specialize (Hc depth p (pushElement c region) m).
    destruct (visit c depth p _ m) as [[region2 m2] err].
    assert (Hstep : Registers p region m (region2, m2, err))
      by (eapply Registers_trans; [apply (Hpush None) | exact Hc]).
    destruct err as [e|]; [exact Hstep|].
    eapply Registers_trans; [exact Hstep | apply IH].
Qed.

Lemma initHelper_registers node :
  forall depth p region m, Registers p region m (initHelper node depth p region m).
Proof.
  induction node as [i b d|i b d l IH] using KNode_ind'; intros depth p region m;
    [apply Registers_refl|].
  cbn [initHelper children]. apply forOfChildren_registers. exact IH.
Qed.

Lemma forOfRootChildren_registers cs : forall dm,
  (forall k path, regionMap dm !! k = Some path -> pointsTo (rootRegions dm) path k) ->
  forall k path,
    regionMap (fst (forOfRootChildren cs dm)) !! k = Some path ->
    pointsTo (rootRegions (fst (forOfRootChildren cs dm))) path k.
Proof.
  induction cs as [|node cs IH]; intros dm Hdm; [exact Hdm|].
  cbn [forOfRootChildren addRegionToMap newRegion boundingRectangle].
  pose proof (initHelper_registers node 0 [length (rootRegions dm)]
                (mkRegion (Some node) [] [] None)
                (<[id node := [length (rootRegions dm)]]> (regionMap dm)))
    as (_ & Hbr & Hm).
  destruct (initHelper node 0 _ _ _) as [[region' m2] err]. simpl in Hbr, Hm.
  assert (Hstep : forall k path, m2 !! k = Some path ->
            pointsTo (rootRegions dm ++ [region']) path k).
  { intros k path Hk.
    destruct (Hm k path Hk) as [Hold|(i & q & -> & r & br & Hat & Hr & Hid)].
    - apply lookup_insert_Some in Hold as [[<- <-]|[_ Hold]].
      + exists region', node. split; [apply (regionAt_snoc _ region' [])|]. auto.
      + apply pointsTo_app. by apply Hdm.
    - exists r, br. split; [|auto].
      change ([length (rootRegions dm)] ++ i :: q)
        with (length (rootRegions dm) :: i :: q).
      rewrite regionAt_snoc. exact Hat. }
  destruct err as [e|]; [exact Hstep|].
  apply IH. exact Hstep.
Qed.

(** X22.  The region map that [getInstance] builds is consistent with the
    region tree: whatever [getRegion] returns for an id is a region of the
    tree under [rootRegions], and its bounding rectangle has that id.  This
    holds also for the part of the map that a failed initialisation leaves
    behind. *)
Theorem getRegion_finds_bounded_region rootElement rt k path :
  rebuildDue rootElement rt = true ->
  getRegion (fst (getInstance rootElement rt)) k = Some path ->
  exists region br,
    regionAt (rootRegions (fst (getInstance rootElement rt))) path = Some region /\
    boundingRectangle region = Some br /\ id br = k.
Proof.
  intros Hdue.
  assert (Hdm : fst (getInstance rootElement rt)
                = fst (init rootElement (newDepthMap rootElement))).
  { unfold getInstance. rewrite Hdue.
    by destruct (init rootElement (newDepthMap rootElement)) as [d [e|]]. }
  rewrite Hdm. unfold getRegion, init.
  destruct (rootChildren rootElement) as [cs|];
    [|intros H; simpl in H; by rewrite lookup_empty in H].
  apply forOfRootChildren_registers. intros k' path' H.
  simpl in H. by rewrite lookup_empty in H.
Qed.

Lemma getRegion_finds_bounded_region_witness :
  exists region br,
    regionAt (rootRegions (fst (getInstance Scenario.model (mkRuntime None []))))
      [0; 0; 0]%nat = Some region /\
    boundingRectangle region = Some br /\ id br = "c".
Proof.
  apply getRegion_finds_bounded_region; vm_compute; reflexivity.
Defined.

(** *** Visibility and size under zoom *)

Lemma scaled_le (w z z' W : Q) :
  (0 <= w -> 0 < W -> z <= z' -> w * z / W <= w * z' / W)%Q.
Proof.
  intros Hw HW Hz. unfold Qdiv.
  apply Qmult_le_compat_r; [|apply Qlt_le_weak; by apply Qinv_lt_0_compat].
  rewrite (Qmult_comm w z), (Qmult_comm w z'). by apply Qmult_le_compat_r.
Qed.

Lemma div_antitone (W z z' : Q) :
  (0 <= W -> 0 < z' -> z' <= z -> W / z <= W / z')%Q.
Proof.
  intros HW Hz' Hz. assert (Hz0 : (0 < z)%Q) by lra.
  apply Qle_shift_div_r; [exact Hz0|].
  assert (Hq : (W / z' * z' == W)%Q)
    by (rewrite Qmult_comm; apply Qmult_div_r; lra).
  assert ((0 <= W / z')%Q) by (apply Qle_shift_div_l; lra).
  rewrite <- Hq at 1. rewrite !(Qmult_comm (W / z')). by apply Qmult_le_compat_r.
Qed.

(** X23.  Zooming in never collapses a region that stays visible: on a
    canvas of positive size and for a bounding rectangle of non-negative
    size, a region that [getExpansionState] expands at one zoom level is
    expanded at every higher zoom level at which [isVisible] holds. *)
Theorem zooming_in_keeps_expanded dm region vp vp' threshold :
  (0 < width (canvasBounds (rootElement dm)))%Q ->
  (0 < height (canvasBounds (rootElement dm)))%Q ->
  (forall br, boundingRectangle region = Some br ->
     (0 <= width (bounds br))%Q /\ (0 <= height (bounds br))%Q) ->
  (zoom vp <= zoom vp')%Q ->
  isVisible dm region vp' = true ->
  getExpansionState dm region vp threshold = EXPANDED ->
  getExpansionState dm region vp' threshold = EXPANDED.
Proof.
  intros HW HH Hsize Hzoom Hvisible. unfold getExpansionState. rewrite Hvisible.
  destruct (isVisible dm region vp); [|discriminate]. cbn [negb].
  destruct (boundingRectangle region) as [br|]; [|reflexivity].
  destruct (Hsize br eq_refl) as [Hw Hh].
  destruct (Qgeb (sizeInViewport (rootElement dm) br vp) threshold
            || Qgeb (zoom vp) 1) eqn:E; [intros _|discriminate].
  assert (Hgoal : Qgeb (sizeInViewport (rootElement dm) br vp') threshold
                  || Qgeb (zoom vp') 1 = true); [|by rewrite Hgoal].
  apply orb_true_iff in E. apply orb_true_iff.
  destruct E as [E|E]; [left|right]; apply Qgeb_ge in E; apply Qgeb_ge.
  - eapply Qle_trans; [exact E|].
    rewrite !sizeInViewport_max. apply Q.max_le_compat; by apply scaled_le.
  - eapply Qle_trans; eauto.
Qed.

Lemma zooming_in_keeps_expanded_witness :
  getExpansionState Scenario.fresh (newRegion Scenario.nodeP)
    (mkViewport (mkPoint 1 0 0) 1) (thresholdOf Scenario.options) = EXPANDED.
Proof.
  apply (zooming_in_keeps_expanded Scenario.fresh (newRegion Scenario.nodeP)
           Scenario.overview).
  - reflexivity.
  - reflexivity.
  - intros br [= <-]. split; discriminate.
  - discriminate.
  - reflexivity.
  - vm_compute. reflexivity.
Defined.

(** X24.  Zooming out never hides a region: at an unchanged scroll
    position, a region that [isVisible] reports visible stays visible at
    every lower (positive) zoom level. *)
Theorem zooming_out_keeps_visible dm region vp vp' :
  (0 <= width (canvasBounds (rootElement dm)))%Q ->
  (0 <= height (canvasBounds (rootElement dm)))%Q ->
  (px (scroll vp') == px (scroll vp))%Q -> (py (scroll vp') == py (scroll vp))%Q ->
  (0 < zoom vp')%Q -> (zoom vp' <= zoom vp)%Q ->
  isVisible dm region vp = true -> isVisible dm region vp' = true.
Proof.
  intros HW HH Hx Hy Hpos Hzoom. unfold isVisible.
  destruct (absoluteBounds region) as [ab|]; [|reflexivity].
  rewrite !andb_true_iff. unfold Qgeb. rewrite !Qle_bool_iff.
  pose proof (div_antitone _ _ _ HW Hpos Hzoom).
  pose proof (div_antitone _ _ _ HH Hpos Hzoom).
  intros [[[H1 H2] H3] H4]. repeat split; lra.
Qed.

Lemma zooming_out_keeps_visible_witness :
  isVisible Scenario.fresh
    (mkRegion (Some Scenario.nodeG) [] [] (Some (mkBounds 0 0 1000 1000)))
    Scenario.overview = true.
Proof.
  apply (zooming_out_keeps_visible Scenario.fresh _ (mkViewport (mkPoint 1 0 0) 1));
    try discriminate; reflexivity.
Defined.

(** *** What [expandCollapse] expands *)

Section Tested.
Context (vp : Viewport) (threshold : Q).

Lemma ExpandsOnlyTested_refl dm : ExpandsOnlyTested vp threshold dm dm.
Proof. split; [apply sameStatic_refl | intros q Hq; by left]. Qed.

Lemma ExpandsOnlyTested_trans a b c :
  ExpandsOnlyTested vp threshold a b -> ExpandsOnlyTested vp threshold b c ->
  ExpandsOnlyTested vp threshold a c.
Proof.
  intros [S1 E1] [S2 E2]. split; [by eapply sameStatic_trans|].
  intros q Hq. destruct (E2 q Hq) as [Hb|(r & Hat & Ht)]; [by apply E1|].
  right. exists r. pose proof S1 as (_ & Hroots & _). rewrite Hroots in Hat.
  split; [exact Hat|].
  by rewrite <- (getExpansionState_static a b r vp threshold S1).
Qed.

Lemma ExpandsOnlyTested_unwritten dm dm' :
  sameStatic dm dm' -> expansionState dm' = expansionState dm ->
  ExpandsOnlyTested vp threshold dm dm'.
Proof. intros Hs He. split; [exact Hs|]. intros q Hq. left. by rewrite <- He. Qed.

Lemma ExpandsOnlyTested_collapses dm dm' :
  OnlyCollapses dm dm' -> ExpandsOnlyTested vp threshold dm dm'.
Proof.
  intros [Hs Hr _ _]. split; [exact Hs|]. intros q Hq. left.
  destruct (Hr q) as [<-|H]; [exact Hq | rewrite H in Hq; discriminate].
Qed.

Lemma nth_error_is_lookup {A} (l : list A) i : nth_error l i = l !! i.
Proof. revert i. induction l as [|a l IH]; intros [|i]; simpl; auto. Qed.

Lemma regionAt_child rs p r i :
  regionAt rs p = Some r -> regionAt rs (p ++ [i]) = nth_error (regionChildren r) i.
Proof.
  revert rs. induction p as [|j p IH]; intros rs Hat; [discriminate Hat|].
  simpl in *. destruct (nth_error rs j) as [r0|]; [|discriminate].
  destruct p as [|k p].
  - injection Hat as ->. simpl. by destruct (nth_error (regionChildren r) i).
  - simpl app. by apply IH.
Qed.

Lemma forEachFrom_tested callback cs : forall i dm,
  (forall j c dm', cs !! j = Some c -> sameStatic dm dm' ->
     ExpandsOnlyTested vp threshold dm' (callback (i + j)%nat c dm')) ->
  ExpandsOnlyTested vp threshold dm (forEachFrom callback i cs dm).
Proof.
  induction cs as [|c cs IH]; intros i dm Hcb; simpl;
    [apply ExpandsOnlyTested_refl|].
  assert (H0 : ExpandsOnlyTested vp threshold dm (callback i c dm)).
  { rewrite <- (Nat.add_0_r i) at 1. apply (Hcb 0%nat c dm);
      [reflexivity | apply sameStatic_refl]. }
  eapply ExpandsOnlyTested_trans; [exact H0|].
  apply IH. intros j c' dm' Hj Hs.
  replace (S i + j)%nat with (i + S j)%nat by lia.
  apply (Hcb (S j) c' dm'); [exact Hj|].
  eapply sameStatic_trans; [apply H0 | exact Hs].
Qed.

Lemma searchUntilCollapse_tested r :
  forall p dm,
    regionAt (rootRegions dm) p = Some r ->
    getExpansionState dm r vp threshold = EXPANDED ->
    ExpandsOnlyTested vp threshold dm (searchUntilCollapse vp threshold p r dm).
Proof.
  induction r as [br els cs ab IH] using Region_ind'. intros p dm Hat Htest.
  cbn [searchUntilCollapse regionChildren].
  set (r := mkRegion br els cs ab) in *.
  assert (H1 : ExpandsOnlyTested vp threshold dm (setExpansionState p r true dm)).
  { split; [repeat split|]. intros q Hq. simpl in Hq.
    destruct (decide (q = p)) as [->|Hne]; [right; eauto|].
    left. by rewrite lookup_insert_ne in Hq. }
  eapply ExpandsOnlyTested_trans; [exact H1|].
  apply forEachFrom_tested. intros j c dm' Hj Hs.
  destruct (boundingRectangle c); [|apply ExpandsOnlyTested_refl].
  destruct (getExpansionState dm' c vp threshold) eqn:Hc.
  - rewrite Forall_lookup in IH. apply (IH j c Hj); [|exact Hc].
    destruct Hs as (_ & -> & _). simpl. rewrite (regionAt_child _ _ _ _ Hat).
    simpl. by rewrite nth_error_is_lookup.
  - eapply ExpandsOnlyTested_trans.
    + apply (ExpandsOnlyTested_unwritten dm'
               (withCritical (setAdd p (criticalRegions dm')) dm'));
        [repeat split | reflexivity].
    + apply ExpandsOnlyTested_collapses, recursiveCollapseRegion_collapses.
Qed.

Lemma processRegion_tested p st :
  ExpandsOnlyTested vp threshold (csMap st) (csMap (processRegion vp threshold p st)).
Proof.
  unfold processRegion.
  destruct (regionAt (rootRegions (csMap st)) p) as [region|];
    [|apply ExpandsOnlyTested_refl].
  destruct (_ || _); [|apply ExpandsOnlyTested_refl].
  set (dm1 := setExpansionState p region false (csMap st)).
  set (dm2 := withCritical (setDelete p (criticalRegions dm1)) dm1).
  assert (H2 : ExpandsOnlyTested vp threshold (csMap st) dm2).
  { apply ExpandsOnlyTested_collapses.
    eapply OnlyCollapses_trans;
      [apply setExpansionState_collapses | apply setDelete_collapses]. }
  assert (Hloop : forall dm3, ExpandsOnlyTested vp threshold dm3
            (forEachFrom
               (fun i childRegion dm => recursiveCollapseRegion (p ++ [i]) childRegion dm)
               0%nat (regionChildren region) dm3)).
  { intros dm3. apply ExpandsOnlyTested_collapses, forEachFrom_collapses.
    apply Forall_forall. intros c _ i dm'. apply recursiveCollapseRegion_collapses. }
  destruct (parentRef p) as [pp|]; cbn [csMap].
  - eapply ExpandsOnlyTested_trans; [exact H2|].
    eapply ExpandsOnlyTested_trans; [|apply Hloop].
    apply ExpandsOnlyTested_unwritten; [repeat split | reflexivity].
  - eapply ExpandsOnlyTested_trans; [exact H2 | apply Hloop].
Qed.

Lemma processRound_tested tbp : forall st,
  ExpandsOnlyTested vp threshold (csMap st)
    (csMap (fold_left (fun st p => processRegion vp threshold p st) tbp st)).
Proof.
  induction tbp as [|p tbp IH]; intros st; simpl; [apply ExpandsOnlyTested_refl|].
  eapply ExpandsOnlyTested_trans; [apply processRegion_tested | apply IH].
Qed.

Lemma processLoop_tested : forall fuel tbp dm cs dm' cs',
  processLoop fuel vp threshold tbp dm cs = Some (dm', cs') ->
  ExpandsOnlyTested vp threshold dm dm'.
Proof.
  induction fuel as [|fuel IH]; intros tbp dm cs dm' cs' Hrun.
  - destruct tbp; [|discriminate]. injection Hrun as <- _.
    apply ExpandsOnlyTested_refl.
  - destruct tbp as [|p tbp]; [injection Hrun as <- _; apply ExpandsOnlyTested_refl|].
    cbn [processLoop] in Hrun. apply IH in Hrun.
    eapply ExpandsOnlyTested_trans; [|exact Hrun].
    apply (processRound_tested (p :: tbp) (mkCheckState dm cs [])).
Qed.

Lemma checkChild_tested dm q :
  ExpandsOnlyTested vp threshold dm (checkChild vp threshold dm q).
Proof.
  unfold checkChild.
  destruct (regionAt (rootRegions dm) q) as [childRegion|] eqn:Hat;
    [|apply ExpandsOnlyTested_refl].
  destruct (getExpansionState dm childRegion vp threshold) eqn:Htest.
  - by apply searchUntilCollapse_tested.
  - eapply ExpandsOnlyTested_trans;
      [|apply ExpandsOnlyTested_collapses, recursiveCollapseRegion_collapses].
    destruct (parentRef q); [|apply ExpandsOnlyTested_refl].
    apply ExpandsOnlyTested_unwritten; [repeat split | reflexivity].
Qed.

Lemma checkChildren_tested childSet : forall dm,
  ExpandsOnlyTested vp threshold dm (fold_left (checkChild vp threshold) childSet dm).
Proof.
  induction childSet as [|q childSet IH]; intros dm; simpl;
    [apply ExpandsOnlyTested_refl|].
  eapply ExpandsOnlyTested_trans; [apply checkChild_tested | apply IH].
Qed.

Lemma initializeRoots_tested dm :
  ExpandsOnlyTested vp threshold dm (initializeRoots vp threshold dm).
Proof.
  unfold initializeRoots. apply forEachFrom_tested. intros j region dm' Hj Hs.
  destruct (getExpansionState dm' region vp threshold) eqn:Htest;
    [|apply ExpandsOnlyTested_refl].
  apply searchUntilCollapse_tested; [|exact Htest].
  destruct Hs as (_ & -> & _). simpl. by rewrite nth_error_is_lookup, Hj.
Qed.

End Tested.

(** X26.  [expandCollapse] expands only what tests [EXPANDED]: a region
    that is [EXPANDED] when the call returns either was [EXPANDED] before
    the call, or is a region of the tree for which [getExpansionState]
    returns [EXPANDED] at the new viewport.  A region that tests
    [COLLAPSED] is never newly expanded, whichever path the update takes
    (cold start or [checkCriticalRegions]). *)
Theorem expandCollapse_expands_only_tested vp opts dm :
  exists dm',
    expandCollapse vp opts dm = Some dm' /\
    forall q, expansionState dm' !! q = Some EXPANDED ->
      expansionState dm !! q = Some EXPANDED \/
      exists region, regionAt (rootRegions dm) q = Some region /\
        getExpansionState dm region vp (thresholdOf opts) = EXPANDED.
Proof.
  unfold expandCollapse. destruct (viewportUnchanged (viewport dm) vp).
  - exists dm. split; [reflexivity | by left].
  - set (dm1 := withViewport (Some (mkViewport (scroll vp) (zoom vp))) dm).
    assert (Hfinish : forall dm',
              ExpandsOnlyTested vp (thresholdOf opts) dm1 dm' ->
              forall q, expansionState dm' !! q = Some EXPANDED ->
                expansionState dm !! q = Some EXPANDED \/
                exists region, regionAt (rootRegions dm) q = Some region /\
                  getExpansionState dm region vp (thresholdOf opts) = EXPANDED).
    { intros dm' [_ He] q Hq. exact (He q Hq). }
    destruct (criticalRegions dm1) as [|c cs] eqn:Hcrit.
    + eexists. split; [reflexivity|]. apply Hfinish, initializeRoots_tested.
    + unfold checkCriticalRegions.
      destruct (processLoop_terminates vp (thresholdOf opts)
                  (S (maxDepth (criticalRegions dm1))) (criticalRegions dm1) dm1 [])
        as (dm2 & childSet & Hloop & _); [lia|].
      rewrite Hloop. eexists. split; [reflexivity|]. apply Hfinish.
      eapply ExpandsOnlyTested_trans;
        [by eapply processLoop_tested | apply checkChildren_tested].
Qed.

End DepthMapMore.
